(** * Rein orchestrator: a shallow embedding of the execution engine

    The development follows the Python sources:
    - [rein/models.py]   : the [Process] record;
    - [rein/state.py]    : the SQLite-backed state store ([ReinState]);
    - [rein/orchestrator.py] : [ProcessManager] (phases, resume cascade,
      condition evaluator, next transitions, pause/resume, main loop,
      finalisation, prompt assembly).

    Conventions.  Python [int] is [Z]; Python [float] is an exact rational
    [Q] (the modelled code only stores and compares floats); [str] is
    [string]; [None]-able values are [option]; a [dict] used as a map is a
    [gmap]; a [dict] whose iteration order matters is an association list
    in insertion order; a [set] is a [gset]. The append-only event log is a
    [list string] with the newest entry last. *)

From Stdlib Require Import ZArith QArith Ascii String List Bool Lia.
From stdpp Require Import base option list gmap sets strings pretty sorting.

Set Warnings "-register-all,-clear-no-such-hyp".
Local Open Scope string_scope.
Local Open Scope list_scope.
Local Open Scope Z_scope.

(* ===================================================================== *)
(** * Part I: definitions                                                 *)
(* ===================================================================== *)

(** ** rein/models.py *)

(** One [if]/[else] entry of a conditional [next] list. *)
Inductive ElseValue : Type :=
| ElseTrue
| ElseName (target : string).

Record Condition : Type := mkCondition {
  cond_if : option string;
  cond_else : option ElseValue;
  cond_goto : option string
}.

(** [next]: a block name, or an ordered list of conditions. *)
Inductive NextSpec : Type :=
| NextStr (target : string)
| NextList (conds : list Condition).

(** [@dataclass Process].  [previous_status] is the dynamic attribute
    [_previous_status] that [pause_single] attaches to the object:
    [None] when the attribute is absent. *)
Record Process : Type := mkProcess {
  pid : option Z;
  name : string;
  status : string;
  start_time : Q;
  command : string;
  uid : string;
  exit_code : option Z;
  cpu_percent : Q;
  memory_mb : Q;
  depends_on : list string;
  progress : Z;
  phase : Z;
  blocking_pause : bool;
  agent : string;
  next_spec : option NextSpec;
  max_runs : Z;
  run_count : Z;
  previous_status : option string
}.

(** [Process(pid=.., name=.., status=.., start_time=.., command=..,
    exit_code=.., cpu_percent=.., memory_mb=.., progress=.., phase=..,
    blocking_pause=..)] : the constructor call made by the state store,
    every other field takes its dataclass default. *)
Definition Process_from_row (pid_ : option Z) (name_ status_ : string)
    (start_time_ : Q) (command_ : string) (exit_code_ : option Z)
    (cpu_percent_ memory_mb_ : Q) (progress_ phase_ : Z)
    (blocking_pause_ : bool) : Process :=
  {| pid := pid_; name := name_; status := status_;
     start_time := start_time_; command := command_;
     uid := ""; exit_code := exit_code_;
     cpu_percent := cpu_percent_; memory_mb := memory_mb_;
     depends_on := []; progress := progress_; phase := phase_;
     blocking_pause := blocking_pause_; agent := "";
     next_spec := None; max_runs := 1; run_count := 0;
     previous_status := None |}.

(** ** rein/state.py *)

Module ReinState.

(** One row of table [processes]; the primary key [name] is the map key.
    [blocking_pause] is stored as [int(proc.blocking_pause)]. *)
Record Row : Type := mkRow {
  r_pid : option Z;
  r_status : string;
  r_start_time : Q;
  r_command : string;
  r_exit_code : option Z;
  r_cpu_percent : Q;
  r_memory_mb : Q;
  r_progress : Z;
  r_phase : Z;
  r_blocking_pause : Z;
  r_updated_at : Q
}.

Abbreviation Db := (gmap string Row).

(** [REPLACE INTO processes (...) VALUES (...)]; [now] is [time.time()]. *)
Definition save_process (now : Q) (proc : Process) (db : Db) : Db :=
  <[ name proc :=
       {| r_pid := pid proc; r_status := status proc;
          r_start_time := start_time proc; r_command := command proc;
          r_exit_code := exit_code proc;
          r_cpu_percent := cpu_percent proc; r_memory_mb := memory_mb proc;
          r_progress := progress proc; r_phase := phase proc;
          r_blocking_pause := if blocking_pause proc then 1 else 0;
          r_updated_at := now |} ]> db.

(** [bool(row[10])]. *)
Definition bool_of_int (z : Z) : bool := negb (z =? 0).

Definition row_to_process (n : string) (r : Row) : Process :=
  Process_from_row (r_pid r) n (r_status r) (r_start_time r) (r_command r)
    (r_exit_code r) (r_cpu_percent r) (r_memory_mb r) (r_progress r)
    (r_phase r) (bool_of_int (r_blocking_pause r)).

(** [SELECT ... WHERE name = ?], [fetchone()]; [None] when no row. *)
Definition get_process (n : string) (db : Db) : option Process :=
  row_to_process n <$> db !! n.

End ReinState.

(** ** Values read from JSON and YAML documents *)

(** A Python number as the evaluator sees it: an [int] or a finite
    [float] is its exact rational value; [float] also has the two
    infinities and NaN. *)
Inductive num : Type :=
| Fin (q : Q)
| PosInf
| NegInf
| NaN.

Inductive json : Type :=
| JNull
| JBool (b : bool)
| JNum (n : num)
| JStr (s : string)
| JList (items : list json)
| JDict (fields : list (string * json)).

(** ** Block configuration (one entry of [config['blocks']])

    A block is a [dict]; a key that may be missing is an [option], and
    each accessor applies the default of the corresponding [block.get]. *)
Record Block : Type := mkBlock {
  b_name : option string;
  b_stage : option string;
  b_command : option string;
  b_depends_on : option (list string);
  b_blocking_pause : option bool;
  b_agent : option string;
  b_next : option NextSpec;
  b_max_runs : option Z;
  b_skip_if_previous_failed : option bool;
  b_continue_if_failed : option bool
}.

(** [block.get('name') or block.get('stage', 'unknown')]: a missing or
    empty [name] falls through to [stage]. *)
Definition block_name (b : Block) : string :=
  match b_name b with
  | Some n => if decide (n = "") then default "unknown" (b_stage b) else n
  | None => default "unknown" (b_stage b)
  end.

(** [block.get('depends_on', [])]. *)
Definition block_deps (b : Block) : list string := default [] (b_depends_on b).

(** [block.get('max_runs', 1)]. *)
Definition block_max_runs (b : Block) : Z := default 1 (b_max_runs b).

(** ** The manager state ([ProcessManager] attributes)

    [processes] is the dict [uid -> Process] in insertion order;
    [state] is the task database; [outputs] is the set of block names
    whose directory [<run_dir>/<block>/outputs] exists on disk;
    [rein_log] holds the messages passed to [_write_rein_log]. *)
Record Manager : Type := mkManager {
  all_blocks : list Block;
  processes : list (string * Process);
  completed : gset string;
  next_queue : list (string * json);
  run_counts : gmap string Z;
  block_configs : gmap string Block;
  workflow_paused : bool;
  stop_workflow : bool;
  stop_reason : option string;
  state : gmap string ReinState.Row;
  outputs : gset string;
  rein_log : list string
}.

Definition set_processes (ps : list (string * Process)) (m : Manager) : Manager :=
  mkManager (all_blocks m) ps (completed m) (next_queue m) (run_counts m)
    (block_configs m) (workflow_paused m) (stop_workflow m) (stop_reason m)
    (state m) (outputs m) (rein_log m).

Definition set_completed (c : gset string) (m : Manager) : Manager :=
  mkManager (all_blocks m) (processes m) c (next_queue m) (run_counts m)
    (block_configs m) (workflow_paused m) (stop_workflow m) (stop_reason m)
    (state m) (outputs m) (rein_log m).

Definition set_next_queue (q : list (string * json)) (m : Manager) : Manager :=
  mkManager (all_blocks m) (processes m) (completed m) q (run_counts m)
    (block_configs m) (workflow_paused m) (stop_workflow m) (stop_reason m)
    (state m) (outputs m) (rein_log m).

Definition set_run_counts (rc : gmap string Z) (m : Manager) : Manager :=
  mkManager (all_blocks m) (processes m) (completed m) (next_queue m) rc
    (block_configs m) (workflow_paused m) (stop_workflow m) (stop_reason m)
    (state m) (outputs m) (rein_log m).

Definition set_block_configs (bc : gmap string Block) (m : Manager) : Manager :=
  mkManager (all_blocks m) (processes m) (completed m) (next_queue m)
    (run_counts m) bc (workflow_paused m) (stop_workflow m) (stop_reason m)
    (state m) (outputs m) (rein_log m).

Definition set_stop (reason : string) (m : Manager) : Manager :=
  mkManager (all_blocks m) (processes m) (completed m) (next_queue m)
    (run_counts m) (block_configs m) (workflow_paused m) true (Some reason)
    (state m) (outputs m) (rein_log m).

Definition set_state (db : gmap string ReinState.Row) (m : Manager) : Manager :=
  mkManager (all_blocks m) (processes m) (completed m) (next_queue m)
    (run_counts m) (block_configs m) (workflow_paused m) (stop_workflow m)
    (stop_reason m) db (outputs m) (rein_log m).

Definition set_outputs (o : gset string) (m : Manager) : Manager :=
  mkManager (all_blocks m) (processes m) (completed m) (next_queue m)
    (run_counts m) (block_configs m) (workflow_paused m) (stop_workflow m)
    (stop_reason m) (state m) o (rein_log m).

(** [_write_rein_log(message)] (the timestamp prefix is left out). *)
Definition write_rein_log (msg : string) (m : Manager) : Manager :=
  mkManager (all_blocks m) (processes m) (completed m) (next_queue m)
    (run_counts m) (block_configs m) (workflow_paused m) (stop_workflow m)
    (stop_reason m) (state m) (outputs m) (rein_log m ++ [msg]).

(** [d[k] = v] on a dict kept in insertion order: an existing key keeps
    its position, a new key goes last. *)
Fixpoint dict_set {V : Type} (k : string) (v : V) (d : list (string * V))
  : list (string * V) :=
  match d with
  | [] => [(k, v)]
  | (k', v') :: rest =>
      if decide (k' = k) then (k, v) :: rest else (k', v') :: dict_set k v rest
  end.

(** [k in d] and [d[k]]. *)
Fixpoint dict_get {V : Type} (k : string) (d : list (string * V)) : option V :=
  match d with
  | [] => None
  | (k', v) :: rest => if decide (k' = k) then Some v else dict_get k rest
  end.

(** [del d[k]]. *)
Definition dict_del {V : Type} (k : string) (d : list (string * V)) : list (string * V) :=
  filter (fun kv => kv.1 <> k) d.

(** [self.state.save_process(process)] at time [now]. *)
Definition db_save (now : Q) (p : Process) (m : Manager) : Manager :=
  set_state (ReinState.save_process now p (state m)) m.

(** [self.state.save_process(process)] for the object stored at position
    [i] of [self.processes]. *)
Definition save_at (now : Q) (i : nat) (m : Manager) : Manager :=
  match processes m !! i with
  | Some (_, process) => db_save now process m
  | None => m
  end.

(** ** In-place updates of a [Process] object *)

(** The attributes that the orchestrator assigns after construction. *)
Definition mutate (p : Process) (pid_ : option Z) (status_ : string)
    (start_time_ : Q) (exit_code_ : option Z) (progress_ run_count_ : Z)
    (previous_status_ : option string) : Process :=
  {| pid := pid_; name := name p; status := status_; start_time := start_time_;
     command := command p; uid := uid p; exit_code := exit_code_;
     cpu_percent := cpu_percent p; memory_mb := memory_mb p;
     depends_on := depends_on p; progress := progress_; phase := phase p;
     blocking_pause := blocking_pause p; agent := agent p;
     next_spec := next_spec p; max_runs := max_runs p; run_count := run_count_;
     previous_status := previous_status_ |}.

Definition with_status (st : string) (p : Process) : Process :=
  mutate p (pid p) st (start_time p) (exit_code p) (progress p) (run_count p)
    (previous_status p).

Definition with_progress (pr : Z) (p : Process) : Process :=
  mutate p (pid p) (status p) (start_time p) (exit_code p) pr (run_count p)
    (previous_status p).

Definition with_run_count (rc : Z) (p : Process) : Process :=
  mutate p (pid p) (status p) (start_time p) (exit_code p) (progress p) rc
    (previous_status p).

Definition with_exit_code (ec : option Z) (p : Process) : Process :=
  mutate p (pid p) (status p) (start_time p) ec (progress p) (run_count p)
    (previous_status p).

Definition with_previous_status (prev : option string) (p : Process) : Process :=
  mutate p (pid p) (status p) (start_time p) (exit_code p) (progress p)
    (run_count p) prev.

Definition with_start (pid_ : option Z) (t : Q) (p : Process) : Process :=
  mutate p pid_ (status p) t (exit_code p) (progress p) (run_count p)
    (previous_status p).

(** ** Looking processes up *)

(** Position of the first entry whose key is [k] ([k in self.processes]). *)
Fixpoint index_of_uid (k : string) (ps : list (string * Process)) : option nat :=
  match ps with
  | [] => None
  | (u, _) :: rest =>
      if decide (u = k) then Some O else S <$> index_of_uid k rest
  end.

(** Position of the first entry whose process is named [n]
    ([for uid, proc in self.processes.items(): if proc.name == n]). *)
Fixpoint index_of_name (n : string) (ps : list (string * Process)) : option nat :=
  match ps with
  | [] => None
  | (_, p) :: rest =>
      if decide (name p = n) then Some O else S <$> index_of_name n rest
  end.

(** The lookup shared by [pause_single], [resume_single] and
    [cancel_single]: by UID first, then by name. *)
Definition find_target (identifier : string) (ps : list (string * Process))
  : option nat :=
  match index_of_uid identifier ps with
  | Some i => Some i
  | None => index_of_name identifier ps
  end.

(** Mutating the object stored at position [i]. *)
Definition update_at (i : nat) (f : Process -> Process)
    (ps : list (string * Process)) : list (string * Process) :=
  alter (fun up => (up.1, f up.2)) i ps.

(** ** Phases *)

(** [_calculate_phase(depends_on, block_phases)]. *)
Definition calculate_phase (deps : list string) (block_phases : gmap string Z) : Z :=
  match deps with
  | [] => 1
  | _ => foldr Z.max 0 ((fun dep => default 0 (block_phases !! dep)) <$> deps) + 1
  end.

(** The first pass of [_initialize_all_processes]: one sweep over the
    blocks in document order, each phase computed from the phases
    recorded so far. *)
Definition phase_pass_step (block_phases : gmap string Z) (b : Block) : gmap string Z :=
  <[ block_name b := calculate_phase (block_deps b) block_phases ]> block_phases.

Definition phase_pass (blocks : list Block) : gmap string Z :=
  foldl phase_pass_step ∅ blocks.

(** ** Resume cascade *)

(** [_get_dependents_map]: reverse dependency graph. *)
Definition add_dependent (n : string) (dependents : gmap string (list string))
    (dep : string) : gmap string (list string) :=
  <[ dep := default [] (dependents !! dep) ++ [n] ]> dependents.

Definition get_dependents_map (blocks : list Block) : gmap string (list string) :=
  foldl (fun dependents b => foldl (add_dependent (block_name b)) dependents (block_deps b))
        ∅ blocks.

(** The inner [for downstream in dependents_map.get(current, [])] loop of
    [_cascade_invalidation]; the triple is [(needs_rerun, queue, log)]. *)
Fixpoint cascade_visit (current : string) (downs : list string)
    (acc : gset string * list string * list string)
  : gset string * list string * list string :=
  match downs with
  | [] => acc
  | downstream :: rest =>
      let '(needs_rerun, queue, log) := acc in
      if decide (downstream ∈ needs_rerun) then cascade_visit current rest acc
      else cascade_visit current rest
             ({[downstream]} ∪ needs_rerun, queue ++ [downstream],
              log ++ ["CASCADE | " +:+ downstream +:+ " | invalidated (depends on "
                        +:+ current +:+ ")"])
  end.

(** The [while queue:] loop, bounded by [fuel] iterations. *)
Fixpoint cascade_loop (fuel : nat) (dependents_map : gmap string (list string))
    (needs_rerun : gset string) (queue : list string) (log : list string)
  : option (gset string * list string) :=
  match queue with
  | [] => Some (needs_rerun, log)
  | current :: queue' =>
      match fuel with
      | O => None
      | S fuel' =>
          let '(needs', queue'', log') :=
            cascade_visit current (default [] (dependents_map !! current))
                          (needs_rerun, queue', log) in
          cascade_loop fuel' dependents_map needs' queue'' log'
      end
  end.

(** Every name that occurs as somebody's dependent. *)
Definition all_dependents (dependents_map : gmap string (list string)) : gset string :=
  map_fold (fun _ ds acc => list_to_set ds ∪ acc) ∅ dependents_map.

(** [_cascade_invalidation(failed_blocks, dependents_map)]: breadth-first
    search from the failed blocks. [list(failed_blocks)] is taken in the
    order of [elements]. The fuel covers one iteration per queue entry. *)
Definition cascade_invalidation (failed_blocks : gset string)
    (dependents_map : gmap string (list string)) (log : list string)
  : option (gset string * list string) :=
  cascade_loop (size failed_blocks + size (all_dependents dependents_map))
               dependents_map failed_blocks (elements failed_blocks) log.

(** [_clean_block_outputs(block_name)]. *)
Definition clean_block_outputs (n : string) (m : Manager) : Manager :=
  if decide (n ∈ outputs m)
  then write_rein_log ("CLEANUP | " +:+ n +:+ " | removed outputs")
         (set_outputs (outputs m ∖ {[n]}) m)
  else m.

(** What the environment supplies to the [i]-th block of the second pass:
    [str(uuid.uuid4())[:8]] and [time.time()]. *)
Record InitEnv : Type := mkInitEnv {
  fresh_uid : nat -> string;
  time_at : nat -> Q
}.

(** [existing_status]: name -> status of every persisted record. *)
Definition existing_status (m : Manager) : gmap string string :=
  ReinState.r_status <$> state m.

(** [{name for name, status in existing_status.items()
      if status in ("failed", "running")}]. *)
Definition is_interrupted (st : string) : bool :=
  bool_decide (st = "failed") || bool_decide (st = "running").

Definition failed_blocks_of (es : gmap string string) : gset string :=
  dom (filter (fun kv => is_interrupted kv.2 = true) es).

(** One iteration of the second pass of [_initialize_all_processes]. *)
Definition init_block (env : InitEnv) (es : gmap string string)
    (needs_rerun : gset string) (block_phases : gmap string Z)
    (acc : Manager * Z) (ib : nat * Block) : Manager * Z :=
  let '(m, restored_count) := acc in
  let '(i, block) := ib in
  let n := block_name block in
  let mk st pr :=
    {| pid := None; name := n; status := st; start_time := time_at env i;
       command := default "" (b_command block); uid := fresh_uid env i;
       exit_code := None; cpu_percent := 0; memory_mb := 0;
       depends_on := block_deps block; progress := pr;
       phase := default 0 (block_phases !! n);
       blocking_pause := default true (b_blocking_pause block);
       agent := default "" (b_agent block); next_spec := b_next block;
       max_runs := block_max_runs block; run_count := 0;
       previous_status := None |} in
  if bool_decide (es !! n = Some "done") && bool_decide (n ∉ needs_rerun) then
    let m1 := write_rein_log ("RESUME SKIP | " +:+ n +:+ " | already done") m in
    let m2 := set_completed ({[n]} ∪ completed m1) m1 in
    let m3 := set_processes (dict_set (fresh_uid env i) (mk "done" 100) (processes m2)) m2 in
    (set_block_configs (<[n := block]> (block_configs m3)) m3, restored_count + 1)
  else
    let process := mk "waiting" 0 in
    let m1 := set_processes (dict_set (fresh_uid env i) process (processes m)) m in
    let m2 := set_block_configs (<[n := block]> (block_configs m1)) m1 in
    (db_save (time_at env i) process m2, restored_count).

(** Pair every block with its position in the document. *)
Definition indexed {A : Type} (l : list A) : list (nat * A) :=
  zip (seq 0 (length l)) l.

(** [_initialize_all_processes]. Python iterates the set [needs_rerun] in
    an unspecified order; here the order is that of [elements]. *)
Definition initialize_all_processes (env : InitEnv) (m : Manager) : option Manager :=
  let es := existing_status m in
  let failed_blocks := failed_blocks_of es in
  casc ←
    (if decide (failed_blocks = ∅) then Some (∅, rein_log m)
     else
       '(needs, log) ← cascade_invalidation failed_blocks
                         (get_dependents_map (all_blocks m)) (rein_log m);
       Some (needs,
             log ++ ["RESUME | " +:+ pretty (Z.of_nat (size failed_blocks))
                       +:+ " failed/running blocks, "
                       +:+ pretty (Z.of_nat (size needs)) +:+ " total to re-run"]));
  let '(needs_rerun, log) := casc in
  let m0 := mkManager (all_blocks m) (processes m) (completed m) (next_queue m)
              (run_counts m) (block_configs m) (workflow_paused m)
              (stop_workflow m) (stop_reason m) (state m) (outputs m) log in
  let m1 := foldl (fun acc n => clean_block_outputs n acc) m0 (elements needs_rerun) in
  let block_phases := phase_pass (all_blocks m) in
  let '(m2, restored_count) :=
    foldl (init_block env es needs_rerun block_phases) (m1, 0) (indexed (all_blocks m)) in
  Some (if bool_decide (0 < restored_count)
        then write_rein_log ("RESUME | Restored " +:+ pretty restored_count
                               +:+ " completed blocks from previous run") m2
        else m2).

(** ** State-machine transitions ([next])

    The tail of [_execute_block]: what happens once [_evaluate_next_block]
    has produced the target [next_block_name] for the finished block
    [block]. *)

(** [next_block_config.get('max_runs', 1) if next_block_config else 1]. *)
Definition target_max_runs (m : Manager) (target : string) : Z :=
  match block_configs m !! target with
  | Some cfg => block_max_runs cfg
  | None => 1
  end.

(** [self.run_counts.get(next_block_name, 0)]. *)
Definition current_runs (m : Manager) (target : string) : Z :=
  default 0 (run_counts m !! target).

Definition next_blocked_msg (target : string) (runs maxr : Z) : string :=
  "NEXT BLOCKED | " +:+ target +:+ " | run_count=" +:+ pretty runs
    +:+ " >= max_runs=" +:+ pretty maxr.

Definition next_queued_msg (block target : string) (runs maxr : Z) : string :=
  "NEXT QUEUED | " +:+ block +:+ " -> " +:+ target +:+ " | run="
    +:+ pretty runs +:+ "/" +:+ pretty maxr.

(** The loop that resets the first process named [target] and saves it. *)
Definition reset_target (now : Q) (target : string) (runs : Z) (m : Manager) : Manager :=
  match index_of_name target (processes m) with
  | None => m
  | Some i =>
      let reset p := with_run_count runs (with_progress 0 (with_status "waiting" p)) in
      save_at now i (set_processes (update_at i reset (processes m)) m)
  end.

Definition trigger_next (now : Q) (block target : string) (result_data : json)
    (m : Manager) : Manager :=
  let runs := current_runs m target in
  let maxr := target_max_runs m target in
  if decide (runs >= maxr) then
    write_rein_log (next_blocked_msg target runs maxr) m
  else
    let m1 := set_run_counts (<[target := runs + 1]> (run_counts m)) m in
    let m2 := set_completed (completed m1 ∖ {[target]}) m1 in
    let m3 := reset_target now target (runs + 1) m2 in
    let m4 := set_next_queue (next_queue m3 ++ [(target, result_data)]) m3 in
    write_rein_log (next_queued_msg block target (runs + 1) maxr) m4.

(** A run of the state machine seen from the counters: the successive
    [(finished block, target, result data)] triples. *)
Definition trigger_all (now : Q) (events : list (string * string * json))
    (m : Manager) : Manager :=
  foldl (fun acc ev => trigger_next now ev.1.1 ev.1.2 ev.2 acc) m events.

(** ** Pause, resume and cancel of one block *)

Definition is_done_or_failed (st : string) : bool :=
  bool_decide (st = "done") || bool_decide (st = "failed").

(** The assignments of [pause_single] on the process it found:
    [_previous_status] is set only when the attribute is absent. *)
Definition pause_mut (p : Process) : Process :=
  with_status "paused"
    (with_previous_status
       (match previous_status p with
        | None => Some (status p)
        | Some old => Some old
        end) p).

(** The assignments of [resume_single]:
    [getattr(process, '_previous_status', 'waiting')], then [delattr]. *)
Definition resume_mut (p : Process) : Process :=
  with_previous_status None (with_status (default "waiting" (previous_status p)) p).

(** [pause_single(identifier)]: the returned flag and the new state. *)
Definition pause_single (now : Q) (identifier : string) (m : Manager)
  : bool * Manager :=
  match find_target identifier (processes m) with
  | None => (false, m)
  | Some i =>
      match processes m !! i with
      | None => (false, m)
      | Some (process_id, process) =>
          if is_done_or_failed (status process) then (false, m)
          else
            let process' := pause_mut process in
            let m1 := set_processes (update_at i pause_mut (processes m)) m in
            let m2 := db_save now process' m1 in
            (true,
             write_rein_log ("PAUSE_SINGLE | " +:+ name process' +:+ "[" +:+ process_id
                               +:+ "] | previous_status="
                               +:+ default "" (previous_status process')) m2)
      end
  end.

(** [resume_single(identifier)]. *)
Definition resume_single (now : Q) (identifier : string) (m : Manager)
  : bool * Manager :=
  match find_target identifier (processes m) with
  | None => (false, m)
  | Some i =>
      match processes m !! i with
      | None => (false, m)
      | Some (process_id, process) =>
          if bool_decide (status process <> "paused") then (false, m)
          else
            let process' := resume_mut process in
            let m1 := set_processes (update_at i resume_mut (processes m)) m in
            let m2 := db_save now process' m1 in
            (true,
             write_rein_log ("RESUME_SINGLE | " +:+ name process' +:+ "[" +:+ process_id
                               +:+ "] | resumed_to=" +:+ status process') m2)
      end
  end.

(** [cancel_single(identifier)]; the SIGTERM sent to a running worker is
    outside the state and shows only as a log line. *)
Definition cancel_single (now : Q) (identifier : string) (m : Manager)
  : bool * Manager :=
  match find_target identifier (processes m) with
  | None => (false, m)
  | Some i =>
      match processes m !! i with
      | None => (false, m)
      | Some (process_id, process) =>
          let m0 :=
            if bool_decide (status process = "running") &&
               match pid process with Some z => negb (z =? 0) | None => false end
            then write_rein_log ("KILL SENT | " +:+ name process +:+ "[" +:+ process_id
                                   +:+ "] | pid=" +:+ pretty (default 0 (pid process))) m
            else m in
          let process' := with_status "cancelled" process in
          let m1 := set_processes (update_at i (with_status "cancelled") (processes m0)) m0 in
          let m2 := db_save now process' m1 in
          (true,
           write_rein_log ("CANCEL_SINGLE | " +:+ name process' +:+ "[" +:+ process_id
                             +:+ "] | previous_status=" +:+ status process') m2)
      end
  end.

(** ** Predicates used to state the properties *)

(** The dependency graph of a document is acyclic: every block ranks
    strictly above each of its dependencies. *)
Definition acyclic_deps (blocks : list Block) : Prop :=
  exists rank : string -> nat,
    forall b d, b ∈ blocks -> d ∈ block_deps b -> (rank d < rank (block_name b))%nat.

(** Every dependency of a block is the name of a block listed earlier. *)
Definition dependency_ordered (blocks : list Block) : Prop :=
  forall pre b post d,
    blocks = pre ++ b :: post -> d ∈ block_deps b -> d ∈ block_name <$> pre.

(** The phase rule: a block without dependencies has phase 1, any other
    block has phase [max (phase of its dependencies) + 1], the phases
    being those that the first pass hands to the second. *)
Definition phase_rule (blocks : list Block) : Prop :=
  forall b, b ∈ blocks ->
    exists pb, phase_pass blocks !! block_name b = Some pb /\
      (block_deps b = [] -> pb = 1) /\
      (block_deps b <> [] ->
         (forall d, d ∈ block_deps b ->
            exists pd, phase_pass blocks !! d = Some pd /\ pd + 1 <= pb) /\
         (exists d pd, d ∈ block_deps b /\
            phase_pass blocks !! d = Some pd /\ pb = pd + 1)).

(** Reachability in the dependents graph: [reach dm x y] when [y] is [x]
    or a transitive dependent of [x]. *)
Inductive reach (dm : gmap string (list string)) (x : string) : string -> Prop :=
| reach_refl : reach dm x x
| reach_step y z : reach dm x y -> z ∈ default [] (dm !! y) -> reach dm x z.

(** A persisted record is interrupted: its status is failed or running. *)
Definition interrupted (db : gmap string ReinState.Row) (n : string) : Prop :=
  exists row, db !! n = Some row /\
    (ReinState.r_status row = "failed" \/ ReinState.r_status row = "running").

(** [n] must be re-run: it is reachable from an interrupted record. *)
Definition invalidated (m : Manager) (n : string) : Prop :=
  exists f, interrupted (state m) f /\
            reach (get_dependents_map (all_blocks m)) f n.

(** The invariant of the cascade loop: the set contains the start set
    [F] and only names reachable from [F]; queued names are in the set;
    every member is either still queued or has all its dependents in the
    set. *)
Definition cascade_inv (dm : gmap string (list string)) (F N : gset string)
    (Q : list string) : Prop :=
  F ⊆ N /\
  (forall x, x ∈ N -> exists f, f ∈ F /\ reach dm f x) /\
  (forall x, x ∈ Q -> x ∈ N) /\
  (forall x, x ∈ N -> x ∈ Q \/ forall d, d ∈ default [] (dm !! x) -> d ∈ N).

(** A block keeps its persisted record when that record is done and the
    block is not in the set to re-run. *)
Definition restorable (es : gmap string string) (needs : gset string)
    (n : string) : Prop :=
  es !! n = Some "done" /\ n ∉ needs.

(** The persisted columns of a freshly created waiting record. *)
Definition waiting_row (row : ReinState.Row) : Prop :=
  ReinState.r_status row = "waiting" /\ ReinState.r_progress row = 0 /\
  ReinState.r_exit_code row = None.

(** Every counter is within the [max_runs] of its block. *)
Definition run_counts_bounded (m : Manager) : Prop :=
  forall t c, run_counts m !! t = Some c -> c <= target_max_runs m t.

(** Every process record is within the [max_runs] of its block. *)
Definition records_bounded (m : Manager) : Prop :=
  forall i u p, processes m !! i = Some (u, p) ->
    run_count p <= target_max_runs m (name p).

(** ** Sample documents used by the examples *)

Definition sample_block (n : string) (deps : list string) : Block :=
  mkBlock (Some n) None None (Some deps) None None None None None None.

Definition sample_env : InitEnv :=
  mkInitEnv (fun i => "uid" +:+ pretty (Z.of_nat i)) (fun _ => 0%Q).

Definition sample_row (st : string) : ReinState.Row :=
  ReinState.mkRow None st 0 "" (Some 0) 0 0 100 1 1 0.

(** A three-block chain [a -> b -> c] interrupted while [b] was running
    (scenario S4 of the specification): [a] is done, [b] is running, [c]
    is still waiting; [a] and [b] have output directories. *)
Definition sample_crashed : Manager :=
  mkManager [sample_block "a" []; sample_block "b" ["a"]; sample_block "c" ["b"]]
    [] ∅ [] ∅ ∅ false false None
    (<["a" := sample_row "done"]>
       (<["b" := sample_row "running"]> (<["c" := sample_row "waiting"]> ∅)))
    {["a"; "b"]} [].

Definition sample_process (u n st : string) : Process :=
  {| pid := None; name := n; status := st; start_time := 0; command := "";
     uid := u; exit_code := None; cpu_percent := 0; memory_mb := 0;
     depends_on := []; progress := 0; phase := 1; blocking_pause := true;
     agent := ""; next_spec := None; max_runs := 1; run_count := 0;
     previous_status := None |}.

(** A manager holding the given processes, nothing else. *)
Definition sample_manager (blocks : list Block) (ps : list (string * Process))
  : Manager :=
  mkManager blocks ps ∅ [] ∅ (list_to_map ((fun b => (block_name b, b)) <$> blocks))
    false false None ∅ ∅ [].

(** A review/revise loop (scenario S3): [review] may run again up to
    three times through [next], [revise] always sends back to [review]. *)
Definition sample_review_loop : Manager :=
  sample_manager
    [mkBlock (Some "review") None None None None None None (Some 3) None None;
     mkBlock (Some "revise") None None None None None (Some (NextStr "review"))
       None None None]
    [("u0", sample_process "u0" "review" "done");
     ("u1", sample_process "u1" "revise" "done")].




(** ** Python string operations

    Strings are sequences of 8-bit characters holding ASCII text; the
    character classes below are those of Python on ASCII code points (a
    character above 127 is neither whitespace nor a word character). *)

Module PyStr.

Definition code (c : ascii) : nat := nat_of_ascii c.

(** [str.isspace], which is also the regular expression class [\s]:
    TAB, LF, VT, FF, CR, FS, GS, RS, US and SPACE. *)
Definition is_space (c : ascii) : bool :=
  ((9 <=? code c) && (code c <=? 13) || (28 <=? code c) && (code c <=? 32))%nat.

Definition is_digit (c : ascii) : bool := ((48 <=? code c) && (code c <=? 57))%nat.

(** The regular expression class [\w] on ASCII. *)
Definition is_word (c : ascii) : bool :=
  (is_digit c || (65 <=? code c) && (code c <=? 90)
   || (97 <=? code c) && (code c <=? 122) || (code c =? 95))%nat.

Definition newline : ascii := ascii_of_nat 10.
Definition double_quote : ascii := ascii_of_nat 34.
Definition single_quote : ascii := ascii_of_nat 39.

Definition eqc (a b : ascii) : bool := Ascii.eqb a b.

(** [str.lower] on ASCII letters. *)
Definition lower_char (c : ascii) : ascii :=
  if ((65 <=? code c) && (code c <=? 90))%nat then ascii_of_nat (code c + 32) else c.

Definition lower (s : list ascii) : list ascii := lower_char <$> s.

(** [s.lstrip(chars)], [s.rstrip(chars)], [s.strip(chars)] for the
    character class [cls]. *)
Fixpoint lstrip_with (cls : ascii -> bool) (s : list ascii) : list ascii :=
  match s with
  | c :: s' => if cls c then lstrip_with cls s' else s
  | [] => []
  end.

Definition rstrip_with (cls : ascii -> bool) (s : list ascii) : list ascii :=
  rev (lstrip_with cls (rev s)).

Definition strip_with (cls : ascii -> bool) (s : list ascii) : list ascii :=
  rstrip_with cls (lstrip_with cls s).

(** [s.strip()]. *)
Definition strip (s : list ascii) : list ascii := strip_with is_space s.

(** [s.startswith(p)] and the rest of [s] after [p]. *)
Fixpoint strip_prefix (p s : list ascii) : option (list ascii) :=
  match p, s with
  | [], _ => Some s
  | a :: p', b :: s' => if eqc a b then strip_prefix p' s' else None
  | _ :: _, [] => None
  end.

(** First occurrence of the non-empty [pat] in [s]: the text before it
    and the text after it; this is [s.split(pat, 1)] when [pat in s]. *)
Fixpoint split_first (pat s : list ascii) : option (list ascii * list ascii) :=
  match strip_prefix pat s with
  | Some rest => Some ([], rest)
  | None =>
      match s with
      | [] => None
      | c :: s' =>
          match split_first pat s' with
          | Some (before, after) => Some (c :: before, after)
          | None => None
          end
      end
  end.

(** [s.split(sep)] for a one-character separator: never empty. *)
Fixpoint split_on (sep : ascii) (s : list ascii) : list (list ascii) :=
  match s with
  | [] => [[]]
  | c :: s' =>
      if eqc c sep then [] :: split_on sep s'
      else match split_on sep s' with
           | part :: parts => (c :: part) :: parts
           | [] => [[c]]
           end
  end.

(** [s.replace(old, new)] for a non-empty [old]: every occurrence, left
    to right, without overlap. [fuel] bounds the scan and [length s]
    always suffices. *)
Fixpoint replace_fuel (fuel : nat) (old new s : list ascii) : list ascii :=
  match fuel with
  | O => s
  | S fuel' =>
      match s with
      | [] => []
      | c :: s' =>
          match strip_prefix old s with
          | Some rest => new ++ replace_fuel fuel' old new rest
          | None => c :: replace_fuel fuel' old new s'
          end
      end
  end.

Definition replace (old new s : list ascii) : list ascii :=
  match old with
  | [] => s
  | _ => replace_fuel (length s) old new s
  end.

Definition of_string (s : string) : list ascii := list_ascii_of_string s.
Definition to_string (s : list ascii) : string := string_of_list_ascii s.

End PyStr.

(** ** Python values: numbers, truthiness, comparisons *)

Module PyVal.

Import PyStr.

(** *** [float(str)]

    Grammar of the builtin: surrounding whitespace, an optional sign, then
    [inf], [infinity] or [nan] in any case, or a decimal number
    [digits[.digits][e[sign]digits]] (also [.digits] and [digits.]) whose
    digit groups may hold single underscores between digits.  A finite
    result is the exact decimal value; [None] stands for [ValueError]. *)

Fixpoint digits_tail (s : list ascii) : list ascii * list ascii :=
  match s with
  | c :: s' =>
      if is_digit c then
        let '(ds, r) := digits_tail s' in (c :: ds, r)
      else if eqc c "_" then
        match s' with
        | d :: s'' =>
            if is_digit d then
              let '(ds, r) := digits_tail s'' in (d :: ds, r)
            else ([], s)
        | [] => ([], s)
        end
      else ([], s)
  | [] => ([], [])
  end.

Definition digitpart (s : list ascii) : option (list ascii * list ascii) :=
  match s with
  | c :: s' =>
      if is_digit c then
        let '(ds, r) := digits_tail s' in Some (c :: ds, r)
      else None
  | [] => None
  end.

Definition digits_value (ds : list ascii) : Z :=
  foldl (fun acc c => 10 * acc + Z.of_nat (code c - 48)) 0 ds.

(** Optional sign: [true] for a minus. *)
Definition take_sign (s : list ascii) : bool * list ascii :=
  match s with
  | c :: s' =>
      if eqc c "-" then (true, s')
      else if eqc c "+" then (false, s')
      else (false, s)
  | [] => (false, [])
  end.

(** The mantissa: integer digits, fraction digits, rest. *)
Definition float_number (s : list ascii)
  : option (list ascii * list ascii * list ascii) :=
  match digitpart s with
  | Some (ip, r) =>
      match r with
      | c :: r' =>
          if eqc c "." then
            match digitpart r' with
            | Some (fp, r'') => Some (ip, fp, r'')
            | None => Some (ip, [], r')
            end
          else Some (ip, [], r)
      | [] => Some (ip, [], [])
      end
  | None =>
      match s with
      | c :: s' =>
          if eqc c "." then
            match digitpart s' with
            | Some (fp, r) => Some ([], fp, r)
            | None => None
            end
          else None
      | [] => None
      end
  end.

(** The exponent part, which must reach the end of the text. *)
Definition float_exponent (s : list ascii) : option Z :=
  match s with
  | [] => Some 0
  | c :: s' =>
      if eqc (lower_char c) "e" then
        let '(neg, s'') := take_sign s' in
        match digitpart s'' with
        | Some (ds, []) => Some (if neg then - digits_value ds else digits_value ds)
        | _ => None
        end
      else None
  end.

Definition py_float (text : string) : option num :=
  let '(neg, body) := take_sign (strip (of_string text)) in
  let word := to_string (lower body) in
  if bool_decide (word = "inf") || bool_decide (word = "infinity")
  then Some (if neg then NegInf else PosInf)
  else if bool_decide (word = "nan") then Some NaN
  else
    match float_number body with
    | Some (ip, fp, r) =>
        match float_exponent r with
        | Some e =>
            let mant := digits_value (ip ++ fp) in
            let q := (inject_Z mant * Qpower (inject_Z 10) (e - Z.of_nat (length fp)))%Q in
            Some (Fin (if neg then Qopp q else q))
        | None => None
        end
    | None => None
    end.

(** *** Numeric comparison ([NaN] compares false with everything). *)

Definition num_eqb (a b : num) : bool :=
  match a, b with
  | Fin p, Fin q => Qeq_bool p q
  | PosInf, PosInf | NegInf, NegInf => true
  | _, _ => false
  end.

Definition num_ltb (a b : num) : bool :=
  match a, b with
  | NaN, _ | _, NaN => false
  | Fin p, Fin q => Qle_bool p q && negb (Qeq_bool p q)
  | NegInf, NegInf | PosInf, _ => false
  | NegInf, _ => true
  | Fin _, PosInf => true
  | Fin _, NegInf => false
  end.

Definition num_leb (a b : num) : bool := num_ltb a b || num_eqb a b.

(** [True] is [1] and [False] is [0] where a number is expected. *)
Definition num_of_bool (b : bool) : num := Fin (inject_Z (if b then 1 else 0)).

(** [bool(value)]. *)
Definition truthy (v : json) : bool :=
  match v with
  | JNull => false
  | JBool b => b
  | JNum NaN => true
  | JNum n => negb (num_eqb n (Fin 0))
  | JStr s => negb (bool_decide (s = ""))
  | JList items => match items with [] => false | _ => true end
  | JDict fields => match fields with [] => false | _ => true end
  end.

(** The right operand of a comparison after coercion. *)
Inductive literal : Type :=
| LBool (b : bool)
| LNum (n : num)
| LStr (s : string).

(** [left == right] for a right operand that is a bool, a float or a
    string.  A list or a dict never equals one of those. *)
Definition py_eq (left : json) (right : literal) : bool :=
  match left, right with
  | JBool a, LBool b => Bool.eqb a b
  | JBool a, LNum n => num_eqb (num_of_bool a) n
  | JNum n, LBool b => num_eqb n (num_of_bool b)
  | JNum a, LNum b => num_eqb a b
  | JStr a, LStr b => bool_decide (a = b)
  | _, _ => false
  end.

(** [left < right]; [None] stands for [TypeError] (the operands are not
    both numbers or both strings). Strings are ordered lexicographically
    by character code. *)
Definition py_lt (left : json) (right : literal) : option bool :=
  match left, right with
  | JBool a, LBool b => Some (num_ltb (num_of_bool a) (num_of_bool b))
  | JBool a, LNum n => Some (num_ltb (num_of_bool a) n)
  | JNum n, LBool b => Some (num_ltb n (num_of_bool b))
  | JNum a, LNum b => Some (num_ltb a b)
  | JStr a, LStr b => Some (String.ltb a b)
  | _, _ => None
  end.

(** [left > right]. *)
Definition py_gt (left : json) (right : literal) : option bool :=
  match left, right with
  | JBool a, LBool b => Some (num_ltb (num_of_bool b) (num_of_bool a))
  | JBool a, LNum n => Some (num_ltb n (num_of_bool a))
  | JNum n, LBool b => Some (num_ltb (num_of_bool b) n)
  | JNum a, LNum b => Some (num_ltb b a)
  | JStr a, LStr b => Some (String.ltb b a)
  | _, _ => None
  end.

(** [left <= right]. *)
Definition py_le (left : json) (right : literal) : option bool :=
  match left, right with
  | JBool a, LBool b => Some (num_leb (num_of_bool a) (num_of_bool b))
  | JBool a, LNum n => Some (num_leb (num_of_bool a) n)
  | JNum n, LBool b => Some (num_leb n (num_of_bool b))
  | JNum a, LNum b => Some (num_leb a b)
  | JStr a, LStr b => Some (String.leb a b)
  | _, _ => None
  end.

(** [left >= right]. *)
Definition py_ge (left : json) (right : literal) : option bool :=
  match left, right with
  | JBool a, LBool b => Some (num_leb (num_of_bool b) (num_of_bool a))
  | JBool a, LNum n => Some (num_leb n (num_of_bool a))
  | JNum n, LBool b => Some (num_leb (num_of_bool b) n)
  | JNum a, LNum b => Some (num_leb b a)
  | JStr a, LStr b => Some (String.leb b a)
  | _, _ => None
  end.

End PyVal.

(** ** Condition evaluator ([_evaluate_condition], [_resolve_path]) *)

Module Cond.

Import PyStr PyVal.

Inductive CmpOp : Type := OpEq | OpNe | OpGe | OpLe | OpGt | OpLt.

Definition op_text (op : CmpOp) : string :=
  match op with
  | OpEq => "==" | OpNe => "!=" | OpGe => ">=" | OpLe => "<="
  | OpGt => ">" | OpLt => "<"
  end.

(** [for op in ['==', '!=', '>=', '<=', '>', '<']]. *)
Definition ops_in_order : list CmpOp := [OpEq; OpNe; OpGe; OpLe; OpGt; OpLt].

(** *** [re.match(r'\{\{\s*(.+?)\s*\}\}', text)]

    After the opening braces the greedy [\s*] takes all the whitespace and
    gives it back one character at a time while the rest fails; the lazy
    group takes the fewest characters (none of them a newline) such that
    optional whitespace and the closing braces follow. The result is the
    text of the group. *)

(** [\s*\}\}] matches at the head of [l]. *)
Definition closes (l : list ascii) : bool :=
  bool_decide (is_Some (strip_prefix (of_string "}}") (lstrip_with is_space l))).

(** The lazy group [(.+?)]: [taken] is what the group holds so far, in
    reverse. *)
Fixpoint lazy_group (l taken : list ascii) : option (list ascii) :=
  match l with
  | [] => None
  | c :: l' =>
      if eqc c newline then None
      else if closes l' then Some (rev (c :: taken))
      else lazy_group l' (c :: taken)
  end.

(** Backtracking of the leading [\s*]: [given_back] holds the whitespace
    still owned by [\s*], last character first. *)
Fixpoint backtrack (owned_rev l : list ascii) : option (list ascii) :=
  match lazy_group l [] with
  | Some body => Some body
  | None =>
      match owned_rev with
      | [] => None
      | c :: owned_rev' => backtrack owned_rev' (c :: l)
      end
  end.

(** The maximal prefix of characters in [cls], and the rest. *)
Fixpoint span (cls : ascii -> bool) (s : list ascii) : list ascii * list ascii :=
  match s with
  | c :: s' =>
      if cls c then let '(a, b) := span cls s' in (c :: a, b) else ([], s)
  | [] => ([], [])
  end.

Definition match_braces (text : list ascii) : option (list ascii) :=
  match strip_prefix (of_string "{{") text with
  | None => None
  | Some rest => let '(ws, l) := span is_space rest in backtrack (rev ws) l
  end.

(** *** [_resolve_path] *)

Fixpoint resolve_parts (parts : list string) (current : json) : json :=
  match parts with
  | [] => current
  | part :: rest =>
      match current with
      | JDict fields =>
          match dict_get part fields with
          | Some v => resolve_parts rest v
          | None => JNull
          end
      | _ => JNull
      end
  end.

(** [_resolve_path(path, data)]; Python's [None] is [JNull]. *)
Definition resolve_path (path : string) (data : json) : json :=
  resolve_parts (to_string <$> split_on "." (of_string path)) data.

(** *** The comparison branch *)

Definition is_quote (c : ascii) : bool := eqc c single_quote || eqc c double_quote.

(** [right_str.lower() in ('true', '1', 'yes')]. *)
Definition bool_of_text (right_str : string) : bool :=
  let low := to_string (lower (of_string right_str)) in
  bool_decide (low = "true") || bool_decide (low = "1") || bool_decide (low = "yes").

(** "Try to convert right side to same type as left". *)
Definition coerce (left : json) (right_str : string) : literal :=
  match left with
  | JBool _ => LBool (bool_of_text right_str)
  | JNum _ =>
      match py_float right_str with
      | Some n => LNum n
      | None => LStr right_str
      end
  | _ => LStr right_str
  end.

(** [left op right]; [None] when Python raises [TypeError]. *)
Definition compare (op : CmpOp) (left : json) (right : literal) : option bool :=
  match op with
  | OpEq => Some (py_eq left right)
  | OpNe => Some (negb (py_eq left right))
  | OpGt => py_gt left right
  | OpLt => py_lt left right
  | OpGe => py_ge left right
  | OpLe => py_le left right
  end.

(** The first operator, in the order of the list, that occurs in the
    expression, with the two parts of [inner_expr.split(op, 1)]. *)
Fixpoint find_op_in (ops : list CmpOp) (inner : list ascii)
  : option (CmpOp * list ascii * list ascii) :=
  match ops with
  | [] => None
  | op :: ops' =>
      match split_first (of_string (op_text op)) inner with
      | Some (l, r) => Some (op, l, r)
      | None => find_op_in ops' inner
      end
  end.

Definition find_op (inner : list ascii) : option (CmpOp * list ascii * list ascii) :=
  find_op_in ops_in_order inner.

(** The operands as the comparison branch computes them. *)
Definition left_of (l : list ascii) (result_data : json) : json :=
  resolve_path (to_string (strip l)) result_data.

Definition right_text (r : list ascii) : string :=
  to_string (strip_with is_quote (strip r)).

(** What one evaluation does: no match of the braces (logged as
    CONDITION PARSE ERROR), an exception (logged as CONDITION EVAL ERROR),
    or a boolean. *)
Inductive Outcome : Type :=
| NoMatch
| Raised
| Value (b : bool).

Definition outcome (expr : string) (result_data : json) : Outcome :=
  match match_braces (strip (of_string expr)) with
  | None => NoMatch
  | Some body =>
      let inner_expr := strip body in
      match find_op inner_expr with
      | Some (op, l, r) =>
          let left := left_of l result_data in
          match compare op left (coerce left (right_text r)) with
          | Some b => Value b
          | None => Raised
          end
      | None => Value (truthy (resolve_path (to_string inner_expr) result_data))
      end
  end.

(** [_evaluate_condition(expr, result_data)]. *)
Definition evaluate_condition (expr : string) (result_data : json) : bool :=
  match outcome expr result_data with
  | Value b => b
  | NoMatch | Raised => false
  end.

(** *** [_evaluate_next_block]

    The result is the name of the next block, [None] when there is none;
    the caller also discards an empty name ([if next_block_name:]). A bare
    [else: true] without [goto] makes Python return the value [True],
    which names no block; it is rendered as the text [True]. *)

Definition else_target (c : Condition) (e : ElseValue) : string :=
  match cond_goto c with
  | Some g => if decide (g = "") then match e with ElseName n => n | ElseTrue => "True" end
              else g
  | None => match e with ElseName n => n | ElseTrue => "True" end
  end.

Fixpoint first_match (conds : list Condition) (result_data : json) : option string :=
  match conds with
  | [] => None
  | c :: rest =>
      match cond_else c with
      | Some e => Some (else_target c e)
      | None =>
          match cond_if c with
          | Some condition_expr =>
              if evaluate_condition condition_expr result_data
              then cond_goto c
              else first_match rest result_data
          | None => first_match rest result_data
          end
      end
  end.

Definition evaluate_next_block (block : Block) (result_data : json) : option string :=
  match b_next block with
  | None => None
  | Some (NextStr target) => if decide (target = "") then None else Some target
  | Some (NextList []) => None
  | Some (NextList conds) => first_match conds result_data
  end.

(** *** Stating that a path resolves *)

(** [has_path parts data v]: following [parts] through nested dicts of
    [data] leads to [v]. *)
Inductive has_path : list string -> json -> json -> Prop :=
| has_path_nil v : has_path [] v v
| has_path_cons part rest fields v w :
    dict_get part fields = Some v ->
    has_path rest v w ->
    has_path (part :: rest) (JDict fields) w.

End Cond.

(** The result data of a block whose result object is [fields]. *)
Definition sample_result (fields : list (string * json)) : json :=
  JDict [("result", JDict fields)].

(** ** Running blocks ([spawn_process], [_execute_block])

    Worker threads are modelled by one schedule of the threaded program:
    the worker started by [spawn_process] runs [_execute_block] to
    completion before the coordinator goes on, so the semaphore acquired
    in [spawn_process] is free again when it returns. What the hooks and
    the provider do is left to the environment: the outcome of an
    execution is either the [result_data] read back from the block's
    result file, or an exception. *)

Inductive WorkerResult : Type :=
| WorkerDone (result_data : json)
| WorkerFailed.

(** The environment of a run: [clock k] is [time.time()] as read during
    tick [k] ([clock 0] before the loop), [worker k] the outcome of the
    [k]-th block execution, [self_pid] the value of [os.getpid()]. *)
Record LoopEnv : Type := mkLoopEnv {
  clock : nat -> Q;
  worker : nat -> WorkerResult;
  self_pid : Z
}.

(** [block.get('continue_if_failed', True)] and
    [block.get('skip_if_previous_failed', False)]. *)
Definition block_continue_if_failed (b : Block) : bool :=
  default true (b_continue_if_failed b).

Definition block_skip_if_previous_failed (b : Block) : bool :=
  default false (b_skip_if_previous_failed b).

(** The worker succeeded: the [try] body of [_execute_block] from
    [process.progress = 100] on (the earlier progress marks 25, 50, 75 are
    overwritten by then), followed by the evaluation of [next]. *)
Definition finish_done (now : Q) (i : nat) (block : Block) (result_data : json)
    (m : Manager) : Manager :=
  let n := block_name block in
  let done p := with_exit_code (Some 0) (with_status "done" (with_progress 100 p)) in
  let m1 := set_processes (update_at i done (processes m)) m in
  let m2 := save_at now i m1 in
  let m3 := write_rein_log ("BLOCK COMPLETED | " +:+ n) m2 in
  let m4 := set_completed ({[n]} ∪ completed m3) m3 in
  match Cond.evaluate_next_block block result_data with
  | Some next_block_name =>
      if decide (next_block_name = "") then m4
      else trigger_next now n next_block_name result_data m4
  | None => m4
  end.

(** The worker raised: the [except] branch of [_execute_block]. *)
Definition finish_failed (now : Q) (i : nat) (block : Block) (m : Manager) : Manager :=
  let n := block_name block in
  let m1 := write_rein_log ("BLOCK FAILED | " +:+ n) m in
  let failed p := with_exit_code (Some 1) (with_status "failed" p) in
  let m2 := set_processes (update_at i failed (processes m1)) m1 in
  let m3 := save_at now i m2 in
  let m4 := set_completed ({[n]} ∪ completed m3) m3 in
  if block_continue_if_failed block then m4
  else
    set_stop ("Critical failure in block '" +:+ n +:+ "' (continue_if_failed=false)")
      (write_rein_log ("WORKFLOW STOPPED | " +:+ n +:+ " | continue_if_failed=false") m4).

(** [_execute_block] for the process stored at position [i]. *)
Definition execute_block (now : Q) (res : WorkerResult) (i : nat) (block : Block)
    (m : Manager) : Manager :=
  match res with
  | WorkerDone result_data => finish_done now i block result_data m
  | WorkerFailed => finish_failed now i block m
  end.

(** What [spawn_process] returns: the marker ["skipped"], a process, or
    [None]. *)
Inductive SpawnResult : Type :=
| SpawnSkipped
| SpawnStarted
| SpawnNone.

(** [_get_previous_blocks_status]: the names of the failed processes. *)
Definition previous_failed (m : Manager) : list string :=
  (fun up => name up.2) <$>
    filter (fun up : string * Process => status up.2 = "failed") (processes m).

(** Some dependency is paused with [blocking_pause]. *)
Definition blocked_by_pause (deps : list string) (m : Manager) : bool :=
  bool_decide (Exists (fun up : string * Process =>
                 name up.2 ∈ deps /\ status up.2 = "paused" /\
                 blocking_pause up.2 = true) (processes m)).

(** [spawn_process(block, team_tone)]; [res] is the outcome of the worker
    in case one is started. *)
Definition spawn_process (now : Q) (pid_ : Z) (res : WorkerResult) (block : Block)
    (m : Manager) : SpawnResult * Manager :=
  let n := block_name block in
  if decide (n ∈ completed m) then
    (SpawnSkipped,
     write_rein_log ("SPAWN SKIP | " +:+ n +:+ " | already completed (resume)") m)
  else
    let deps := block_deps block in
    if bool_decide (Exists (fun dep => dep ∉ completed m) deps) then (SpawnNone, m)
    else if blocked_by_pause deps m then (SpawnNone, m)
    else if bool_decide (previous_failed m <> []) && block_skip_if_previous_failed block
    then
      (SpawnSkipped,
       write_rein_log ("BLOCK SKIPPED | " +:+ n
                         +:+ " | skip_if_previous_failed=true and failures detected") m)
    else
      match index_of_name n (processes m) with
      | None =>
          (SpawnNone,
           write_rein_log ("SPAWN ERROR | " +:+ n +:+ " | Block " +:+ n +:+ " not found") m)
      | Some i =>
          let start p :=
            with_start (Some pid_) now (with_progress 0 (with_status "running" p)) in
          let m1 := set_processes (update_at i start (processes m)) m in
          let m2 := save_at now i m1 in
          let m3 := write_rein_log ("BLOCK STARTED | " +:+ n) m2 in
          (SpawnStarted, execute_block now res i block m3)
      end.

(** ** The main loop ([run_workflow]) *)

(** The variables of [run_workflow]: the manager, the dict [pending],
    [loop_count], and the number of block executions so far. *)
Record LoopState : Type := mkLoop {
  mgr : Manager;
  pending : list (string * Block);
  loop_count : nat;
  executions : nat
}.

(** [{name: block for block in self.all_blocks}]. *)
Definition initial_pending (blocks : list Block) : list (string * Block) :=
  foldl (fun d b => dict_set (block_name b) b d) [] blocks.

(** [all_completed()]. *)
Definition all_completed (m : Manager) : bool :=
  forallb (fun up : string * Process => is_done_or_failed (status up.2)) (processes m).

(** [_kill_remaining_processes(reason)]: SIGTERM goes to every running
    process that has a pid; the signal shows as a log line. *)
Definition kill_remaining_processes (reason : string) (m : Manager) : Manager :=
  foldl (fun acc (up : string * Process) =>
           match pid up.2 with
           | Some z =>
               if bool_decide (status up.2 = "running") && negb (z =? 0)
               then write_rein_log ("SIGTERM SENT | " +:+ up.1 +:+ " | pid=" +:+ pretty z
                                      +:+ " | reason=" +:+ reason) acc
               else acc
           | None => acc
           end) m (processes m).

(** [self.timeout and start_time]: the limit and the start time when both
    are set. *)
Definition deadline (timeout : option Q) (env : LoopEnv) : option (Q * Q) :=
  match timeout with
  | Some t =>
      if Qeq_bool t 0 || Qeq_bool (clock env 0) 0 then None
      else Some (t, clock env 0)
  | None => None
  end.

(** [elapsed > self.timeout] and [elapsed > self.timeout * 0.95] for the
    reading of tick [k]. *)
Definition timeout_exceeded (timeout : option Q) (env : LoopEnv) (k : nat) : bool :=
  match deadline timeout env with
  | Some (t, start) => negb (Qle_bool (clock env k - start) t)
  | None => false
  end.

Definition timeout_approaching (timeout : option Q) (env : LoopEnv) (k : nat) : bool :=
  match deadline timeout env with
  | Some (t, start) => negb (Qle_bool (clock env k - start) (t * (95 # 100)))
  | None => false
  end.

(** The blocks of [pending] whose dependencies are all completed. *)
Definition ready_names (st : LoopState) : list string :=
  fst <$> filter (fun nb : string * Block =>
                    Forall (fun dep => dep ∈ completed (mgr st)) (block_deps nb.2))
            (pending st).

(** [for name in ready:] with its [continue] and [break]; [pending[name]]
    is always present there. *)
Fixpoint spawn_ready (env : LoopEnv) (timeout : option Q) (ready : list string)
    (st : LoopState) : LoopState :=
  match ready with
  | [] => st
  | n :: rest =>
      if workflow_paused (mgr st) then
        spawn_ready env timeout rest
          (mkLoop (write_rein_log ("WORKFLOW PAUSED | skipping spawn of " +:+ n) (mgr st))
             (pending st) (loop_count st) (executions st))
      else if timeout_approaching timeout env (loop_count st) then
        mkLoop (write_rein_log "TIMEOUT APPROACHING | stopping new spawns" (mgr st))
          (pending st) (loop_count st) (executions st)
      else
        match dict_get n (pending st) with
        | None => spawn_ready env timeout rest st
        | Some block =>
            let '(result, m') :=
              spawn_process (clock env (loop_count st)) (self_pid env)
                (worker env (executions st)) block (mgr st) in
            match result with
            | SpawnSkipped =>
                spawn_ready env timeout rest
                  (mkLoop (set_completed ({[n]} ∪ completed m') m')
                     (dict_del n (pending st)) (loop_count st) (executions st))
            | SpawnStarted =>
                spawn_ready env timeout rest
                  (mkLoop m' (dict_del n (pending st)) (loop_count st)
                     (S (executions st)))
            | SpawnNone =>
                spawn_ready env timeout rest
                  (mkLoop m' (pending st) (loop_count st) (executions st))
            end
        end
  end.

(** [while self.next_queue and not self.workflow_paused:], bounded by
    [fuel] iterations. *)
Fixpoint drain_next_queue (fuel : nat) (env : LoopEnv) (timeout : option Q)
    (st : LoopState) : option LoopState :=
  match next_queue (mgr st) with
  | [] => Some st
  | (next_block_name, trigger_data) :: queue' =>
      if workflow_paused (mgr st) then Some st
      else
        match fuel with
        | O => None
        | S fuel' =>
            let m1 := set_next_queue queue' (mgr st) in
            match block_configs m1 !! next_block_name with
            | None =>
                drain_next_queue fuel' env timeout
                  (mkLoop (write_rein_log ("NEXT ERROR | block not found: "
                                             +:+ next_block_name) m1)
                     (pending st) (loop_count st) (executions st))
            | Some block_config =>
                if timeout_approaching timeout env (loop_count st) then
                  Some (mkLoop (write_rein_log "NEXT TIMEOUT | stopping new spawns" m1)
                          (pending st) (loop_count st) (executions st))
                else
                  let m2 := write_rein_log ("NEXT SPAWN | " +:+ next_block_name
                                              +:+ " | triggered by state machine") m1 in
                  let '(result, m') :=
                    spawn_process (clock env (loop_count st)) (self_pid env)
                      (worker env (executions st)) block_config m2 in
                  match result with
                  | SpawnStarted =>
                      drain_next_queue fuel' env timeout
                        (mkLoop m' (pending st) (loop_count st) (S (executions st)))
                  | SpawnSkipped =>
                      drain_next_queue fuel' env timeout
                        (mkLoop (write_rein_log ("NEXT SKIPPED | " +:+ next_block_name) m')
                           (pending st) (loop_count st) (executions st))
                  | SpawnNone =>
                      Some (mkLoop
                              (set_next_queue ((next_block_name, trigger_data)
                                                 :: next_queue m') m')
                              (pending st) (loop_count st) (executions st))
                  end
            end
        end
  end.

(** How the loop was left: its condition became false, [stop_workflow]
    was set, the timeout was exceeded, or the check at the end of a tick
    found everything done. *)
Inductive ExitReason : Type :=
| ExitNothingToDo
| ExitStopped
| ExitTimeout
| ExitAllDone.

(** [while pending or self.processes or self.next_queue]. *)
Definition loop_condition (st : LoopState) : bool :=
  negb (bool_decide (pending st = []) && bool_decide (processes (mgr st) = [])
        && bool_decide (next_queue (mgr st) = [])).

(** [if not pending and self.all_completed() and not self.next_queue:
    break]. *)
Definition exit_check (st : LoopState) : bool :=
  bool_decide (pending st = []) && all_completed (mgr st)
  && bool_decide (next_queue (mgr st) = []).

(** One iteration of the [while] loop: the next state, or the way out. *)
Definition tick (drain_fuel : nat) (env : LoopEnv) (timeout : option Q)
    (st : LoopState) : option (LoopState + ExitReason * LoopState) :=
  if negb (loop_condition st) then Some (inr (ExitNothingToDo, st))
  else
    let st1 := mkLoop (mgr st) (pending st) (S (loop_count st)) (executions st) in
    if stop_workflow (mgr st1) then
      let reason := default "workflow stop requested" (stop_reason (mgr st1)) in
      let m1 := write_rein_log ("WORKFLOW STOPPING | reason="
                                  +:+ default "None" (stop_reason (mgr st1))) (mgr st1) in
      Some (inr (ExitStopped,
                 mkLoop (kill_remaining_processes reason m1) (pending st1)
                   (loop_count st1) (executions st1)))
    else if timeout_exceeded timeout env (loop_count st1) then
      let m1 := write_rein_log "TIMEOUT EXCEEDED" (mgr st1) in
      Some (inr (ExitTimeout,
                 mkLoop (kill_remaining_processes "timeout exceeded" m1) (pending st1)
                   (loop_count st1) (executions st1)))
    else
      let st2 := spawn_ready env timeout (ready_names st1) st1 in
      match drain_next_queue drain_fuel env timeout st2 with
      | None => None
      | Some st3 =>
          if exit_check st3 then Some (inr (ExitAllDone, st3)) else Some (inl st3)
      end.

(** The [while] loop, bounded by [fuel] iterations; [None] when the fuel
    of the loop or of a drain runs out. *)
Fixpoint run_loop (fuel drain_fuel : nat) (env : LoopEnv) (timeout : option Q)
    (st : LoopState) : option (ExitReason * LoopState) :=
  match fuel with
  | O => None
  | S fuel' =>
      match tick drain_fuel env timeout st with
      | None => None
      | Some (inr out) => Some out
      | Some (inl st') => run_loop fuel' drain_fuel env timeout st'
      end
  end.

(** The state in which [run_workflow] enters its loop. *)
Definition loop_start (m : Manager) : LoopState :=
  mkLoop m (initial_pending (all_blocks m)) 0 0.

(** ** Finalisation ([_finalize_run]) *)

(** What [_finalize_run] writes: the counts of [summary.json] and the
    content of [state/status]. *)
Record RunFiles : Type := mkRunFiles {
  summary_completed : Z;
  summary_failed : Z;
  summary_total : Z;
  status_file : string
}.

(** [sum(1 for p in self.processes.values() if p.status == st)]. *)
Definition count_status (st : string) (m : Manager) : Z :=
  Z.of_nat (length (filter (fun up : string * Process => status up.2 = st) (processes m))).

(** ["completed" if failed == 0 else "failed"]. *)
Definition final_status (m : Manager) : string :=
  if count_status "failed" m =? 0 then "completed" else "failed".

Definition end_of_line : string := String PyStr.newline "".

Definition finalize_run (task_id : string) (m : Manager) : RunFiles * Manager :=
  let completed_ := count_status "done" m in
  let failed := count_status "failed" m in
  let total := Z.of_nat (length (processes m)) in
  let m1 := write_rein_log ("REIN FINISHED | completed=" +:+ pretty completed_
                              +:+ " | failed=" +:+ pretty failed
                              +:+ " | total=" +:+ pretty total) m in
  let status_ := final_status m in
  (mkRunFiles completed_ failed total (status_ +:+ end_of_line),
   write_rein_log ("TASK STATUS | " +:+ task_id +:+ " | status=" +:+ status_) m1).

(** [run_workflow]: the loop, then the finalisation. *)
Definition run_workflow (fuel drain_fuel : nat) (env : LoopEnv) (timeout : option Q)
    (task_id : string) (m : Manager) : option (ExitReason * RunFiles * Manager) :=
  match run_loop fuel drain_fuel env timeout (loop_start m) with
  | None => None
  | Some (reason, st) =>
      let '(files, m') := finalize_run task_id (mgr st) in
      Some (reason, files, m')
  end.

(** A manager that has loaded [blocks] and nothing else yet. *)
Definition fresh_manager (blocks : list Block) : Manager :=
  mkManager blocks [] ∅ [] ∅ ∅ false false None ∅ ∅ [].

(** The same after [_initialize_all_processes] on an empty database. *)
Definition sample_started (blocks : list Block) : Manager :=
  default (fresh_manager blocks)
    (initialize_all_processes sample_env (fresh_manager blocks)).

(** A clock that starts at 1000 s and advances one minute per tick. *)
Definition sample_clock (k : nat) : Q := (1000 + 60 * inject_Z (Z.of_nat k))%Q.

(** Every worker succeeds. *)
Definition sample_env_ok : LoopEnv :=
  mkLoopEnv sample_clock (fun _ => WorkerDone JNull) 4242.


(** The chain [a -> b -> c] of scenario S1. *)
Definition sample_chain : list Block :=
  [sample_block "a" []; sample_block "b" ["a"]; sample_block "c" ["b"]].


(** [a] must not fail ([continue_if_failed: false]); [b] depends on it
    (scenario S5). *)
Definition sample_critical_flow : list Block :=
  [mkBlock (Some "a") None None None None None None None None (Some false);
   sample_block "b" ["a"]].

(** ** Predicates about the main loop *)

(** Every dependency names a block of the document. *)
Definition deps_closed (blocks : list Block) : Prop :=
  forall b d, b ∈ blocks -> d ∈ block_deps b -> d ∈ block_name <$> blocks.

(** No block declares [next] or [skip_if_previous_failed]. *)
Definition no_next_no_skip (blocks : list Block) : Prop :=
  forall b, b ∈ blocks ->
    b_next b = None /\ block_skip_if_previous_failed b = false.

(** The names of the process records, in the order of the dict. *)
Definition process_names (m : Manager) : list string :=
  (fun up : string * Process => name up.2) <$> processes m.

(** The invariant of the loop for a document without [next] and skip
    policy, run without commands: there is one record per block; a record
    is done or failed with its name completed, or waiting with its name
    not completed and still pending; nothing is queued or paused. *)
Definition loop_inv (blocks : list Block) (st : LoopState) : Prop :=
  process_names (mgr st) = block_name <$> blocks /\
  NoDup (fst <$> pending st) /\
  (forall n b, (n, b) ∈ pending st -> b ∈ blocks /\ block_name b = n) /\
  (forall i u p, processes (mgr st) !! i = Some (u, p) ->
     (is_done_or_failed (status p) = true /\ name p ∈ completed (mgr st)) \/
     (status p = "waiting" /\ (name p ∉ completed (mgr st)) /\
      name p ∈ fst <$> pending st)) /\
  next_queue (mgr st) = [] /\ workflow_paused (mgr st) = false.

(** The state a manager must be in when [run_workflow] starts, as
    [_initialize_all_processes] leaves it: one record per block, in
    document order, each either waiting and not completed or done/failed
    and completed; nothing queued, not paused. *)
Definition ready_to_run (m : Manager) : Prop :=
  process_names m = block_name <$> all_blocks m /\
  (forall i u p, processes m !! i = Some (u, p) ->
     (is_done_or_failed (status p) = true /\ name p ∈ completed m) \/
     (status p = "waiting" /\ (name p ∉ completed m))) /\
  next_queue m = [] /\ workflow_paused m = false.



(** ** Prompt assembly ([assemble_prompt]) *)

Module Prompt.

Import PyStr.

(** The value under the key [prompt] of a block: a string, or a YAML
    value of another type (such as null). *)
Inductive PromptValue : Type :=
| PromptText (text : string)
| PromptOther.

(** The keys of the block dict that [assemble_prompt] reads. *)
Record PromptBlock : Type := mkPromptBlock {
  p_agents : list string;
  p_specialist : option string;
  p_prompt : option PromptValue
}.

(** What the assembler takes from its surroundings: the task input, the
    two directories, the files on disk ([path_exists] is
    [os.path.exists]; [load_json] is [json.load(open(path))], [None] when
    it raises; [specialist_file] is the content of
    [<agents_dir>/specialists/<name>.md], [None] when it cannot be read)
    and the library functions [json.loads] ([None] when it raises),
    [json.dumps] and [str]. *)
Record PromptEnv : Type := mkPromptEnv {
  task_input : list (string * json);
  task_dir : string;
  workflow_dir : string;
  path_exists : string -> bool;
  load_json : string -> option json;
  specialist_file : string -> option string;
  json_loads : string -> option json;
  json_dumps : json -> string;
  py_str : json -> string
}.

(** [os.path.join(a, b)] on POSIX paths. *)
Definition path_join (a b : string) : string :=
  match of_string b, rev (of_string a) with
  | c :: _, last :: _ =>
      if eqc c "/" then b
      else if eqc last "/" then a +:+ b
      else a +:+ "/" +:+ b
  | _ :: _, [] => b
  | [], last :: _ => if eqc last "/" then a else a +:+ "/"
  | [], [] => ""
  end.

(** *** The two regular expressions *)

(** [\{\{\s*task\.input\.(\w+)\s*\}\}] at the head of [s]: the field
    name and the text after the match. *)
Definition match_task_input (s : list ascii) : option (list ascii * list ascii) :=
  r1 ← strip_prefix (of_string "{{") s;
  r2 ← strip_prefix (of_string "task.input.") (lstrip_with is_space r1);
  let '(field, r3) := Cond.span is_word r2 in
  match field with
  | [] => None
  | _ =>
      rest ← strip_prefix (of_string "}}") (lstrip_with is_space r3);
      Some (field, rest)
  end.

(** [\{\{([^}]+)\}\}] at the head of [s]: the group and the text after
    the match. *)
Definition match_file (s : list ascii) : option (list ascii * list ascii) :=
  r1 ← strip_prefix (of_string "{{") s;
  let '(body, r2) := Cond.span (fun c => negb (eqc c "}")) r1 in
  match body with
  | [] => None
  | _ =>
      rest ← strip_prefix (of_string "}}") r2;
      Some (body, rest)
  end.

(** [re.finditer(pattern, s)] for a pattern given by its matcher at the
    head of a text: the matches from left to right, without overlap, each
    as (matched text, group). [skip] counts the characters of the current
    match still to pass over. *)
Fixpoint finditer (matcher : list ascii -> option (list ascii * list ascii))
    (s : list ascii) (skip : nat) : list (list ascii * list ascii) :=
  match s with
  | [] => []
  | _ :: s' =>
      match skip with
      | S k => finditer matcher s' k
      | O =>
          match matcher s with
          | Some (group, rest) =>
              let matched := (length s - length rest)%nat in
              (take matched s, group) :: finditer matcher s' (matched - 1)
          | None => finditer matcher s' 0
          end
      end
  end.

(** [re.findall] of the task-input pattern: the field names. *)
Definition unresolved_fields (prompt : string) : list string :=
  (fun mg => to_string mg.2) <$> finditer match_task_input (of_string prompt) 0.

(** *** Substitution of task inputs *)

(** [isinstance(value, (dict, list))]. *)
Definition is_container (v : json) : bool :=
  match v with
  | JList _ | JDict _ => true
  | _ => false
  end.

(** One iteration of the task-input loop on [(prompt, log)]. *)
Definition substitute_input (env : PromptEnv) (acc : string * list string)
    (mg : list ascii * list ascii) : string * list string :=
  let '(prompt, log) := acc in
  let field_name := to_string mg.2 in
  match dict_get field_name (task_input env) with
  | Some value =>
      let text := if is_container value then json_dumps env value else py_str env value in
      (to_string (replace mg.1 (of_string text) (of_string prompt)),
       log ++ ["TASK INPUT SUBSTITUTED | " +:+ field_name +:+ " | value_len="
                 +:+ pretty (Z.of_nat (String.length text))])
  | None => acc
  end.

(** *** Substitution of file references *)

(** [filename.endswith('.json')] and [filename[:-5]]. *)
Definition json_block_name (filename : string) : option string :=
  (fun r => to_string (rev r))
    <$> strip_prefix (rev (of_string ".json")) (rev (of_string filename)).

(** The three places a reference is looked up in, in order of priority;
    the log line is that of a block output found. *)
Definition resolve_file (env : PromptEnv) (filename : string)
  : option string * list string :=
  let block_output :=
    if decide (task_dir env = "") then None
    else
      block_name ← json_block_name filename;
      let path := path_join (path_join (path_join (task_dir env) block_name) "outputs")
                    "result.json" in
      if path_exists env path then Some (block_name, path) else None in
  match block_output with
  | Some (block_name, path) =>
      (Some path, ["BLOCK OUTPUT FOUND | " +:+ block_name +:+ " | " +:+ path])
  | None =>
      let task_output := path_join (path_join (task_dir env) "outputs") filename in
      if negb (bool_decide (task_dir env = "")) && path_exists env task_output
      then (Some task_output, [])
      else
        let workflow_path := path_join (workflow_dir env) filename in
        if negb (bool_decide (workflow_dir env = "")) && path_exists env workflow_path
        then (Some workflow_path, [])
        else (None, [])
  end.

(** "Extract just the data content if it's wrapped in envelope". *)
Definition unwrap_envelope (env : PromptEnv) (data : json) : json :=
  match data with
  | JDict fields =>
      match dict_get "result" fields with
      | Some (JStr result_str) => default data (json_loads env result_str)
      | _ => data
      end
  | _ => data
  end.

Definition file_not_found_msg (filename : string) : string :=
  "FILE NOT FOUND | " +:+ filename
    +:+ " (checked block outputs, task outputs, workflow dir)".

(** One iteration of the file-reference loop on [(prompt, log)]. *)
Definition substitute_file (env : PromptEnv) (acc : string * list string)
    (mg : list ascii * list ascii) : string * list string :=
  let '(prompt, log) := acc in
  let filename := to_string (strip mg.2) in
  let '(file_path, found_log) := resolve_file env filename in
  match file_path with
  | Some path =>
      match load_json env path with
      | Some data =>
          let text := json_dumps env (unwrap_envelope env data) in
          (to_string (replace mg.1 (of_string text) (of_string prompt)),
           log ++ found_log
               ++ ["FILE SUBSTITUTED | " +:+ filename +:+ " | from=" +:+ path
                     +:+ " | size=" +:+ pretty (Z.of_nat (String.length text))])
      | None =>
          (prompt, log ++ found_log ++ ["FILE SUBSTITUTE ERROR | " +:+ path])
      end
  | None => (prompt, log ++ found_log ++ [file_not_found_msg filename])
  end.

(** *** The assembler *)

(** [load_specialist(name)] of the configuration loader: the text of the
    file, or the empty string and a log line when it cannot be read. *)
Definition load_specialist (env : PromptEnv) (specialist_name : string)
  : string * list string :=
  match specialist_file env specialist_name with
  | Some content => (content, [])
  | None => ("", ["SPECIALIST LOAD ERROR | " +:+ specialist_name])
  end.

Definition separator : string := end_of_line +:+ "---" +:+ end_of_line.

(** The loop over the specialists: the accumulated text and log. *)
Definition load_specialists (env : PromptEnv) (agents : list string)
  : string * list string :=
  foldl (fun acc agent =>
           let '(spec, l) := load_specialist env agent in
           (acc.1 +:+ separator +:+ spec, acc.2 ++ l))
        ("", []) agents.

(** The prompt after both substitution loops, and their log. *)
Definition substituted (env : PromptEnv) (text : string) : string * list string :=
  let after_inputs :=
    match task_input env with
    | [] => (text, [])
    | _ => foldl (substitute_input env) (text, [])
             (finditer match_task_input (of_string text) 0)
    end in
  foldl (substitute_file env) after_inputs
    (finditer match_file (of_string after_inputs.1) 0).

(** What a call of [assemble_prompt] does: it returns a string, or
    raises [ValueError] for the unresolved fields (with the keys of the
    provided inputs). *)
Inductive Assembly : Type :=
| Returned (full_prompt : string)
| UnresolvedPlaceholder (fields provided : list string).

Definition full_prompt_of (team_tone specialist_text prompt : string) : string :=
  team_tone +:+ end_of_line +:+ end_of_line +:+ specialist_text
    +:+ end_of_line +:+ end_of_line +:+ "---" +:+ end_of_line +:+ end_of_line
    +:+ prompt.

(** [assemble_prompt(block, team_tone)] with the log lines it writes. A
    prompt that is not a string makes the regular expression functions
    raise [TypeError], which the last [except] turns into the empty
    string. *)
Definition assemble_prompt (env : PromptEnv) (block : PromptBlock) (team_tone : string)
  : Assembly * list string :=
  let agents := match p_specialist block with
                | Some s => if decide (s = "") then p_agents block else [s]
                | None => p_agents block
                end in
  let '(specialist_text, log0) := load_specialists env agents in
  match default (PromptText "") (p_prompt block) with
  | PromptOther => (Returned "", log0 ++ ["PROMPT ASSEMBLY ERROR"])
  | PromptText text =>
      let '(prompt, log1) := substituted env text in
      match unresolved_fields prompt with
      | [] =>
          let full_prompt := full_prompt_of team_tone specialist_text prompt in
          (Returned full_prompt,
           log0 ++ log1 ++ ["ASSEMBLED PROMPT | len="
                              +:+ pretty (Z.of_nat (String.length full_prompt))])
      | unresolved =>
          (UnresolvedPlaceholder unresolved (fst <$> task_input env), log0 ++ log1)
      end
  end.



End Prompt.

(** A prompt environment for the examples: one task input, one block
    output on disk, one specialist file; values are rendered by their
    text when they are strings. *)
Definition sample_render (v : json) : string :=
  match v with
  | JStr s => s
  | _ => "<value>"
  end.

Definition sample_prompt_env : Prompt.PromptEnv :=
  Prompt.mkPromptEnv [("topic", JStr "AI safety")] "/tasks/t1" "/flows/f"
    (fun path => bool_decide (path = "/tasks/t1/analysis/outputs/result.json"))
    (fun _ => Some (JDict [("stage", JStr "analysis")]))
    (fun n => if decide (n = "writer") then Some "You write." else None)
    (fun _ => None) sample_render sample_render.

Definition sample_prompt_block (specialist text : string) : Prompt.PromptBlock :=
  Prompt.mkPromptBlock [] (Some specialist) (Some (Prompt.PromptText text)).


(** ** Further sample states *)

(** The document [a] resumed over a database in which [a] was cancelled;
    the outputs directory of [a] exists. *)
Definition sample_resumed_cancelled : Manager :=
  mkManager [sample_block "a" []] [] ∅ [] ∅ ∅ false false None
    (<["a" := sample_row "cancelled"]> ∅) {["a"]} [].

(** ** Invariants of the manager *)

(** Record names are unique, and the persisted status of every record is
    its status in memory. *)
Definition db_consistent (m : Manager) : Prop :=
  NoDup (process_names m) /\
  forall i u p, processes m !! i = Some (u, p) ->
    exists row, state m !! name p = Some row /\ ReinState.r_status row = status p.

(** Counters and records are within [max_runs]. *)
Definition runs_bounded (m : Manager) : Prop :=
  run_counts_bounded m /\ records_bounded m.


(** ** Reading a conditional [next] list *)

(** An entry that does not decide: it has no [else] key, and it is an
    [if] whose condition does not hold or has no [if] key either. *)
Definition passes_over (data : json) (c : Condition) : Prop :=
  cond_else c = None /\
  forall x, cond_if c = Some x -> Cond.evaluate_condition x data = false.


(** ** More of the state store ([rein/state.py]) *)

Module ReinStore.

Import ReinState.

(** [ORDER BY phase, name]: integers by value, text by character codes
    (the BINARY collation). *)
Definition row_le (a b : string * Row) : Prop :=
  r_phase a.2 < r_phase b.2 \/
  (r_phase a.2 = r_phase b.2 /\ String.leb a.1 b.1 = true).

#[global] Instance row_le_dec : RelDecision row_le.
Proof. intros a b. unfold row_le. apply _. Defined.

(** [get_all_processes()]: every row, ordered, each turned into a
    [Process] as in [get_process]. *)
Definition get_all_processes (db : Db) : list Process :=
  (fun nr => row_to_process nr.1 nr.2) <$> merge_sort row_le (map_to_list db).

(** [update_status(name, status, exit_code=None)]: an [UPDATE ... WHERE
    name = ?]; the exit code is written only when one is given. *)
Definition update_status (now : Q) (n st : string) (ec : option Z) (db : Db) : Db :=
  alter (fun r =>
           {| r_pid := r_pid r; r_status := st;
              r_start_time := r_start_time r; r_command := r_command r;
              r_exit_code := match ec with Some e => Some e | None => r_exit_code r end;
              r_cpu_percent := r_cpu_percent r; r_memory_mb := r_memory_mb r;
              r_progress := r_progress r; r_phase := r_phase r;
              r_blocking_pause := r_blocking_pause r; r_updated_at := now |}) n db.

(** [clear()]: [DELETE FROM processes]. *)
Definition clear (db : Db) : Db := ∅.

(** [_init_db()]: the table is dropped unless the store is opened for a
    resume. *)
Definition init_db (resume : bool) (db : Db) : Db := if resume then db else ∅.

End ReinStore.

(** The order of [get_all_processes] seen on the records. *)
Definition phase_name_le (p q : Process) : Prop :=
  phase p < phase q \/ (phase p = phase q /\ String.leb (name p) (name q) = true).

(** ** Loading the state on resume ([_load_state_from_db]) *)

(** The attributes copied from a persisted record onto the record found
    under the key [db_proc.name]. *)
Definition copy_persisted (db_proc p : Process) : Process :=
  {| pid := pid db_proc; name := name p; status := status db_proc;
     start_time := start_time p; command := command p; uid := uid p;
     exit_code := exit_code db_proc; cpu_percent := cpu_percent db_proc;
     memory_mb := memory_mb db_proc; depends_on := depends_on p;
     progress := progress db_proc; phase := phase p;
     blocking_pause := blocking_pause p; agent := agent p;
     next_spec := next_spec p; max_runs := max_runs p; run_count := run_count p;
     previous_status := previous_status p |}.

(** One iteration of [for db_proc in db_processes]; [self.processes] is
    keyed by uid, and the key looked up is the name of the record. *)
Definition load_db_record (acc : Manager) (db_proc : Process) : Manager :=
  match index_of_uid (name db_proc) (processes acc) with
  | Some i =>
      let m1 := set_processes (update_at i (copy_persisted db_proc) (processes acc)) acc in
      if is_done_or_failed (status db_proc)
      then set_completed ({[name db_proc]} ∪ completed m1) m1
      else m1
  | None => acc
  end.

Definition state_loaded_msg (m : Manager) : string :=
  "STATE LOADED | " +:+ pretty (Z.of_nat (size (completed m))) +:+ "/"
    +:+ pretty (Z.of_nat (length (processes m))) +:+ " processes restored from DB".

(** [_load_state_from_db()]. *)
Definition load_state_from_db (m : Manager) : Manager :=
  let m1 := foldl load_db_record m (ReinStore.get_all_processes (state m)) in
  write_rein_log (state_loaded_msg m1) m1.


(** ** Declared inputs ([_validate_task_inputs]) *)

(** One entry of the [inputs:] section of a workflow: the keys
    [required], [default] and [description], each possibly missing. *)
Record InputField : Type := mkInputField {
  f_required : option bool;
  f_default : option json;
  f_description : option string
}.

(** What the validation takes from Python: [str(value)] and the text of
    a list of strings ([str(list)]). *)
Record InputEnv : Type := mkInputEnv {
  value_text : json -> string;
  list_text : list string -> string
}.

(** [field_config.get('required', True)]. *)
Definition input_required (cfg : InputField) : bool := default true (f_required cfg).

(** [field_config.get('default')], compared with [None]: a missing key
    and a null value are the same. *)
Definition input_default (cfg : InputField) : option json :=
  match f_default cfg with
  | Some JNull | None => None
  | Some v => Some v
  end.

(** The line added to [errors] for a missing required field. *)
Definition error_line (field_name : string) (cfg : InputField) : string :=
  let desc := default "" (f_description cfg) in
  let hint := if decide (desc = "") then "" else " (" +:+ desc +:+ ")" in
  "  - '" +:+ field_name +:+ "'" +:+ hint.

(** One iteration of [for field_name, field_config in
    inputs_spec.items()] on [(task_input, errors, log)]. *)
Definition check_field (env : InputEnv)
    (acc : list (string * json) * list string * list string)
    (fc : string * InputField) : list (string * json) * list string * list string :=
  let '(task_input, errors, log) := acc in
  let '(field_name, field_config) := fc in
  match dict_get field_name task_input with
  | Some _ => acc
  | None =>
      if input_required field_config
      then (task_input, errors ++ [error_line field_name field_config], log)
      else
        match input_default field_config with
        | Some default_val =>
            (dict_set field_name default_val task_input, errors,
             log ++ ["INPUT DEFAULT | " +:+ field_name +:+ " = "
                       +:+ value_text env default_val])
        | None => acc
        end
  end.

(** [e.strip().lstrip("- '").split("'")[0]]. *)
Definition missing_name (e : string) : string :=
  let dash_space_quote c :=
    PyStr.eqc c "-" || PyStr.eqc c " " || PyStr.eqc c PyStr.single_quote in
  PyStr.to_string
    (hd [] (PyStr.split_on PyStr.single_quote
              (PyStr.lstrip_with dash_space_quote (PyStr.strip (PyStr.of_string e))))).

(** The order of [sorted] on strings, and [sorted(set)]. *)
Definition string_le (a b : string) : Prop := String.leb a b = true.

#[global] Instance string_le_dec : RelDecision string_le.
Proof. intros a b. unfold string_le. apply _. Defined.

Definition sorted_names (names : gset string) : list string :=
  merge_sort string_le (elements names).

(** How [_validate_task_inputs] ends: it returns at once because nothing
    is declared, it returns after the checks, or it leaves the program
    with [sys.exit(1)] after printing the error lines. *)
Inductive InputCheck : Type :=
| InputsSkipped
| InputsOk
| InputsExit (errors : list string).

(** [_validate_task_inputs(config)] for [inputs_spec = config.get('inputs')]:
    the outcome, the task input afterwards and the log lines written. *)
Definition validate_task_inputs (env : InputEnv)
    (inputs_spec : option (list (string * InputField)))
    (task_input : list (string * json))
  : InputCheck * list (string * json) * list string :=
  match inputs_spec with
  | None | Some [] => (InputsSkipped, task_input, [])
  | Some spec =>
      let declared : gset string := list_to_set (fst <$> spec) in
      let provided : gset string := list_to_set (fst <$> task_input) in
      let '(task_input', errors, log) := foldl (check_field env) (task_input, [], []) spec in
      let extra := provided ∖ declared in
      let log1 :=
        if decide (extra = ∅) then log
        else log ++ ["INPUT WARNING | Extra undeclared inputs: "
                       +:+ list_text env (sorted_names extra)] in
      match errors with
      | [] =>
          (InputsOk, task_input',
           log1 ++ ["INPUT VALIDATION OK | declared="
                      +:+ list_text env (sorted_names declared)
                      +:+ " | provided=" +:+ list_text env (sorted_names provided)])
      | _ =>
          (InputsExit errors, task_input',
           log1 ++ ["INPUT VALIDATION FAILED | missing: "
                      +:+ list_text env (missing_name <$> errors)])
      end
  end.

(** The error line of a field, if it is required and missing. *)
Definition error_of (ti : list (string * json)) (fc : string * InputField)
  : option string :=
  match dict_get fc.1 ti with
  | Some _ => None
  | None => if input_required fc.2 then Some (error_line fc.1 fc.2) else None
  end.

(** The value of a field after the loop. *)
Definition value_after (spec : list (string * InputField))
    (ti : list (string * json)) (f : string) : option json :=
  match dict_get f ti with
  | Some v => Some v
  | None =>
      match dict_get f spec with
      | Some cfg => if input_required cfg then None else input_default cfg
      | None => None
      end
  end.

(** The declaration of a field that must be provided. *)
Definition required_field (spec : list (string * InputField)) (f : string) : Prop :=
  exists cfg, (f, cfg) ∈ spec /\ input_required cfg = true.

(** A field name that the error lines can carry: it is not empty, does
    not begin with a dash, a space or a quote, and holds no quote. *)
Definition plain_field_name (f : string) : Prop :=
  match PyStr.of_string f with
  | [] => False
  | c :: _ =>
      (PyStr.eqc c "-" || PyStr.eqc c " " || PyStr.eqc c PyStr.single_quote) = false
  end /\
  Forall (fun c => PyStr.eqc c PyStr.single_quote = false) (PyStr.of_string f).

(** A sample declaration: [topic] is required, [tone] is optional with a
    default, [notes] is optional without one. *)
Definition sample_inputs : list (string * InputField) :=
  [("topic", mkInputField None None (Some "What to write about"));
   ("tone", mkInputField (Some false) (Some (JStr "neutral")) None);
   ("notes", mkInputField (Some false) None None)].

Definition sample_input_env : InputEnv :=
  mkInputEnv sample_render (fun l => "[" +:+ String.concat ", " l +:+ "]").


(** ** The validated workflow model ([models/workflow.py]) *)

Module Workflow.

(** [BlockConfig]: the two fields that the ordering functions read. *)
Record BlockConfig : Type := mkBlockConfig {
  cfg_name : string;
  cfg_depends_on : list string
}.

(** One sweep of [for block in self.blocks] inside [get_execution_order]:
    the names of the blocks that are not executed yet and whose
    dependencies are all executed. *)
Definition current_phase (blocks : list BlockConfig) (executed : gset string)
  : list string :=
  cfg_name <$>
    filter (fun block => (cfg_name block ∉ executed) /\
                         Forall (fun dep => dep ∈ executed) (cfg_depends_on block))
      blocks.

(** What [get_execution_order] does: it returns the phases, or raises
    [ValueError] ("Execution deadlock"). *)
Inductive Order : Type :=
| Phases (phases : list (list string))
| Deadlock.

(** [while len(executed) < len(block_dict)], bounded by [fuel]
    iterations; [block_dict] has one key per distinct name. *)
Fixpoint order_loop (fuel : nat) (blocks : list BlockConfig) (executed : gset string)
    (phases : list (list string)) : option Order :=
  if decide (size executed < size (list_to_set (C := gset string) (cfg_name <$> blocks)))%nat
  then
    match fuel with
    | O => None
    | S fuel' =>
        match current_phase blocks executed with
        | [] => Some Deadlock
        | phase =>
            order_loop fuel' blocks (executed ∪ list_to_set phase) (phases ++ [phase])
        end
    end
  else Some (Phases phases).

(** [get_execution_order()]; one iteration per block suffices. *)
Definition get_execution_order (blocks : list BlockConfig) : option Order :=
  order_loop (length blocks) blocks ∅ [].

(** The conditions that the validators of [WorkflowConfig] establish:
    unique names, dependencies that name blocks, no cycle. *)
Definition valid_blocks (blocks : list BlockConfig) : Prop :=
  NoDup (cfg_name <$> blocks) /\
  (forall b d, b ∈ blocks -> d ∈ cfg_depends_on b -> d ∈ cfg_name <$> blocks) /\
  exists rank : string -> nat,
    forall b d, b ∈ blocks -> d ∈ cfg_depends_on b -> (rank d < rank (cfg_name b))%nat.

(** [phases] places every dependency of a block strictly before it. *)
Definition dependencies_first (blocks : list BlockConfig) (phases : list (list string))
  : Prop :=
  forall i phase b d,
    phases !! i = Some phase -> b ∈ blocks -> cfg_name b ∈ phase ->
    d ∈ cfg_depends_on b ->
    exists j phase', (j < i)%nat /\ phases !! j = Some phase' /\ d ∈ phase'.

(** [phases] places every block as early as its dependencies allow: a
    block outside the first phase has a dependency in the phase just
    before its own. *)
Definition as_early_as_possible (blocks : list BlockConfig)
    (phases : list (list string)) : Prop :=
  forall i phase b,
    phases !! (S i) = Some phase -> b ∈ blocks -> cfg_name b ∈ phase ->
    exists d phase', d ∈ cfg_depends_on b /\ phases !! i = Some phase' /\ d ∈ phase'.

(** The invariant of the loop of [get_execution_order]: [executed] holds
    the names placed so far, each placed once; no phase is empty;
    dependencies come first and every block is placed as early as
    possible; and a block whose dependencies were all placed before the
    last phase has been placed. *)
Definition order_inv (blocks : list BlockConfig) (executed : gset string)
    (phases : list (list string)) : Prop :=
  executed = list_to_set (concat phases) /\
  NoDup (concat phases) /\
  executed ⊆ list_to_set (cfg_name <$> blocks) /\
  Forall (fun phase => phase <> []) phases /\
  dependencies_first blocks phases /\
  as_early_as_possible blocks phases /\
  (forall before last b,
     phases = before ++ [last] -> b ∈ blocks ->
     Forall (fun dep => dep ∈ concat before) (cfg_depends_on b) ->
     cfg_name b ∈ executed).

(** The diamond [a], [b <- a], [c <- a], [d <- b, c]. *)
Definition sample_diamond : list BlockConfig :=
  [mkBlockConfig "a" []; mkBlockConfig "b" ["a"]; mkBlockConfig "c" ["a"];
   mkBlockConfig "d" ["b"; "c"]].

End Workflow.


(** ** What the daemon reads from a task database ([rein/daemon.py]) *)

Module Daemon.

Import ReinState.

(** [sum(1 for b in blocks if b["status"] == st)], which is also
    [SELECT COUNT( * ) FROM processes WHERE status = st]. *)
Definition count_rows (st : string) (db : Db) : nat :=
  size (filter (fun kv : string * Row => r_status kv.2 = st) db).

(** The [status] of [get_task_state_snapshot] for a task whose database
    exists and can be read. *)
Definition task_status (db : Db) : string :=
  let total := size db in
  let done_ := count_rows "done" db in
  let failed := count_rows "failed" db in
  let running := count_rows "running" db in
  if decide (total = 0)%nat then "pending"
  else if decide (0 < failed)%nat then "failed"
  else if decide (done_ = total) then "completed"
  else if decide (0 < running \/ 0 < done_)%nat then "running"
  else "pending".

(** The test of [get_running_tasks]:
    [total > 0 and done < total and failed == 0]. *)
Definition listed_running (db : Db) : bool :=
  bool_decide (0 < size db /\ count_rows "done" db < size db /\
               count_rows "failed" db = 0)%nat.

End Daemon.

(** Every persisted row belongs to a record. *)
Definition rows_have_records (m : Manager) : Prop :=
  forall n, n ∈ dom (state m) -> n ∈ process_names m.


(** ** The daemon's scan for pending tasks ([run_daemon_async]) *)

Module Scheduler.

(** What the scan reads in one task directory: whether it is a
    directory, the content of [state/status] ([None] when the file is
    missing; a file that cannot be read counts as a text other than
    [pending]), whether [state/rein.db] and [task.yaml] exist, and the
    flow that [task.yaml] names (the empty text when it names none or
    cannot be read). *)
Record TaskDir : Type := mkTaskDir {
  td_is_dir : bool;
  td_status : option string;
  td_db_exists : bool;
  td_yaml_exists : bool;
  td_flow : string
}.

(** [is_pending] as the scan computes it. *)
Definition is_pending (td : TaskDir) : bool :=
  match td_status td with
  | Some content =>
      bool_decide (PyStr.to_string (PyStr.strip (PyStr.of_string content)) = "pending")
  | None => negb (td_db_exists td) && td_yaml_exists td
  end.

(** [flow_name] as the scan computes it. *)
Definition flow_name (td : TaskDir) : string :=
  if td_yaml_exists td then td_flow td else "".

(** The task passes every [continue] of the loop body. *)
Definition eligible (flow_exists : string -> bool) (td : TaskDir) : bool :=
  td_is_dir td && is_pending td
  && negb (bool_decide (flow_name td = "")) && flow_exists (flow_name td).

(** [os.remove(status_marker)] when the marker exists. *)
Definition remove_marker (td : TaskDir) : TaskDir :=
  mkTaskDir (td_is_dir td) None (td_db_exists td) (td_yaml_exists td) (td_flow td).

(** [for task_name in sorted(os.listdir(tasks_dir))] with its [break]
    and [continue]; [active] holds the keys of the dict of running
    subprocesses, in insertion order. A listed name always has an entry
    in [tasks]. *)
Fixpoint scan (max_workflows : Z) (flow_exists : string -> bool)
    (listing : list string) (tasks : gmap string TaskDir) (active : list string)
  : gmap string TaskDir * list string :=
  match listing with
  | [] => (tasks, active)
  | task_name :: rest =>
      if decide (Z.of_nat (length active) >= max_workflows) then (tasks, active)
      else if decide (task_name ∈ active)
      then scan max_workflows flow_exists rest tasks active
      else
        match tasks !! task_name with
        | Some td =>
            if eligible flow_exists td
            then scan max_workflows flow_exists rest
                   (<[task_name := remove_marker td]> tasks) (active ++ [task_name])
            else scan max_workflows flow_exists rest tasks active
        | None => scan max_workflows flow_exists rest tasks active
        end
  end.

(** One pass of the daemon over the tasks directory. *)
Definition scan_tasks (max_workflows : Z) (flow_exists : string -> bool)
    (tasks : gmap string TaskDir) (active : list string)
  : gmap string TaskDir * list string :=
  scan max_workflows flow_exists (sorted_names (dom tasks)) tasks active.

(** Two tasks waiting to be run and one that has a database already. *)
Definition sample_tasks : gmap string TaskDir :=
  <["t1" := mkTaskDir true (Some "pending") false true "flow"]>
    (<["t2" := mkTaskDir true None false true "flow"]>
       (<["t3" := mkTaskDir true None true true "flow"]> ∅)).

End Scheduler.


(** ** The critical path ([get_critical_path]) *)

Module CriticalPath.

Import Workflow.

(** [{block.name: block for block in self.blocks}]. *)
Definition block_dict (blocks : list BlockConfig) : list (string * BlockConfig) :=
  foldl (fun d block => dict_set (cfg_name block) block d) [] blocks.

(** [max(values)]: [None] stands for the [ValueError] on no values. *)
Definition py_max (values : list Z) : option Z :=
  match values with
  | [] => None
  | v :: rest => Some (foldr Z.max v rest)
  end.

(** The local function [depth]; [None] stands for an exception (the
    [KeyError] of an unknown name, or the recursion that does not end on
    a cycle). [fuel] bounds the depth of the recursion. *)
Fixpoint depth (fuel : nat) (bd : list (string * BlockConfig)) (n : string)
  : option Z :=
  match fuel with
  | O => None
  | S fuel' =>
      block ← dict_get n bd;
      match cfg_depends_on block with
      | [] => Some 1
      | deps =>
          ds ← mapM (depth fuel' bd) deps;
          deepest ← py_max ds;
          Some (1 + deepest)
      end
  end.

(** [{block.name: depth(block.name) for block in self.blocks}]. *)
Definition depths (blocks : list BlockConfig) : option (list (string * Z)) :=
  foldl (fun acc block =>
           d ← acc;
           v ← depth (length blocks) (block_dict blocks) (cfg_name block);
           Some (dict_set (cfg_name block) v d))
        (Some []) blocks.

(** [get_critical_path()]. *)
Definition get_critical_path (blocks : list BlockConfig) : option (list string) :=
  d ← depths blocks;
  max_depth ← py_max (snd <$> d);
  Some (fst <$> filter (fun nd : string * Z => nd.2 = max_depth) d).

End CriticalPath.


(** ** The validators of the blocks of a workflow *)

Module Validators.

Import Workflow.

(** The outcome of a validator: the blocks are returned, or one of the
    [ValueError]s is raised; [UnexpectedKeyError] stands for the
    [KeyError] of [rec_stack.remove(start)] on a name that is not on the
    stack. *)
Inductive Validation : Type :=
| Accepted
| MissingDependency (block_name dep : string)
| CircularDependency (cycle_path : string)
| DuplicateNames (duplicates : gset string)
| UnexpectedKeyError.

Definition Graph : Type := list (string * list string).

(** [{block.name: block.depends_on for block in blocks}]. *)
Definition graph_of (blocks : list BlockConfig) : Graph :=
  foldl (fun graph block => dict_set (cfg_name block) (cfg_depends_on block) graph)
        [] blocks.

(** "Validate all referenced dependencies exist": the first pair that
    the two nested loops reject. *)
Definition missing_dependency (graph : Graph) (all_names : gset string)
  : option (string * string) :=
  head (graph ≫= fun '(block_name, deps) =>
          pair block_name <$> filter (fun dep => dep ∉ all_names) deps).

(** What a call of [has_cycle_from] leaves: a cycle and its path, or no
    cycle and the two sets as the call has changed them. *)
Inductive Visit : Type :=
| Cycle (path : string)
| NoCycle (visited rec_stack : gset string)
| KeyError.

(** [for neighbor in graph.get(start, [])] and the two statements that
    follow the loop, with [has_cycle_from] on a neighbour as [visit]. *)
Definition visit_neighbors
    (visit : string -> gset string -> gset string -> option Visit) (start : string)
  : list string -> gset string -> gset string -> option Visit :=
  fix loop neighbors visited rec_stack :=
    match neighbors with
    | [] =>
        if decide (start ∈ rec_stack)
        then Some (NoCycle visited (rec_stack ∖ {[start]}))
        else Some KeyError
    | neighbor :: rest =>
        if decide (neighbor ∉ visited) then
          match visit neighbor visited rec_stack with
          | None => None
          | Some (Cycle path) => Some (Cycle (start +:+ " -> " +:+ path))
          | Some (NoCycle visited' rec_stack') => loop rest visited' rec_stack'
          | Some KeyError => Some KeyError
          end
        else if decide (neighbor ∈ rec_stack)
        then Some (Cycle (start +:+ " -> " +:+ neighbor))
        else loop rest visited rec_stack
    end.

(** The local function [has_cycle_from]; [fuel] bounds the depth of the
    recursion. *)
Fixpoint has_cycle_from (fuel : nat) (graph : Graph) (start : string)
    (visited rec_stack : gset string) : option Visit :=
  match fuel with
  | O => None
  | S fuel' =>
      visit_neighbors (has_cycle_from fuel' graph) start
        (default [] (dict_get start graph))
        ({[start]} ∪ visited) ({[start]} ∪ rec_stack)
  end.

(** [for block_name in graph: if block_name not in visited: ...]. *)
Fixpoint find_cycle (fuel : nat) (graph : Graph) (block_names : list string)
    (visited : gset string) : option Visit :=
  match block_names with
  | [] => Some (NoCycle visited ∅)
  | block_name :: rest =>
      if decide (block_name ∉ visited) then
        match has_cycle_from fuel graph block_name visited ∅ with
        | Some (NoCycle visited' _) => find_cycle fuel graph rest visited'
        | other => other
        end
      else find_cycle fuel graph rest visited
  end.

(** The validator [detect_circular_dependencies]; a recursion as deep as
    the graph has names suffices. *)
Definition detect_circular_dependencies (blocks : list BlockConfig)
  : option Validation :=
  match blocks with
  | [] => Some Accepted
  | _ =>
      let graph := graph_of blocks in
      let all_names : gset string := list_to_set (cfg_name <$> blocks) in
      match missing_dependency graph all_names with
      | Some (block_name, dep) => Some (MissingDependency block_name dep)
      | None =>
          match find_cycle (length graph) graph graph.*1 ∅ with
          | None => None
          | Some (Cycle cycle_path) => Some (CircularDependency cycle_path)
          | Some (NoCycle _ _) => Some Accepted
          | Some KeyError => Some UnexpectedKeyError
          end
      end
  end.

(** The validator [validate_block_name_uniqueness]. *)
Definition validate_block_name_uniqueness (blocks : list BlockConfig) : Validation :=
  let names := cfg_name <$> blocks in
  if decide (length names <> size (list_to_set (C := gset string) names))
  then DuplicateNames
         (list_to_set
            (filter (fun name => (1 < length (filter (fun n => n = name) names))%nat)
                    names))
  else Accepted.

Definition sample_cycle : list BlockConfig :=
  [mkBlockConfig "a" ["c"]; mkBlockConfig "b" ["a"]; mkBlockConfig "c" ["b"]].

End Validators.

(* ===================================================================== *)
(** * Part II: theorems                                                   *)
(* ===================================================================== *)

(** ** State store *)

(** The record that survives a save: the eleven persisted columns of [p],
    dataclass defaults everywhere else. *)
Lemma get_after_save_row (now : Q) (p : Process) (db : ReinState.Db) :
  ReinState.get_process (name p) (ReinState.save_process now p db) =
  Some (Process_from_row (pid p) (name p) (status p) (start_time p)
          (command p) (exit_code p) (cpu_percent p) (memory_mb p)
          (progress p) (phase p) (blocking_pause p)).
Proof.
  unfold ReinState.get_process, ReinState.save_process.
  rewrite lookup_insert_eq. cbn.
  unfold ReinState.row_to_process; cbn.
  by destruct (blocking_pause p).
Qed.

(** C9. Saving a process and reading it back by name yields a record that
    agrees with the saved one on name, pid, status, start_time, command,
    exit_code, cpu_percent, memory_mb, progress, phase and blocking_pause,
    while uid, depends_on, agent, next_spec, run_count and max_runs come
    back as the dataclass defaults (empty string, empty list, empty string,
    None, 0 and 1). *)
Theorem save_get_partial_roundtrip (now : Q) (p : Process) (db : ReinState.Db) :
  exists q : Process,
    ReinState.get_process (name p) (ReinState.save_process now p db) = Some q /\
    (name q = name p /\ pid q = pid p /\ status q = status p /\
     start_time q = start_time p /\ command q = command p /\
     exit_code q = exit_code p /\ cpu_percent q = cpu_percent p /\
     memory_mb q = memory_mb p /\ progress q = progress p /\
     phase q = phase p /\ blocking_pause q = blocking_pause p) /\
    (uid q = "" /\ depends_on q = [] /\ agent q = "" /\
     next_spec q = None /\ run_count q = 0 /\ max_runs q = 1).
Proof.
  eexists. split; [apply get_after_save_row|]. cbn. tauto.
Qed.

(** ** Phases *)

Section PhaseFacts.

Implicit Types (blocks pre post : list Block) (ph : gmap string Z).

Lemma phase_pass_snoc pre b :
  phase_pass (pre ++ [b]) = phase_pass_step (phase_pass pre) b.
Proof. unfold phase_pass. by rewrite foldl_app. Qed.

(** Blocks listed later leave the phase of an unrelated name alone. *)
Lemma phase_fold_other post ph d :
  d ∉ block_name <$> post ->
  foldl phase_pass_step ph post !! d = ph !! d.
Proof.
  revert ph. induction post as [|b post IH]; intros ph Hd; [done|].
  cbn in *. rewrite IH by set_solver.
  unfold phase_pass_step. apply lookup_insert_ne. set_solver.
Qed.

Lemma phase_pass_at pre b post :
  block_name b ∉ block_name <$> post ->
  phase_pass (pre ++ b :: post) !! block_name b =
  Some (calculate_phase (block_deps b) (phase_pass pre)).
Proof.
  intros Hb. unfold phase_pass. rewrite foldl_app. cbn.
  rewrite phase_fold_other by done.
  unfold phase_pass_step. apply lookup_insert_eq.
Qed.

Lemma phase_pass_before pre b post d :
  d ∉ block_name <$> (b :: post) ->
  phase_pass (pre ++ b :: post) !! d = phase_pass pre !! d.
Proof.
  intros Hd. unfold phase_pass. rewrite foldl_app.
  by rewrite phase_fold_other.
Qed.

Lemma calculate_phase_pos deps ph : 1 <= calculate_phase deps ph.
Proof.
  unfold calculate_phase. destruct deps as [|d deps]; [lia|].
  assert (0 <= foldr Z.max 0 ((fun dep => default 0 (ph !! dep)) <$> d :: deps)).
  { generalize (d :: deps). intros l. induction l; cbn; lia. }
  lia.
Qed.

(** Every phase recorded by the pass is at least 1. *)
Lemma phase_pass_pos blocks d pd : phase_pass blocks !! d = Some pd -> 1 <= pd.
Proof.
  revert d pd. induction blocks as [|b blocks IH] using rev_ind; intros d pd.
  - unfold phase_pass. cbn. by rewrite lookup_empty.
  - rewrite phase_pass_snoc. unfold phase_pass_step.
    rewrite lookup_insert. case_decide.
    + intros [= <-]. apply calculate_phase_pos.
    + apply IH.
Qed.

Lemma max_phase_upper ph (deps : list string) d :
  d ∈ deps ->
  default 0 (ph !! d) <= foldr Z.max 0 ((fun dep => default 0 (ph !! dep)) <$> deps).
Proof.
  induction deps as [|e deps IH]; [by intros ?%elem_of_nil|].
  intros [->|Hin]%elem_of_cons; cbn; [lia|]. specialize (IH Hin). lia.
Qed.

Lemma max_phase_attained ph (deps : list string) :
  deps <> [] ->
  (forall d, d ∈ deps -> 0 <= default 0 (ph !! d)) ->
  exists d, d ∈ deps /\
    foldr Z.max 0 ((fun dep => default 0 (ph !! dep)) <$> deps) = default 0 (ph !! d).
Proof.
  induction deps as [|e deps IH]; [done|]. intros _ Hpos.
  destruct deps as [|e' deps'].
  - exists e. split; [set_solver|]. cbn.
    specialize (Hpos e ltac:(set_solver)). lia.
  - assert (Hpos' : forall d, d ∈ e' :: deps' -> 0 <= default 0 (ph !! d)).
    { intros d Hd. apply Hpos. set_solver. }
    destruct (IH ltac:(done) Hpos') as (d & Hd & Hmax).
    change (foldr Z.max 0 ((fun dep => default 0 (ph !! dep)) <$> e :: e' :: deps'))
      with (Z.max (default 0 (ph !! e))
              (foldr Z.max 0 ((fun dep => default 0 (ph !! dep)) <$> e' :: deps'))).
    rewrite Hmax.
    destruct (Z.max_spec (default 0 (ph !! e)) (default 0 (ph !! d))) as [[_ ->]|[_ ->]].
    + exists d. split; [set_solver|done].
    + exists e. split; [set_solver|done].
Qed.

End PhaseFacts.

(** When the dependencies of a block are listed before it, the block's
    phase is computed from the final phases of its dependencies. *)
Lemma phase_rule_ordered (blocks : list Block) :
  NoDup (block_name <$> blocks) ->
  dependency_ordered blocks ->
  phase_rule blocks.
Proof.
  intros Hnd Hord b Hb.
  apply list_elem_of_split in Hb as (pre & post & ->).
  rewrite fmap_app, fmap_cons in Hnd.
  apply NoDup_app in Hnd as (Hpre & Hdisj & Hnd).
  apply NoDup_cons in Hnd as [Hb_post Hpost].
  assert (Hb_pre : block_name b ∉ block_name <$> pre).
  { intros Hin. apply (Hdisj _ Hin). set_solver. }
  assert (Hdep : forall d, d ∈ block_deps b ->
            phase_pass (pre ++ b :: post) !! d = phase_pass pre !! d /\
            is_Some (phase_pass pre !! d)).
  { intros d Hd.
    pose proof (Hord pre b post d eq_refl Hd) as Hin.
    split.
    - apply phase_pass_before. intros Hin'. apply (Hdisj _ Hin).
      by rewrite <- fmap_cons.
    - clear -Hin. induction pre as [|c pre IH] using rev_ind.
      + by apply elem_of_nil in Hin.
      + rewrite phase_pass_snoc. unfold phase_pass_step.
        rewrite lookup_insert. case_decide; [by eexists|].
        apply IH. rewrite fmap_app in Hin. set_solver. }
  exists (calculate_phase (block_deps b) (phase_pass pre)).
  split; [by apply phase_pass_at|]. split.
  - intros ->. done.
  - intros Hne. unfold calculate_phase.
    destruct (block_deps b) as [|d0 deps0] eqn:Hdeps; [done|].
    rewrite <- Hdeps in *. clear Hne. split.
    + intros d Hd. destruct (Hdep d Hd) as [Heq [pd Hpd]].
      exists pd. rewrite Heq. split; [done|].
      pose proof (max_phase_upper (phase_pass pre) _ d Hd) as Hle.
      rewrite Hpd in Hle. cbn in Hle. lia.
    + assert (Hne : block_deps b <> []) by (by rewrite Hdeps).
      assert (Hpos : forall d, d ∈ block_deps b -> 0 <= default 0 (phase_pass pre !! d)).
      { intros d Hd. destruct (Hdep d Hd) as [_ [pd Hpd]]. rewrite Hpd. cbn.
        pose proof (phase_pass_pos _ _ _ Hpd). lia. }
      destruct (max_phase_attained (phase_pass pre) (block_deps b) Hne Hpos)
        as (d & Hd & Hmax).
      destruct (Hdep d Hd) as [Heq [pd Hpd]].
      exists d, pd. rewrite Heq, Hmax, Hpd. done.
Qed.

(** C5 (as stated, refuted). The document that lists [b] (depending on
    [a]) before [a] is acyclic, yet the pass gives [b] phase 1, not
    phase of [a] plus one: the phase rule depends on the listing order. *)
Lemma phase_rule_order_counterexample :
  let doc := [sample_block "b" ["a"]; sample_block "a" []] in
  acyclic_deps doc /\
  phase_pass doc !! "b" = Some 1 /\ phase_pass doc !! "a" = Some 1 /\
  ~ phase_rule doc.
Proof.
  cbn zeta. split; [|split; [|split]].
  - exists (fun n => if decide (n = "a") then 0%nat else 1%nat).
    intros b d Hb Hd.
    apply elem_of_cons in Hb as [->|Hb]; [|apply elem_of_cons in Hb as [->|Hb]].
    + cbn in Hd. apply list_elem_of_singleton in Hd as ->. vm_compute. lia.
    + cbn in Hd. by apply elem_of_nil in Hd.
    + by apply elem_of_nil in Hb.
  - reflexivity.
  - reflexivity.
  - intros Hrule.
    destruct (Hrule (sample_block "b" ["a"]) ltac:(set_solver))
      as (pb & Hpb & _ & Hdeps).
    change (phase_pass [sample_block "b" ["a"]; sample_block "a" []] !! "b" = Some pb) in Hpb.
    assert (pb = 1) as -> by (vm_compute in Hpb; congruence).
    destruct Hdeps as [Hall _]; [done|].
    destruct (Hall "a" ltac:(cbn; set_solver)) as (pd & Hpd & Hle).
    assert (pd = 1) as -> by (vm_compute in Hpd; congruence).
    lia.
Qed.

(** C5 (amended). For every document whose block names are unique and in
    which every dependency of a block is listed before that block, the
    phase of each block is 1 when it has no dependencies and otherwise
    the largest phase among its dependencies plus 1. *)
Theorem phase_rule_in_document_order (blocks : list Block)
    (Hnames : NoDup (block_name <$> blocks))
    (Hordered : dependency_ordered blocks) :
  phase_rule blocks.
Proof. by apply phase_rule_ordered. Qed.

Lemma phase_rule_in_document_order_witness :
  let doc := [sample_block "a" []; sample_block "b" ["a"]; sample_block "c" ["a"; "b"]] in
  NoDup (block_name <$> doc) /\ dependency_ordered doc /\ phase_rule doc.
Proof.
  cbn zeta.
  assert (Hnd : NoDup (block_name <$>
            [sample_block "a" []; sample_block "b" ["a"]; sample_block "c" ["a"; "b"]])).
  { cbn. repeat (apply NoDup_cons; split; [set_solver|]). apply NoDup_nil_2. }
  assert (Hord : dependency_ordered
            [sample_block "a" []; sample_block "b" ["a"]; sample_block "c" ["a"; "b"]]).
  { intros pre b post d Heq Hd.
    destruct pre as [|p0 [|p1 [|p2 [|p3 pre]]]]; simplify_eq/=; set_solver. }
  split; [exact Hnd|]. split; [exact Hord|].
  exact (phase_rule_in_document_order _ Hnd Hord).
Defined.

(** ** Resume cascade *)

Section CascadeFacts.

Variable dm : gmap string (list string).

Implicit Types (N : gset string) (Q ds L : list string).

(** What one sweep over the dependents of [cur] does to the set and to
    the queue. *)
Lemma cascade_visit_spec cur ds N Q L N' Q' L' :
  cascade_visit cur ds (N, Q, L) = (N', Q', L') ->
  N' = N ∪ list_to_set ds /\
  (forall x, x ∈ Q' <-> x ∈ Q \/ (x ∈ ds /\ x ∉ N)).
Proof.
  revert N Q L. induction ds as [|d ds IH]; intros N Q L; cbn.
  - intros [= <- <- <-]. split; [set_solver|]. intros x. set_solver.
  - case_decide as Hd.
    + intros H. apply IH in H as [-> HQ]. split; [set_solver|].
      intros x. rewrite HQ. set_solver.
    + intros H. apply IH in H as [-> HQ]. split; [set_solver|].
      intros x. rewrite HQ. rewrite elem_of_app, list_elem_of_singleton.
      destruct (decide (x = d)) as [->|]; set_solver.
Qed.

(** The queue never grows faster than the set of untouched names
    shrinks. *)
Lemma cascade_visit_measure (U : gset string) cur ds N Q L N' Q' L' :
  (forall d, d ∈ ds -> d ∈ U) ->
  cascade_visit cur ds (N, Q, L) = (N', Q', L') ->
  (length Q' + size (U ∖ N') <= length Q + size (U ∖ N))%nat.
Proof.
  revert N Q L. induction ds as [|d ds IH]; intros N Q L HU; cbn.
  - intros [= <- <- <-]. lia.
  - case_decide as Hd.
    + apply IH. intros; apply HU; set_solver.
    + intros H. apply IH in H; [|intros; apply HU; set_solver].
      rewrite length_app in H. cbn in H.
      assert (Hsplit : U ∖ N = {[d]} ∪ U ∖ ({[d]} ∪ N)).
      { apply set_eq. intros x. destruct (decide (x = d)) as [->|]; [|set_solver].
        specialize (HU d ltac:(set_solver)). set_solver. }
      rewrite Hsplit. rewrite (size_union {[d]} (U ∖ ({[d]} ∪ N))); [|set_solver].
      rewrite size_singleton. lia.
Qed.

Lemma elem_of_all_dependents x :
  x ∈ all_dependents dm <-> exists k ds, dm !! k = Some ds /\ x ∈ ds.
Proof.
  unfold all_dependents.
  apply (map_fold_weak_ind
    (fun (acc : gset string) (m : gmap string (list string)) =>
       x ∈ acc <-> exists k ds, m !! k = Some ds /\ x ∈ ds)).
  - split; [set_solver|]. intros (k & ds & Hk & _). by rewrite lookup_empty in Hk.
  - intros k ds m acc Hk IH. rewrite elem_of_union, elem_of_list_to_set, IH. split.
    + intros [Hx|(k' & ds' & Hk' & Hx)].
      * exists k, ds. by rewrite lookup_insert_eq.
      * exists k', ds'. rewrite lookup_insert_ne; [done|]. intros ->. congruence.
    + intros (k' & ds' & Hk' & Hx).
      rewrite lookup_insert in Hk'. case_decide; simplify_eq; eauto.
Qed.

(** With one unit of fuel per queue entry and per untouched dependent the
    loop runs to completion. *)
Lemma cascade_loop_total fuel N Q L :
  (length Q + size (all_dependents dm ∖ N) <= fuel)%nat ->
  is_Some (cascade_loop fuel dm N Q L).
Proof.
  revert N Q L. induction fuel as [|fuel IH]; intros N Q L Hfuel.
  - destruct Q; [by eexists|cbn in Hfuel; lia].
  - destruct Q as [|cur Q]; [by eexists|]. cbn.
    destruct (cascade_visit cur (default [] (dm !! cur)) (N, Q, L))
      as [[N' Q'] L'] eqn:Hvisit.
    apply IH.
    apply (cascade_visit_measure (all_dependents dm)) in Hvisit.
    + cbn in Hfuel. lia.
    + intros d Hd. apply elem_of_all_dependents.
      destruct (dm !! cur) as [ds|] eqn:Hcur; [eauto|].
      by apply elem_of_nil in Hd.
Qed.

#[local] Abbreviation cascade_inv := (cascade_inv dm).

Lemma cascade_inv_init F : cascade_inv F F (elements F).
Proof.
  split; [done|]. split; [|split].
  - intros x Hx. exists x. split; [done|constructor].
  - intros x. by rewrite elem_of_elements.
  - intros x Hx. left. by rewrite elem_of_elements.
Qed.

Lemma cascade_inv_done F N x :
  cascade_inv F N [] -> x ∈ N <-> exists f, f ∈ F /\ reach dm f x.
Proof.
  intros (HF & Hreach & _ & Hclosed). split; [apply Hreach|].
  intros (f & Hf & Hfx). induction Hfx as [|y z _ IHy Hz]; [by apply HF|].
  destruct (Hclosed y IHy) as [Hq|Hall]; [by apply elem_of_nil in Hq|by apply Hall].
Qed.

Lemma cascade_inv_step F N cur Q L N' Q' L' :
  cascade_inv F N (cur :: Q) ->
  cascade_visit cur (default [] (dm !! cur)) (N, Q, L) = (N', Q', L') ->
  cascade_inv F N' Q'.
Proof.
  intros (HF & Hreach & HQN & Hclosed) Hvisit.
  apply cascade_visit_spec in Hvisit as [-> HQ'].
  assert (Hcur : cur ∈ N) by (apply HQN; set_solver).
  split; [set_solver|]. split; [|split].
  - intros x [Hx|Hx%elem_of_list_to_set]%elem_of_union; [by apply Hreach|].
    destruct (Hreach cur Hcur) as (f & Hf & Hfc).
    exists f. split; [done|]. by eapply reach_step.
  - intros x [Hx|[Hx _]]%HQ'.
    + apply elem_of_union. left. apply HQN. set_solver.
    + apply elem_of_union. right. by apply elem_of_list_to_set.
  - intros x Hx. destruct (decide (x = cur)) as [->|Hne].
    + right. intros d Hd. apply elem_of_union. right. by apply elem_of_list_to_set.
    + destruct (decide (x ∈ N)) as [HxN|HxN].
      * destruct (Hclosed x HxN) as [Hq|Hall].
        -- left. apply HQ'. left. set_solver.
        -- right. intros d Hd. apply elem_of_union. left. by apply Hall.
      * left. apply HQ'. right. split; [|done].
        apply elem_of_union in Hx as [Hx|Hx%elem_of_list_to_set]; done.
Qed.

Lemma cascade_loop_sound F fuel N Q L R L' x :
  cascade_inv F N Q ->
  cascade_loop fuel dm N Q L = Some (R, L') ->
  x ∈ R <-> exists f, f ∈ F /\ reach dm f x.
Proof.
  revert N Q L. induction fuel as [|fuel IH]; intros N Q L Hinv.
  - destruct Q; [|done]. cbn. intros [= <- <-]. by apply cascade_inv_done.
  - destruct Q as [|cur Q].
    { cbn. intros [= <- <-]. by apply cascade_inv_done. }
    cbn.
    destruct (cascade_visit cur (default [] (dm !! cur)) (N, Q, L))
      as [[N' Q'] L1] eqn:Hvisit.
    apply IH. by eapply cascade_inv_step.
Qed.

(** [_cascade_invalidation] always returns, and returns exactly the
    names reachable from the failed blocks. *)
Lemma cascade_invalidation_spec (F : gset string) L :
  exists R L', cascade_invalidation F dm L = Some (R, L') /\
    forall x, x ∈ R <-> exists f, f ∈ F /\ reach dm f x.
Proof.
  unfold cascade_invalidation.
  destruct (cascade_loop_total (size F + size (all_dependents dm)) F (elements F) L)
    as [[R L'] Hrun].
  { change (length (elements F)) with (size F).
    pose proof (subseteq_size (all_dependents dm ∖ F) (all_dependents dm)
                  ltac:(set_solver)). lia. }
  exists R, L'. split; [done|]. intros x.
  eapply cascade_loop_sound; [apply cascade_inv_init|done].
Qed.

End CascadeFacts.

Lemma elem_of_failed_blocks_of (m : Manager) (f : string) :
  f ∈ failed_blocks_of (existing_status m) <-> interrupted (state m) f.
Proof.
  unfold failed_blocks_of, existing_status, interrupted.
  rewrite elem_of_dom. unfold is_Some.
  setoid_rewrite map_lookup_filter_Some. setoid_rewrite lookup_fmap_Some.
  unfold is_interrupted. cbn. split.
  - intros (st & (row & <- & Hrow) & Hst). exists row. split; [done|].
    apply orb_true_iff in Hst as [H|H]; apply bool_decide_eq_true in H; auto.
  - intros (row & Hrow & Hst). exists (ReinState.r_status row). split; [eauto|].
    apply orb_true_iff. destruct Hst as [->| ->]; [left|right]; by apply bool_decide_eq_true.
Qed.

(** Cleaning the outputs of a list of blocks removes exactly those
    directories and touches nothing but the disk and the log. *)
Lemma clean_outputs_fold (l : list string) (m : Manager) :
  let m' := foldl (fun acc n => clean_block_outputs n acc) m l in
  outputs m' = outputs m ∖ list_to_set l /\ state m' = state m /\
  completed m' = completed m /\ all_blocks m' = all_blocks m.
Proof.
  revert m. induction l as [|n l IH]; intros m; cbn.
  - split; [set_solver|done].
  - destruct (IH (clean_block_outputs n m)) as (Ho & Hs & Hc & Hb).
    rewrite Ho, Hs, Hc, Hb. unfold clean_block_outputs.
    case_decide; cbn; (split; [set_solver|done]).
Qed.

Section InitFacts.

Variables (env : InitEnv) (es : gmap string string) (needs : gset string)
          (ph : gmap string Z).

#[local] Abbreviation restorable := (restorable es needs).

Lemma init_block_step (acc : Manager * Z) (ib : nat * Block) :
  let r := init_block env es needs ph acc ib in
  let n := block_name ib.2 in
  outputs r.1 = outputs acc.1 /\
  ((restorable n /\ state r.1 = state acc.1 /\ completed r.1 = {[n]} ∪ completed acc.1) \/
   (~ restorable n /\ completed r.1 = completed acc.1 /\
    exists row, waiting_row row /\ state r.1 = <[n := row]> (state acc.1))).
Proof.
  destruct acc as [m c], ib as [i b]. cbn -[bool_decide].
  destruct (bool_decide (es !! block_name b = Some "done")) eqn:Hdone;
    destruct (bool_decide (block_name b ∉ needs)) eqn:Hneeds; cbn -[bool_decide];
    try apply bool_decide_eq_true in Hdone; try apply bool_decide_eq_true in Hneeds;
    try apply bool_decide_eq_false in Hdone; try apply bool_decide_eq_false in Hneeds.
  - split; [done|]. left. done.
  - split; [done|]. right. split; [by intros [_ ?]|]. split; [done|].
    eexists. split; [|reflexivity]. done.
  - split; [done|]. right. split; [by intros [? _]|]. split; [done|].
    eexists. split; [|reflexivity]. done.
  - split; [done|]. right. split; [by intros [? _]|]. split; [done|].
    eexists. split; [|reflexivity]. done.
Qed.

Lemma init_blocks_fold (l : list (nat * Block)) (acc : Manager * Z) :
  let r := foldl (init_block env es needs ph) acc l in
  outputs r.1 = outputs acc.1 /\
  (forall n, n ∈ (fun ib => block_name ib.2) <$> l -> ~ restorable n ->
     exists row, state r.1 !! n = Some row /\ waiting_row row) /\
  (forall n, n ∉ (fun ib => block_name ib.2) <$> l \/ restorable n ->
     state r.1 !! n = state acc.1 !! n) /\
  (forall n, n ∈ completed r.1 <->
     n ∈ completed acc.1 \/ (n ∈ (fun ib => block_name ib.2) <$> l /\ restorable n)).
Proof.
  induction l as [|ib l IH] using rev_ind; cbn zeta.
  - cbn. split; [done|]. split; [by intros n ?%elem_of_nil|]. split; [done|].
    intros n. split; [auto|]. intros [?|[?%elem_of_nil _]]; done.
  - rewrite foldl_app. cbn [foldl].
    destruct IH as (Ho & Hw & Hk & Hc).
    pose proof (init_block_step (foldl (init_block env es needs ph) acc l) ib) as Hstep.
    cbn zeta in Hstep. destruct Hstep as [Ho' Hstep].
    set (r := foldl (init_block env es needs ph) acc l) in *.
    set (r' := init_block env es needs ph r ib) in *.
    split; [congruence|].
    destruct Hstep as [(Hres & Hs & Hcm)|(Hres & Hcm & row & Hrow & Hs)].
    + split; [|split].
      * intros n Hn Hnr. rewrite Hs. apply Hw; [|done].
        rewrite fmap_app in Hn. apply elem_of_app in Hn as [Hn|Hn]; [done|].
        cbn in Hn. apply list_elem_of_singleton in Hn as ->. done.
      * intros n Hn. rewrite Hs. apply Hk. destruct Hn as [Hn|Hn]; [|by right].
        left. rewrite fmap_app in Hn. set_solver.
      * intros n. rewrite Hcm, elem_of_union, elem_of_singleton, Hc, fmap_app.
        cbn. rewrite elem_of_app, list_elem_of_singleton. split.
        -- intros [->|[?|[? ?]]]; auto.
        -- intros [?|[[?| ->] ?]]; auto.
    + split; [|split].
      * intros n Hn Hnr. rewrite Hs, lookup_insert. case_decide; [by eexists|].
        apply Hw; [|done]. rewrite fmap_app in Hn.
        apply elem_of_app in Hn as [Hn|Hn]; [done|].
        cbn in Hn. apply list_elem_of_singleton in Hn. congruence.
      * intros n Hn. rewrite Hs. rewrite lookup_insert_ne.
        -- apply Hk. destruct Hn as [Hn|Hn]; [|by right].
           left. rewrite fmap_app in Hn. set_solver.
        -- intros Heq. destruct Hn as [Hn|Hn]; [|by subst].
           apply Hn. rewrite fmap_app. cbn. set_solver.
      * intros n. rewrite Hcm, Hc, fmap_app.
        cbn. rewrite elem_of_app, list_elem_of_singleton. split.
        -- intros [?|[? ?]]; auto.
        -- intros [?|[[?| ->] ?]]; auto. done.
Qed.

End InitFacts.

Lemma indexed_names (blocks : list Block) :
  (fun ib : nat * Block => block_name ib.2) <$> indexed blocks = block_name <$> blocks.
Proof.
  unfold indexed. rewrite <- (snd_zip (seq 0 (length blocks)) blocks) at 3.
  - by rewrite <- list_fmap_compose.
  - by rewrite length_seq.
Qed.

(** The set to re-run that [_initialize_all_processes] works with. *)
Lemma needs_rerun_spec (m : Manager) :
  exists needs log,
    (if decide (failed_blocks_of (existing_status m) = ∅)
     then Some (∅, rein_log m)
     else
       '(needs, log) ← cascade_invalidation (failed_blocks_of (existing_status m))
                         (get_dependents_map (all_blocks m)) (rein_log m);
       Some (needs,
             log ++ ["RESUME | "
                       +:+ pretty (Z.of_nat (size (failed_blocks_of (existing_status m))))
                       +:+ " failed/running blocks, "
                       +:+ pretty (Z.of_nat (size needs)) +:+ " total to re-run"]))
    = Some (needs, log) /\
    forall n, n ∈ needs <-> invalidated m n.
Proof.
  case_decide as Hempty.
  - exists ∅, (rein_log m). split; [done|]. intros n. split; [set_solver|].
    intros (f & Hf%elem_of_failed_blocks_of & _). set_solver.
  - destruct (cascade_invalidation_spec (get_dependents_map (all_blocks m))
                (failed_blocks_of (existing_status m)) (rein_log m))
      as (R & L' & Hrun & HR).
    rewrite Hrun. cbn. eexists _, _. split; [reflexivity|].
    intros n. rewrite HR. unfold invalidated.
    by setoid_rewrite elem_of_failed_blocks_of.
Qed.


(** Scenario S4: after the crash, [b] and [c] are waiting again, [a]
    stays done and completed, and only [a] keeps its outputs. *)
Example resume_after_crash :
  (fun m' => (ReinState.r_status <$> state m', elements (completed m'),
              elements (outputs m'), rein_log m'))
    <$> initialize_all_processes sample_env sample_crashed
  = Some (<["a" := "done"]> (<["b" := "waiting"]> (<["c" := "waiting"]> ∅)),
          ["a"], ["a"],
          ["CASCADE | c | invalidated (depends on b)";
           "RESUME | 1 failed/running blocks, 2 total to re-run";
           "CLEANUP | b | removed outputs";
           "RESUME SKIP | a | already done";
           "RESUME | Restored 1 completed blocks from previous run"]).
Proof. vm_compute. reflexivity. Qed.

(** ** Next transitions and [max_runs] *)

Lemma trigger_next_block_configs now block target data m :
  block_configs (trigger_next now block target data m) = block_configs m.
Proof.
  unfold trigger_next. case_decide; [done|]. cbn.
  unfold reset_target, save_at. cbn. destruct (index_of_name _ _); [|done]. cbn.
  by destruct (_ !! _) as [[? ?]|].
Qed.

Lemma trigger_next_run_counts now block target data m :
  run_counts (trigger_next now block target data m) =
  if decide (current_runs m target >= target_max_runs m target)
  then run_counts m
  else <[target := current_runs m target + 1]> (run_counts m).
Proof.
  unfold trigger_next. case_decide; [done|]. cbn.
  unfold reset_target, save_at. cbn. destruct (index_of_name _ _); [|done]. cbn.
  by destruct (_ !! _) as [[? ?]|].
Qed.

Lemma index_of_name_Some n ps i :
  index_of_name n ps = Some i -> exists u p, ps !! i = Some (u, p) /\ name p = n.
Proof.
  revert i. induction ps as [|[u p] ps IH]; intros i; cbn; [done|].
  case_decide.
  - intros [= <-]. by exists u, p.
  - destruct (index_of_name n ps) as [j|] eqn:Hj; [|done].
    cbn. intros [= <-]. by apply IH.
Qed.

Lemma reset_target_processes now target runs m :
  processes (reset_target now target runs m) =
  match index_of_name target (processes m) with
  | Some i =>
      update_at i (fun p => with_run_count runs (with_progress 0 (with_status "waiting" p)))
        (processes m)
  | None => processes m
  end.
Proof.
  unfold reset_target, save_at. destruct (index_of_name _ _); [|done]. cbn.
  by destruct (_ !! _) as [[? ?]|].
Qed.

Lemma trigger_next_processes now block target data m j u p :
  processes (trigger_next now block target data m) !! j = Some (u, p) ->
  processes m !! j = Some (u, p) \/
  (name p = target /\ run_count p = current_runs m target + 1 /\
   current_runs m target < target_max_runs m target).
Proof.
  unfold trigger_next. case_decide as Hge; [by left|]. cbn.
  rewrite reset_target_processes. cbn.
  destruct (index_of_name target (processes m)) as [i|] eqn:Hi; [|by left].
  apply index_of_name_Some in Hi as (u0 & p0 & Hi & Hname).
  unfold update_at. intros Hj.
  destruct (decide (i = j)) as [->|Hne].
  - rewrite list_lookup_alter_eq, Hi in Hj. cbn in Hj.
    simplify_eq. right. cbn. split; [done|]. split; [done|lia].
  - rewrite list_lookup_alter_ne in Hj by done. by left.
Qed.

Lemma trigger_next_bounded now block target data m :
  run_counts_bounded m /\ records_bounded m ->
  run_counts_bounded (trigger_next now block target data m) /\
  records_bounded (trigger_next now block target data m).
Proof.
  intros [Hrc Hrec]. split.
  - intros t c. unfold target_max_runs. rewrite trigger_next_block_configs.
    rewrite trigger_next_run_counts. case_decide as Hge; [apply Hrc|].
    rewrite lookup_insert. case_decide as Ht; [|apply Hrc].
    subst t. intros [= <-]. fold (target_max_runs m target). lia.
  - intros j u p Hj. unfold target_max_runs. rewrite trigger_next_block_configs.
    fold (target_max_runs m (name p)).
    apply trigger_next_processes in Hj as [Hj|(-> & -> & Hlt)]; [by eapply Hrec|lia].
Qed.

Lemma trigger_all_bounded now events m :
  run_counts_bounded m /\ records_bounded m ->
  run_counts_bounded (trigger_all now events m) /\
  records_bounded (trigger_all now events m).
Proof.
  unfold trigger_all. revert m. induction events as [|ev events IH]; intros m H; [done|].
  cbn. apply IH. by apply trigger_next_bounded.
Qed.

(** C2. Starting from counters and records within their [max_runs], after
    any sequence of next transitions every counter and every record's run
    count is still within the [max_runs] of its block; at that point a
    transition to a target whose counter has reached [max_runs] only
    writes the NEXT BLOCKED log entry (nothing is enqueued and no counter
    moves), and a transition changes a counter only for its target, only
    when the counter is strictly below [max_runs], and then by one. *)
Theorem run_count_never_exceeds_max_runs (now : Q) (m0 : Manager)
    (events : list (string * string * json))
    (block target : string) (data : json)
    (Hcounts : run_counts_bounded m0) (Hrecords : records_bounded m0) :
  let m := trigger_all now events m0 in
  let m' := trigger_next now block target data m in
  run_counts_bounded m /\ records_bounded m /\
  (current_runs m target >= target_max_runs m target ->
     m' = write_rein_log
            (next_blocked_msg target (current_runs m target) (target_max_runs m target)) m /\
     next_queue m' = next_queue m /\ run_counts m' = run_counts m) /\
  (forall t, run_counts m' !! t <> run_counts m !! t ->
     t = target /\ current_runs m target < target_max_runs m target /\
     run_counts m' !! t = Some (current_runs m target + 1)).
Proof.
  cbn zeta.
  destruct (trigger_all_bounded now events m0 (conj Hcounts Hrecords)) as [H1 H2].
  split; [done|]. split; [done|]. split.
  - intros Hge. unfold trigger_next. by rewrite decide_True.
  - intros t. rewrite trigger_next_run_counts. case_decide as Hge; [done|].
    rewrite lookup_insert. case_decide as Ht; [|done]. subst t.
    intros _. split; [done|]. split; [lia|done].
Qed.

Lemma run_count_never_exceeds_max_runs_witness :
  run_counts_bounded sample_review_loop /\ records_bounded sample_review_loop /\
  let m := trigger_all 0 [("revise", "review", JNull); ("revise", "review", JNull);
                          ("revise", "review", JNull)] sample_review_loop in
  run_counts_bounded m /\ records_bounded m /\
  run_counts m !! "review" = Some 3 /\
  next_queue (trigger_next 0 "revise" "review" JNull m) = next_queue m.
Proof.
  assert (H1 : run_counts_bounded sample_review_loop).
  { intros t c H. cbn in H. by rewrite lookup_empty in H. }
  assert (H2 : records_bounded sample_review_loop).
  { intros i u p H. destruct i as [|[|i]]; cbn in H; simplify_eq; vm_compute; discriminate. }
  split; [exact H1|]. split; [exact H2|]. cbn zeta.
  destruct (run_count_never_exceeds_max_runs 0 sample_review_loop
              [("revise", "review", JNull); ("revise", "review", JNull);
               ("revise", "review", JNull)] "revise" "review" JNull H1 H2)
    as (Hc & Hr & Hblocked & _).
  split; [exact Hc|]. split; [exact Hr|]. split; [vm_compute; reflexivity|].
  apply Hblocked. vm_compute. discriminate.
Defined.

(** Scenario S3 seen from the log: three transitions are queued, the
    fourth is blocked. *)
Example review_loop_log :
  rein_log (trigger_all 0 [("revise", "review", JNull); ("revise", "review", JNull);
                           ("revise", "review", JNull); ("revise", "review", JNull)]
              sample_review_loop)
  = ["NEXT QUEUED | revise -> review | run=1/3";
     "NEXT QUEUED | revise -> review | run=2/3";
     "NEXT QUEUED | revise -> review | run=3/3";
     "NEXT BLOCKED | review | run_count=3 >= max_runs=3"].
Proof. vm_compute. reflexivity. Qed.

(** ** Pause and resume of one block *)

Section LookupFacts.

Variable f : Process -> Process.
Hypothesis f_name : forall p, name (f p) = name p.




End LookupFacts.

Lemma update_at_lookup i f ps u p :
  ps !! i = Some (u, p) -> update_at i f ps !! i = Some (u, f p).
Proof. intros H. unfold update_at. by rewrite list_lookup_alter_eq, H. Qed.


Lemma resume_mut_name p : name (resume_mut p) = name p.
Proof. done. Qed.






(** ** Condition evaluator *)

Section CondFacts.

Import PyStr PyVal Cond.

Lemma resolve_parts_has_path parts data v :
  has_path parts data v -> resolve_parts parts data = v.
Proof.
  induction 1 as [|part rest fields v w Hget _ IH]; [done|].
  cbn. by rewrite Hget.
Qed.



Lemma resolve_path_known path data v :
  has_path (to_string <$> split_on "." (of_string path)) data v ->
  resolve_path path data = v.
Proof. apply resolve_parts_has_path. Qed.



End CondFacts.




(** ** Saving leaves the in-memory state alone *)

Lemma save_at_processes now i m : processes (save_at now i m) = processes m.
Proof. unfold save_at. by destruct (_ !! _) as [[? ?]|]. Qed.

Lemma save_at_completed now i m : completed (save_at now i m) = completed m.
Proof. unfold save_at. by destruct (_ !! _) as [[? ?]|]. Qed.

Lemma save_at_next_queue now i m : next_queue (save_at now i m) = next_queue m.
Proof. unfold save_at. by destruct (_ !! _) as [[? ?]|]. Qed.

Lemma save_at_flags now i m :
  workflow_paused (save_at now i m) = workflow_paused m /\
  stop_workflow (save_at now i m) = stop_workflow m /\
  all_blocks (save_at now i m) = all_blocks m /\
  block_configs (save_at now i m) = block_configs m /\
  run_counts (save_at now i m) = run_counts m.
Proof. unfold save_at. by destruct (_ !! _) as [[? ?]|]. Qed.

(** ** Finalisation *)





(** ** The main loop *)

Lemma exit_check_spec (st : LoopState) :
  exit_check st = true <->
  pending st = [] /\ next_queue (mgr st) = [] /\
  forall i u p, processes (mgr st) !! i = Some (u, p) ->
    status p = "done" \/ status p = "failed".
Proof.
  unfold exit_check, all_completed. rewrite !andb_true_iff, !bool_decide_eq_true.
  rewrite forallb_forall.
  assert (Hdf : forall s, is_done_or_failed s = true <-> s = "done" \/ s = "failed").
  { intros s. unfold is_done_or_failed. by rewrite orb_true_iff, !bool_decide_eq_true. }
  split.
  - intros [[Hp Hall] Hq]. split; [done|]. split; [done|].
    intros i u p Hi. apply Hdf. apply (Hall (u, p)).
    apply list_elem_of_In. by eapply list_elem_of_lookup_2.
  - intros (Hp & Hq & Hall). split; [split|]; [done| |done].
    intros [u p] Hin%list_elem_of_In. apply list_elem_of_lookup in Hin as [i Hi].
    apply Hdf. by eapply Hall.
Qed.

Lemma drain_next_queue_empty fuel env timeout st :
  next_queue (mgr st) = [] -> drain_next_queue fuel env timeout st = Some st.
Proof. intros H. destruct fuel; cbn; by rewrite H. Qed.

Section ListFacts.

Lemma process_names_update_at i f ps :
  (forall p, name (f p) = name p) ->
  (fun up : string * Process => name up.2) <$> update_at i f ps =
  (fun up : string * Process => name up.2) <$> ps.
Proof.
  intros Hf. unfold update_at. apply list_eq. intros j.
  rewrite !list_lookup_fmap. destruct (decide (i = j)) as [->|Hne].
  - rewrite list_lookup_alter_eq. destruct (ps !! j) as [[u p]|]; cbn; [|done].
    by rewrite Hf.
  - by rewrite list_lookup_alter_ne.
Qed.

Lemma update_at_lookup_ne i j f ps :
  i <> j -> update_at i f ps !! j = ps !! j.
Proof. intros H. unfold update_at. by rewrite list_lookup_alter_ne. Qed.

Lemma index_of_name_is_Some n ps :
  n ∈ (fun up : string * Process => name up.2) <$> ps ->
  is_Some (index_of_name n ps).
Proof.
  induction ps as [|[u p] ps IH]; cbn; [by intros ?%elem_of_nil|].
  intros Hin. case_decide; [by eexists|].
  apply elem_of_cons in Hin as [->|Hin]; [done|].
  destruct (IH Hin) as [i ->]. by eexists.
Qed.

Lemma dict_get_elem {V} (d : list (string * V)) n v :
  NoDup (fst <$> d) -> (n, v) ∈ d -> dict_get n d = Some v.
Proof.
  induction d as [|[k w] d IH]; cbn; [by intros _ ?%elem_of_nil|].
  intros [Hk Hnd]%NoDup_cons Hin. case_decide as Hkn.
  - subst k. apply elem_of_cons in Hin as [[= ->]|Hin]; [done|].
    destruct Hk. apply list_elem_of_fmap. by exists (n, v).
  - apply elem_of_cons in Hin as [[= -> ->]|Hin]; [done|]. by apply IH.
Qed.

Lemma dict_get_Some_elem {V} (d : list (string * V)) n v :
  dict_get n d = Some v -> (n, v) ∈ d.
Proof.
  induction d as [|[k w] d IH]; cbn; [done|].
  case_decide as Hkn.
  - intros [= ->]. subst. set_solver.
  - intros H. apply IH in H. set_solver.
Qed.

Lemma dict_del_elem {V} (d : list (string * V)) n kv :
  kv ∈ dict_del n d <-> kv ∈ d /\ kv.1 <> n.
Proof. unfold dict_del. rewrite list_elem_of_filter. tauto. Qed.

Lemma dict_del_keys {V} (d : list (string * V)) n :
  fst <$> dict_del n d = filter (fun k => k <> n) (fst <$> d).
Proof.
  unfold dict_del. induction d as [|[k w] d IH]; [done|].
  rewrite fmap_cons. cbn [fst]. rewrite !filter_cons. cbn.
  case_decide; cbn; by rewrite IH.
Qed.

Lemma dict_del_length {V} (d : list (string * V)) n v :
  NoDup (fst <$> d) -> dict_get n d = Some v ->
  (length (dict_del n d) + 1 = length d)%nat.
Proof.
  unfold dict_del. induction d as [|[k w] d IH]; [done|].
  rewrite fmap_cons. intros [Hk Hnd]%NoDup_cons. rewrite filter_cons. cbn.
  case_decide as Hkn.
  - intros _. subst k. rewrite decide_False by (by intros H; apply H).
    assert (Hfil : filter (fun kv : string * V => kv.1 <> n) d = d).
    { clear -Hk. induction d as [|[k' w'] d IH]; [done|].
      rewrite filter_cons. cbn. rewrite decide_True.
      - f_equal. apply IH. set_solver.
      - intros ->. set_solver. }
    rewrite Hfil. lia.
  - intros Hget. rewrite decide_True by done. cbn. specialize (IH Hnd Hget). lia.
Qed.

Lemma dict_get_del_ne {V} (d : list (string * V)) n n' :
  n' <> n -> dict_get n' (dict_del n d) = dict_get n' d.
Proof.
  intros Hne. unfold dict_del. induction d as [|[k w] d IH]; [done|].
  rewrite filter_cons. cbn. case_decide as Hk; cbn.
  - case_decide; [done|]. apply IH.
  - subst k. rewrite decide_False by done. apply IH.
Qed.

End ListFacts.

(** What a block execution leaves behind when the block has no [next]. *)
Lemma finish_done_plain now i b data m :
  b_next b = None ->
  processes (finish_done now i b data m) =
    update_at i (fun p => with_exit_code (Some 0) (with_status "done" (with_progress 100 p)))
      (processes m) /\
  completed (finish_done now i b data m) = {[block_name b]} ∪ completed m /\
  next_queue (finish_done now i b data m) = next_queue m /\
  workflow_paused (finish_done now i b data m) = workflow_paused m /\
  stop_workflow (finish_done now i b data m) = stop_workflow m.
Proof.
  intros Hnext. unfold finish_done, Cond.evaluate_next_block. rewrite Hnext.
  cbn. rewrite save_at_processes, save_at_completed, save_at_next_queue.
  destruct (save_at_flags now i
              (set_processes (update_at i
                 (fun p => with_exit_code (Some 0) (with_status "done" (with_progress 100 p)))
                 (processes m)) m)) as (-> & -> & _).
  done.
Qed.

Lemma finish_failed_fields now i b m :
  processes (finish_failed now i b m) =
    update_at i (fun p => with_exit_code (Some 1) (with_status "failed" p)) (processes m) /\
  completed (finish_failed now i b m) = {[block_name b]} ∪ completed m /\
  next_queue (finish_failed now i b m) = next_queue m /\
  workflow_paused (finish_failed now i b m) = workflow_paused m.
Proof.
  unfold finish_failed.
  destruct (block_continue_if_failed b); cbn;
    rewrite save_at_processes, save_at_completed, save_at_next_queue;
    match goal with
    | |- context [workflow_paused (save_at now i ?x)] =>
        destruct (save_at_flags now i x) as (-> & _)
    end; done.
Qed.

(** The record of an executed block ends up done or failed, whatever the
    worker did. *)
Lemma execute_block_plain now res i b m :
  b_next b = None ->
  exists final : Process -> Process,
    (forall p, name (final p) = name p) /\
    (forall p, is_done_or_failed (status (final p)) = true) /\
    processes (execute_block now res i b m) = update_at i final (processes m) /\
    completed (execute_block now res i b m) = {[block_name b]} ∪ completed m /\
    next_queue (execute_block now res i b m) = next_queue m /\
    workflow_paused (execute_block now res i b m) = workflow_paused m.
Proof.
  intros Hnext. destruct res as [data|]; cbn [execute_block].
  - destruct (finish_done_plain now i b data m Hnext) as (H1 & H2 & H3 & H4 & _).
    eexists. split; [|split; [|split; [exact H1|done]]]; done.
  - destruct (finish_failed_fields now i b m) as (H1 & H2 & H3 & H4).
    eexists. split; [|split; [|split; [exact H1|done]]]; done.
Qed.

Lemma update_at_twice i f g ps :
  update_at i f (update_at i g ps) = update_at i (f ∘ g) ps.
Proof.
  unfold update_at. rewrite list_alter_alter_eq. by apply list_alter_ext.
Qed.

Section LoopFacts.

Variable blocks : list Block.
Hypothesis names_unique : NoDup (block_name <$> blocks).
Hypothesis plain : no_next_no_skip blocks.

Lemma loop_inv_names_unique st i j u p u' p' :
  loop_inv blocks st ->
  processes (mgr st) !! i = Some (u, p) ->
  processes (mgr st) !! j = Some (u', p') ->
  name p = name p' -> i = j.
Proof.
  intros (Hnames & _) Hi Hj Heq.
  apply (NoDup_lookup (process_names (mgr st)) i j (name p));
    [rewrite Hnames; exact names_unique| |].
  - unfold process_names. rewrite list_lookup_fmap, Hi. reflexivity.
  - unfold process_names. rewrite list_lookup_fmap, Hj. cbn. by rewrite Heq.
Qed.

(** Spawning a pending block whose dependencies are completed always
    takes it off [pending], and keeps the invariant. *)
Lemma spawn_ready_block now pid_ res st n b lc ex :
  loop_inv blocks st ->
  (n, b) ∈ pending st ->
  Forall (fun dep => dep ∈ completed (mgr st)) (block_deps b) ->
  exists r m', spawn_process now pid_ res b (mgr st) = (r, m') /\
    completed (mgr st) ⊆ completed m' /\
    ((r = SpawnSkipped /\
      loop_inv blocks (mkLoop (set_completed ({[n]} ∪ completed m') m')
                         (dict_del n (pending st)) lc ex)) \/
     (r = SpawnStarted /\
      loop_inv blocks (mkLoop m' (dict_del n (pending st)) lc ex))).
Proof.
  intros Hinv Hin Hdeps.
  pose proof Hinv as (Hnames & Hnd & Hpend & Hstat & Hq & Hpaused).
  destruct (Hpend n b Hin) as [Hb Hbn].
  assert (Hkeys : NoDup (fst <$> dict_del n (pending st))).
  { rewrite dict_del_keys. by apply NoDup_filter. }
  assert (Hpend' : forall n' b', (n', b') ∈ dict_del n (pending st) ->
                     b' ∈ blocks /\ block_name b' = n').
  { intros n' b' [H _]%dict_del_elem. by apply Hpend. }
  assert (Hstill : forall x, x ∈ fst <$> pending st -> x <> n ->
                     x ∈ fst <$> dict_del n (pending st)).
  { intros x Hx Hne. rewrite dict_del_keys. by apply list_elem_of_filter. }
  unfold spawn_process. rewrite Hbn. case_decide as Hcomp.
  - eexists _, _. split; [reflexivity|]. split; [done|]. left. split; [done|].
    split; [exact Hnames|]. split; [exact Hkeys|]. split; [exact Hpend'|].
    split; [|done]. cbn. intros i u p Hi.
    destruct (Hstat i u p Hi) as [[Hdf Hc]|(Hw & Hnc & Hp)].
    + left. split; [done|]. apply elem_of_union. by right.
    + right. split; [done|]. split.
      * intros [Hx%elem_of_singleton|Hx]%elem_of_union; [rewrite Hx in Hnc|]; done.
      * apply Hstill; [done|]. intros Heq. rewrite Heq in Hnc. done.
  - rewrite bool_decide_eq_false_2.
    2:{ intros (d & Hd & Hnc)%Exists_exists.
        rewrite Forall_forall in Hdeps. by apply Hnc, Hdeps. }
    assert (Hnp : blocked_by_pause (block_deps b) (mgr st) = false).
    { unfold blocked_by_pause. apply bool_decide_eq_false_2.
      intros ([u p] & Hup & _ & Hst & _)%Exists_exists. cbn in Hst.
      apply list_elem_of_lookup in Hup as [i Hi].
      destruct (Hstat i u p Hi) as [[Hdf _]|(Hw & _)]; rewrite Hst in *; done. }
    rewrite Hnp. destruct (plain b Hb) as [Hnext Hskip].
    rewrite Hskip, andb_false_r.
    destruct (index_of_name_is_Some n (processes (mgr st))) as [i Hi].
    { fold (process_names (mgr st)). rewrite Hnames, <- Hbn.
      by apply list_elem_of_fmap_2. }
    rewrite Hi. apply index_of_name_Some in Hi as (u & p & Hi & Hname).
    set (start := fun p => with_start (Some pid_) now (with_progress 0 (with_status "running" p))).
    set (m3 := write_rein_log _ (save_at now i (set_processes _ (mgr st)))).
    assert (Hm3 : processes m3 = update_at i start (processes (mgr st)) /\
                  completed m3 = completed (mgr st) /\
                  next_queue m3 = next_queue (mgr st) /\
                  workflow_paused m3 = workflow_paused (mgr st)).
    { subst m3. cbn. rewrite save_at_processes, save_at_completed, save_at_next_queue.
      destruct (save_at_flags now i
                  (set_processes (update_at i start (processes (mgr st))) (mgr st)))
        as (-> & _). done. }
    destruct Hm3 as (Hp3 & Hc3 & Hq3 & Hw3).
    destruct (execute_block_plain now res i b m3 Hnext)
      as (final & Hfname & Hfdone & Hpe & Hce & Hqe & Hwe).
    eexists _, _. split; [reflexivity|].
    rewrite Hce, Hc3, Hbn. split; [intros x Hx; apply elem_of_union; by right|].
    right. split; [done|].
    assert (Hps : processes (execute_block now res i b m3)
                  = update_at i (final ∘ start) (processes (mgr st))).
    { by rewrite Hpe, Hp3, update_at_twice. }
    split; [|split; [exact Hkeys|split; [exact Hpend'|split]]].
    + unfold process_names. cbn [mgr]. rewrite Hps.
      rewrite process_names_update_at; [exact Hnames|].
      intros q. cbn. by rewrite Hfname.
    + cbn [mgr pending]. rewrite Hps, Hce, Hc3, Hbn. intros j u' p' Hj.
      destruct (decide (i = j)) as [<-|Hne].
      * rewrite (update_at_lookup i _ _ u p Hi) in Hj. simplify_eq. left.
        split; [apply Hfdone|]. cbn. rewrite Hfname. cbn.
        apply elem_of_union. left. by apply elem_of_singleton.
      * rewrite update_at_lookup_ne in Hj by done.
        destruct (Hstat j u' p' Hj) as [[Hdf Hc]|(Hw & Hnc & Hp)].
        -- left. split; [done|]. apply elem_of_union. by right.
        -- assert (Hnn : name p' <> n).
           { intros Heq. apply Hne.
             eapply (loop_inv_names_unique st i j); [done..|congruence]. }
           right. split; [done|]. split; [|by apply Hstill].
           intros [Hx%elem_of_singleton|Hx]%elem_of_union; done.
    + cbn [mgr]. rewrite Hqe, Hq3, Hwe, Hw3. done.
Qed.

End LoopFacts.

Lemma NoDup_keys_filter {V} (P : string * V -> Prop) `{!forall x, Decision (P x)}
    (d : list (string * V)) :
  NoDup (fst <$> d) -> NoDup (fst <$> filter P d).
Proof.
  induction d as [|[k v] d IH]; [done|].
  rewrite fmap_cons. intros [Hk Hnd]%NoDup_cons. rewrite filter_cons.
  destruct (decide (P (k, v))); [|by apply IH].
  rewrite fmap_cons. apply NoDup_cons. split; [|by apply IH].
  cbn. intros (kv & Heq & [_ Hin]%list_elem_of_filter)%list_elem_of_fmap.
  apply Hk. apply list_elem_of_fmap. by exists kv.
Qed.

Lemma timeout_approaching_none env k : timeout_approaching None env k = false.
Proof. done. Qed.

Lemma timeout_exceeded_none env k : timeout_exceeded None env k = false.
Proof. done. Qed.

(** Among the entries of a non-empty dict one has the least rank. *)
Lemma least_rank_entry {V} (rank : string -> nat) (d : list (string * V)) :
  d <> [] ->
  exists kv, kv ∈ d /\ forall kv', kv' ∈ d -> (rank kv.1 <= rank kv'.1)%nat.
Proof.
  induction d as [|kv d IH]; [done|]. intros _.
  destruct d as [|kv0 d0].
  - exists kv. split; [set_solver|]. intros kv' ->%list_elem_of_singleton. lia.
  - destruct IH as (kv1 & Hin & Hmin); [done|].
    destruct (decide (rank kv.1 <= rank kv1.1)%nat).
    + exists kv. split; [set_solver|]. intros kv' [->|Hin']%elem_of_cons; [lia|].
      specialize (Hmin kv' Hin'). lia.
    + exists kv1. split; [set_solver|]. intros kv' [->|Hin']%elem_of_cons; [lia|].
      by apply Hmin.
Qed.

Section LoopProgress.

Variable blocks : list Block.
Hypothesis names_unique : NoDup (block_name <$> blocks).
Hypothesis plain : no_next_no_skip blocks.
Hypothesis closed : deps_closed blocks.
Hypothesis acyclic : acyclic_deps blocks.

Lemma ready_names_entry st n :
  loop_inv blocks st ->
  n ∈ ready_names st ->
  exists b, (n, b) ∈ pending st /\
    Forall (fun dep => dep ∈ completed (mgr st)) (block_deps b).
Proof.
  intros _. unfold ready_names.
  intros ([k b] & -> & [Hdeps Hin]%list_elem_of_filter)%list_elem_of_fmap.
  by exists b.
Qed.

Lemma ready_names_NoDup st : loop_inv blocks st -> NoDup (ready_names st).
Proof. intros (_ & Hnd & _). unfold ready_names. by apply NoDup_keys_filter. Qed.

(** In an acyclic document some pending block is always ready. *)
Lemma ready_names_nonempty st :
  loop_inv blocks st -> pending st <> [] -> ready_names st <> [].
Proof.
  intros Hinv Hne. pose proof Hinv as (Hnames & Hnd & Hpend & Hstat & _).
  destruct acyclic as [rank Hrank].
  destruct (least_rank_entry rank (pending st) Hne) as ([n b] & Hin & Hmin).
  destruct (Hpend n b Hin) as [Hb Hbn].
  assert (Hready : n ∈ ready_names st); [|by intros Heq; rewrite Heq in Hready;
                                            apply elem_of_nil in Hready].
  unfold ready_names. apply list_elem_of_fmap. exists (n, b). split; [done|].
  apply list_elem_of_filter. split; [|done]. cbn.
  apply Forall_forall. intros d Hd.
  pose proof (closed b d Hb Hd) as Hdn. rewrite <- Hnames in Hdn.
  unfold process_names in Hdn.
  apply list_elem_of_fmap in Hdn as ([u p] & Hname & Hup). cbn in Hname.
  apply list_elem_of_lookup in Hup as [i Hi].
  destruct (Hstat i u p Hi) as [[_ Hc]|(_ & _ & Hp)]; [by rewrite Hname|].
  exfalso. rewrite <- Hname in Hp.
  apply list_elem_of_fmap in Hp as ([n' b'] & Hn' & Hin'). cbn in Hn'. subst n'.
  specialize (Hmin (d, b') Hin'). cbn in Hmin.
  specialize (Hrank b d Hb Hd). rewrite Hbn in Hrank. lia.
Qed.

(** The [for name in ready] loop takes every ready block off [pending]. *)
Lemma spawn_ready_inv env rs st :
  loop_inv blocks st ->
  NoDup rs ->
  (forall n, n ∈ rs -> exists b, (n, b) ∈ pending st /\
     Forall (fun dep => dep ∈ completed (mgr st)) (block_deps b)) ->
  loop_inv blocks (spawn_ready env None rs st) /\
  (length (pending (spawn_ready env None rs st)) + length rs
   = length (pending st))%nat.
Proof using names_unique plain.
  clear closed acyclic.
  revert st. induction rs as [|n rs IH]; intros st Hinv Hnd Hready.
  - cbn. split; [done|lia].
  - apply NoDup_cons in Hnd as [Hn Hnd].
    destruct (Hready n ltac:(set_solver)) as (b & Hin & Hdeps).
    pose proof Hinv as (_ & Hkeys & _ & _ & _ & Hpaused).
    cbn [spawn_ready]. rewrite Hpaused, timeout_approaching_none.
    rewrite (dict_get_elem _ n b Hkeys Hin).
    destruct (spawn_ready_block blocks names_unique plain
                (clock env (loop_count st)) (self_pid env)
                (worker env (executions st)) st n b (loop_count st) (executions st)
                Hinv Hin Hdeps)
      as (r & m' & -> & Hsub & Hcase).
    assert (Hlen : (length (dict_del n (pending st)) + 1 = length (pending st))%nat).
    { eapply dict_del_length; [done|]. by apply dict_get_elem. }
    assert (Hrest : forall C : gset string, completed (mgr st) ⊆ C ->
              forall n', n' ∈ rs -> exists b', (n', b') ∈ dict_del n (pending st) /\
                Forall (fun dep => dep ∈ C) (block_deps b')).
    { intros C HC n' Hn'. destruct (Hready n' ltac:(set_solver)) as (b' & Hin' & Hd').
      exists b'. split.
      - apply dict_del_elem. split; [done|]. cbn. intros ->. done.
      - eapply Forall_impl; [exact Hd'|]. intros d Hd. by apply HC. }
    destruct Hcase as [[-> Hinv']|[-> Hinv']]; cbv beta iota zeta.
    + destruct (IH _ Hinv' Hnd) as [H1 H2].
      { apply Hrest. cbn. intros x Hx. apply elem_of_union. right. by apply Hsub. }
      split; [exact H1|]. cbn [pending length] in *. lia.
    + assert (Hinv'' : loop_inv blocks
                (mkLoop m' (dict_del n (pending st)) (loop_count st)
                   (S (executions st)))) by exact Hinv'.
      destruct (IH _ Hinv'' Hnd) as [H1 H2].
      { apply Hrest. exact Hsub. }
      split; [exact H1|]. cbn [pending length] in *. lia.
Qed.

End LoopProgress.

Section LoopTermination.

Variable blocks : list Block.
Hypothesis names_unique : NoDup (block_name <$> blocks).
Hypothesis plain : no_next_no_skip blocks.
Hypothesis closed : deps_closed blocks.
Hypothesis acyclic : acyclic_deps blocks.

Variables (env : LoopEnv) (drain_fuel : nat).

(** One tick either leaves the loop or shortens [pending]. *)
Lemma tick_progress st :
  loop_inv blocks st ->
  (exists reason st', tick drain_fuel env None st = Some (inr (reason, st')) /\
     reason <> ExitTimeout /\ (reason = ExitAllDone -> exit_check st' = true)) \/
  (exists st', tick drain_fuel env None st = Some (inl st') /\
     loop_inv blocks st' /\ (length (pending st') < length (pending st))%nat).
Proof.
  intros Hinv. unfold tick.
  destruct (loop_condition st); cbn [negb]; [|left; by eexists _, _].
  set (st1 := mkLoop (mgr st) (pending st) (S (loop_count st)) (executions st)).
  assert (Hinv1 : loop_inv blocks st1) by exact Hinv.
  destruct (stop_workflow (mgr st1)); [left; by eexists _, _|].
  rewrite timeout_exceeded_none.
  destruct (spawn_ready_inv blocks names_unique plain env (ready_names st1) st1 Hinv1)
    as [Hinv2 Hlen].
  { by apply (ready_names_NoDup blocks). }
  { intros n Hn. by apply (ready_names_entry blocks). }
  set (st2 := spawn_ready env None (ready_names st1) st1) in *.
  change (length (pending st1)) with (length (pending st)) in Hlen.
  pose proof Hinv2 as (_ & _ & _ & Hstat & Hq & _).
  rewrite drain_next_queue_empty by done.
  destruct (exit_check st2) eqn:Hexit; [left; by eexists _, _|].
  right. exists st2. split; [done|]. split; [done|].
  destruct (decide (pending st = [])) as [Hnil|Hne].
  - exfalso. assert (Hp2 : pending st2 = []).
    { apply length_zero_iff_nil. rewrite Hnil in Hlen. cbn [length] in Hlen. lia. }
    assert (exit_check st2 = true); [|congruence].
    apply exit_check_spec. split; [done|]. split; [done|].
    intros i u p Hi. destruct (Hstat i u p Hi) as [[Hdf _]|(_ & _ & Hp)].
    + unfold is_done_or_failed in Hdf. apply orb_true_iff in Hdf.
      by rewrite !bool_decide_eq_true in Hdf.
    + rewrite Hp2 in Hp. by apply elem_of_nil in Hp.
  - pose proof (ready_names_nonempty blocks closed acyclic st1 Hinv1 Hne) as Hready.
    destruct (ready_names st1); [done|]. cbn [length] in Hlen. lia.
Qed.

Lemma run_loop_terminates k st :
  loop_inv blocks st ->
  (length (pending st) <= k)%nat ->
  exists fuel reason st',
    (fuel <= S k)%nat /\
    run_loop fuel drain_fuel env None st = Some (reason, st') /\
    reason <> ExitTimeout /\ (reason = ExitAllDone -> exit_check st' = true).
Proof.
  revert st. induction k as [|k IH]; intros st Hinv Hlen.
  - destruct (tick_progress st Hinv)
      as [(reason & st' & Htick & Hpost)|(st' & _ & _ & Hlt)]; [|lia].
    exists 1%nat, reason, st'. split; [lia|]. cbn. by rewrite Htick.
  - destruct (tick_progress st Hinv)
      as [(reason & st' & Htick & Hpost)|(st' & Htick & Hinv' & Hlt)].
    + exists 1%nat, reason, st'. split; [lia|]. cbn. by rewrite Htick.
    + destruct (IH st' Hinv' ltac:(lia)) as (fuel & reason & st'' & Hf & Hrun & Hpost).
      exists (S fuel), reason, st''. split; [lia|]. cbn. by rewrite Htick.
Qed.

End LoopTermination.

(** The dict [pending] of a document with unique names lists its blocks
    in order. *)
Lemma dict_set_fresh {V} (d : list (string * V)) k v :
  k ∉ fst <$> d -> dict_set k v d = d ++ [(k, v)].
Proof.
  induction d as [|[k' v'] d IH]; [done|]. cbn. intros Hk.
  rewrite decide_False by set_solver. f_equal. apply IH. set_solver.
Qed.

Lemma initial_pending_unique (blocks : list Block) :
  NoDup (block_name <$> blocks) ->
  initial_pending blocks = (fun b => (block_name b, b)) <$> blocks.
Proof.
  unfold initial_pending.
  induction blocks as [|b blocks IH] using rev_ind; [done|].
  rewrite fmap_app. intros [Hnd [Hdisj _]]%NoDup_app.
  rewrite foldl_app, fmap_app. cbn. rewrite IH by done.
  apply dict_set_fresh. rewrite <- list_fmap_compose. intros Hin.
  apply (Hdisj (block_name b)); [exact Hin|set_solver].
Qed.

Lemma loop_start_inv (m : Manager) :
  NoDup (block_name <$> all_blocks m) ->
  ready_to_run m ->
  loop_inv (all_blocks m) (loop_start m).
Proof.
  intros Hnd (Hnames & Hstat & Hq & Hp). unfold loop_start.
  assert (Hkeys : fst <$> initial_pending (all_blocks m) = block_name <$> all_blocks m).
  { rewrite initial_pending_unique by done. by rewrite <- list_fmap_compose. }
  split; [done|]. cbn [pending mgr]. split; [by rewrite Hkeys|].
  split; [|split; [|done]].
  - intros n b. rewrite initial_pending_unique by done.
    intros (b' & [= -> ->] & Hin)%list_elem_of_fmap. done.
  - intros i u p Hi. destruct (Hstat i u p Hi) as [?|[Hw Hnc]]; [by left|].
    right. split; [done|]. split; [done|]. rewrite Hkeys, <- Hnames.
    unfold process_names. apply list_elem_of_fmap. exists (u, p). split; [done|].
    by eapply list_elem_of_lookup_2.
Qed.






(** ** Prompt assembly *)

Section PromptFacts.

Import PyStr Prompt.

Variable env : PromptEnv.







End PromptFacts.



(** Scenario: the reference [{{ notes.json }}] is found nowhere, the task
    input is substituted, the prompt is assembled with the placeholder
    left in place. *)
Example missing_reference_left_in_place :
  Prompt.assemble_prompt sample_prompt_env
    (sample_prompt_block "writer" "Write on {{ task.input.topic }} from {{ notes.json }}")
    "tone"
  = (Prompt.Returned
       (Prompt.full_prompt_of "tone" (Prompt.separator +:+ "You write.")
          "Write on AI safety from {{ notes.json }}"),
     ["TASK INPUT SUBSTITUTED | topic | value_len=9";
      "FILE NOT FOUND | notes.json (checked block outputs, task outputs, workflow dir)";
      "ASSEMBLED PROMPT | len=68"]).
Proof. vm_compute. reflexivity. Qed.





(** ** Reverse dependency graph *)

Lemma add_dependents_lookup (n : string) (deps : list string)
    (dm : gmap string (list string)) (d x : string) :
  x ∈ default [] (foldl (add_dependent n) dm deps !! d) <->
  x ∈ default [] (dm !! d) \/ (x = n /\ d ∈ deps).
Proof.
  revert dm. induction deps as [|e deps IH]; intros dm; cbn [foldl].
  - split; [auto|]. intros [?|[_ ?%elem_of_nil]]; done.
  - rewrite IH. unfold add_dependent. rewrite lookup_insert. rewrite elem_of_cons.
    case_decide as He; cbn.
    + subst e. rewrite elem_of_app, list_elem_of_singleton. split.
      * intros [[?|?]|[? ?]]; auto.
      * intros [?|[? [?|?]]]; auto.
    + split.
      * intros [?|[? ?]]; auto.
      * intros [?|[? [?|?]]]; auto. congruence.
Qed.

(** X1. The map built by [_get_dependents_map] is the reverse of
    [depends_on]: [n] is listed under [d] exactly when some block named
    [n] declares [d] among its dependencies. *)
Theorem dependents_map_reverses_depends_on (blocks : list Block) (d n : string) :
  n ∈ default [] (get_dependents_map blocks !! d) <->
  exists b, b ∈ blocks /\ block_name b = n /\ d ∈ block_deps b.
Proof.
  unfold get_dependents_map.
  induction blocks as [|b blocks IH] using rev_ind.
  - cbn. rewrite lookup_empty. cbn. split; [by intros ?%elem_of_nil|].
    by intros (b & ?%elem_of_nil & _).
  - rewrite foldl_app. cbn [foldl]. rewrite add_dependents_lookup, IH. split.
    + intros [(c & Hc & Hn & Hd)|[-> Hd]].
      * exists c. rewrite elem_of_app. auto.
      * exists b. rewrite elem_of_app, list_elem_of_singleton. auto.
    + intros (c & Hc & Hn & Hd). apply elem_of_app in Hc as [Hc|Hc].
      * left. by exists c.
      * apply list_elem_of_singleton in Hc as ->. right. done.
Qed.

(** ** Bounds on phases *)

Lemma max_phase_bound (ph : gmap string Z) (deps : list string) (B : Z) :
  0 <= B ->
  (forall d p, ph !! d = Some p -> p <= B) ->
  foldr Z.max 0 ((fun dep => default 0 (ph !! dep)) <$> deps) <= B.
Proof.
  intros HB Hph. induction deps as [|d deps IH]; cbn; [done|].
  destruct (ph !! d) as [p|] eqn:Hd; cbn.
  - specialize (Hph d p Hd). lia.
  - lia.
Qed.

(** X2. The first pass of [_initialize_all_processes] records a phase
    for exactly the names of the blocks, and every phase lies between 1
    and the number of blocks. *)
Theorem phase_defined_and_bounded (blocks : list Block) (n : string) :
  match phase_pass blocks !! n with
  | Some p => n ∈ block_name <$> blocks /\ 1 <= p <= Z.of_nat (length blocks)
  | None => n ∉ block_name <$> blocks
  end.
Proof.
  induction blocks as [|b blocks IH] using rev_ind in n |- *.
  - unfold phase_pass. cbn. rewrite lookup_empty. by intros ?%elem_of_nil.
  - rewrite phase_pass_snoc. unfold phase_pass_step.
    rewrite lookup_insert, fmap_app, length_app. cbn [length fmap list_fmap].
    case_decide as Hn.
    + subst n. split; [set_solver|]. split; [apply calculate_phase_pos|].
      unfold calculate_phase. destruct (block_deps b) as [|d0 deps0]; [lia|].
      assert (foldr Z.max 0 ((fun dep => default 0 (phase_pass blocks !! dep)) <$> d0 :: deps0)
              <= Z.of_nat (length blocks)); [|lia].
      apply max_phase_bound; [lia|]. intros d p Hd.
      specialize (IH d). rewrite Hd in IH. lia.
    + specialize (IH n). destruct (phase_pass blocks !! n) as [p|].
      * destruct IH as [Hin Hp]. split; [set_solver|lia].
      * set_solver.
Qed.

(** ** The in-memory records after initialisation *)

Lemma clean_outputs_fold_frame (l : list string) (m : Manager) :
  let m' := foldl (fun acc n => clean_block_outputs n acc) m l in
  processes m' = processes m /\ next_queue m' = next_queue m /\
  workflow_paused m' = workflow_paused m /\ stop_workflow m' = stop_workflow m.
Proof.
  revert m. induction l as [|n l IH]; intros m; cbn; [done|].
  destruct (IH (clean_block_outputs n m)) as (Hp & Hq & Hw & Hs).
  rewrite Hp, Hq, Hw, Hs. unfold clean_block_outputs. by case_decide.
Qed.

Section InitProcesses.

Variables (env : InitEnv) (es : gmap string string) (needs : gset string)
          (ph : gmap string Z).

#[local] Abbreviation restorable := (restorable es needs).

(** One iteration appends one record under the fresh uid. *)
Lemma init_block_processes (acc : Manager * Z) (ib : nat * Block) :
  fresh_uid env ib.1 ∉ fst <$> processes acc.1 ->
  let r := init_block env es needs ph acc ib in
  (exists p, processes r.1 = processes acc.1 ++ [(fresh_uid env ib.1, p)] /\
     name p = block_name ib.2 /\
     ((restorable (name p) /\ status p = "done") \/
      (~ restorable (name p) /\ status p = "waiting"))) /\
  next_queue r.1 = next_queue acc.1 /\
  workflow_paused r.1 = workflow_paused acc.1 /\
  all_blocks r.1 = all_blocks acc.1.
Proof.
  destruct acc as [m c], ib as [i b]. cbn -[bool_decide]. intros Hfresh.
  destruct (bool_decide (es !! block_name b = Some "done")) eqn:Hdone;
    destruct (bool_decide (block_name b ∉ needs)) eqn:Hneeds; cbn -[bool_decide];
    try apply bool_decide_eq_true in Hdone; try apply bool_decide_eq_true in Hneeds;
    try apply bool_decide_eq_false in Hdone; try apply bool_decide_eq_false in Hneeds;
    rewrite dict_set_fresh by done;
    (split; [eexists; split; [reflexivity|]; split; [reflexivity|]; cbn|done]).
  - left. done.
  - right. split; [by intros [_ ?]|done].
  - right. split; [by intros [? _]|done].
  - right. split; [by intros [? _]|done].
Qed.

Lemma init_blocks_processes (l : list (nat * Block)) (acc : Manager * Z) :
  NoDup ((fst <$> processes acc.1) ++ ((fun ib => fresh_uid env ib.1) <$> l)) ->
  let r := foldl (init_block env es needs ph) acc l in
  (exists ps, processes r.1 = processes acc.1 ++ ps /\
     fst <$> ps = (fun ib => fresh_uid env ib.1) <$> l /\
     (fun up : string * Process => name up.2) <$> ps
       = (fun ib => block_name ib.2) <$> l /\
     (forall u p, (u, p) ∈ ps ->
        (restorable (name p) /\ status p = "done") \/
        (~ restorable (name p) /\ status p = "waiting"))) /\
  next_queue r.1 = next_queue acc.1 /\
  workflow_paused r.1 = workflow_paused acc.1 /\
  all_blocks r.1 = all_blocks acc.1.
Proof.
  induction l as [|ib l IH] using rev_ind; cbn zeta.
  - intros _. cbn. split; [|done]. exists []. rewrite app_nil_r.
    split; [done|]. split; [done|]. split; [done|]. by intros u p ?%elem_of_nil.
  - intros Hnd. rewrite fmap_app in Hnd. cbn [fmap list_fmap] in Hnd.
    rewrite app_assoc in Hnd. apply NoDup_app in Hnd as (Hnd & Hdisj & _).
    destruct (IH Hnd) as ((ps & Hps & Huids & Hnames & Hstat) & Hq & Hw & Hb).
    rewrite foldl_app. cbn [foldl].
    set (r := foldl (init_block env es needs ph) acc l) in *.
    destruct (init_block_processes r ib) as ((p & Hp & Hname & Hst) & Hq' & Hw' & Hb').
    { rewrite Hps, fmap_app, Huids. intros Hin. apply (Hdisj _ Hin). set_solver. }
    split; [|by rewrite Hq', Hw', Hb'].
    exists (ps ++ [(fresh_uid env ib.1, p)]).
    split; [by rewrite Hp, Hps, app_assoc|].
    split; [by rewrite !fmap_app, Huids|].
    split; [rewrite !fmap_app, Hnames; cbn; by rewrite Hname|].
    intros u q [Hin|Hin]%elem_of_app; [by eapply Hstat|].
    apply list_elem_of_singleton in Hin as [= -> ->]. done.
Qed.

End InitProcesses.

Lemma indexed_uids (env : InitEnv) (blocks : list Block) :
  (fun ib : nat * Block => fresh_uid env ib.1) <$> indexed blocks
  = fresh_uid env <$> seq 0 (length blocks).
Proof.
  unfold indexed.
  rewrite <- (fst_zip (seq 0 (length blocks)) blocks) at 2.
  - by rewrite <- list_fmap_compose.
  - by rewrite length_seq.
Qed.

(** What [_initialize_all_processes] leaves behind when it starts from a
    manager without records and draws distinct uids. *)
Lemma initialize_spec (env : InitEnv) (m : Manager) :
  processes m = [] /\ completed m = ∅ /\ next_queue m = [] /\
    workflow_paused m = false ->
  NoDup (fresh_uid env <$> seq 0 (length (all_blocks m))) ->
  exists m' needs, initialize_all_processes env m = Some m' /\
    (forall n, n ∈ needs <-> invalidated m n) /\
    all_blocks m' = all_blocks m /\
    next_queue m' = [] /\ workflow_paused m' = false /\
    fst <$> processes m' = fresh_uid env <$> seq 0 (length (all_blocks m)) /\
    process_names m' = block_name <$> all_blocks m /\
    (forall i u p, processes m' !! i = Some (u, p) ->
       (restorable (existing_status m) needs (name p) /\ status p = "done") \/
       (~ restorable (existing_status m) needs (name p) /\ status p = "waiting")) /\
    (forall n, n ∈ completed m' <->
       n ∈ block_name <$> all_blocks m /\ restorable (existing_status m) needs n) /\
    (forall n, n ∈ block_name <$> all_blocks m ->
       ~ restorable (existing_status m) needs n ->
       exists row, state m' !! n = Some row /\ waiting_row row) /\
    (forall n, restorable (existing_status m) needs n -> state m' !! n = state m !! n).
Proof.
  intros (Hps & Hcompl & Hqueue & Hpaused) Huids.
  unfold initialize_all_processes.
  destruct (needs_rerun_spec m) as (needs & log & -> & Hneeds). cbn zeta.
  cbn [mbind option_bind].
  set (m0 := mkManager _ _ _ _ _ _ _ _ _ _ _ log).
  destruct (clean_outputs_fold (elements needs) m0) as (_ & Hs & Hc & Hb).
  destruct (clean_outputs_fold_frame (elements needs) m0) as (Hp1 & Hq1 & Hw1 & _).
  set (m1 := foldl _ m0 (elements needs)) in *.
  pose proof (init_blocks_fold env (existing_status m) needs (phase_pass (all_blocks m))
                (indexed (all_blocks m)) (m1, 0)) as Hfold.
  pose proof (init_blocks_processes env (existing_status m) needs
                (phase_pass (all_blocks m)) (indexed (all_blocks m)) (m1, 0)) as Hrec.
  cbn zeta in Hfold, Hrec. rewrite indexed_names in Hfold.
  rewrite indexed_names, indexed_uids in Hrec. cbn [fst] in Hrec.
  rewrite Hp1 in Hrec. change (processes m0) with (processes m) in Hrec.
  rewrite Hps in Hrec. cbn [fmap list_fmap app] in Hrec.
  specialize (Hrec Huids).
  destruct (foldl _ (m1, 0) (indexed (all_blocks m))) as [m2 restored] eqn:Hrun.
  cbn [fst] in Hfold, Hrec.
  destruct Hfold as (_ & Hw & Hk & Hcm).
  destruct Hrec as ((ps & Hps2 & Hu & Hn & Hstat) & Hq2 & Hw2 & Hb2).
  eexists _, needs. split; [reflexivity|].
  set (m3 := if bool_decide (0 < restored) then _ else m2).
  assert (Hsame : processes m3 = ps /\ completed m3 = completed m2 /\
                  next_queue m3 = [] /\ workflow_paused m3 = false /\
                  all_blocks m3 = all_blocks m /\ state m3 = state m2).
  { unfold m3. destruct (bool_decide (0 < restored)); cbn;
      rewrite Hps2, Hq2, Hw2, Hb2, Hq1, Hw1, Hb; done. }
  destruct Hsame as (Hps3 & Hc3 & Hq3 & Hw3 & Hb3 & Hs3).
  split; [done|]. split; [done|]. split; [done|]. split; [done|].
  split; [by rewrite Hps3|]. split; [unfold process_names; by rewrite Hps3|].
  split; [|split; [|split]].
  - intros i u p Hi. rewrite Hps3 in Hi. eapply Hstat.
    by eapply list_elem_of_lookup_2.
  - intros n. rewrite Hc3, Hcm. cbn [fst]. rewrite Hc.
    change (completed m0) with (completed m). rewrite Hcompl. set_solver.
  - intros n Hblock Hnr. rewrite Hs3. by apply Hw.
  - intros n Hres. rewrite Hs3, Hk by (by right). cbn [fst]. by rewrite Hs.
Qed.

(** X3. [_initialize_all_processes] on a manager that holds no records
    yet, with distinct uids: it returns; there is one record per block, in
    document order, under the fresh uids; a record is done exactly when
    its name is in the completed set, and waiting otherwise; the completed
    set holds exactly the names of blocks whose persisted record is done
    and not invalidated. The manager is then in the state in which the
    main loop is entered. *)
Theorem initialize_makes_ready_to_run (env : InitEnv) (m : Manager)
    (Hempty : processes m = [] /\ completed m = ∅ /\ next_queue m = [] /\
              workflow_paused m = false)
    (Huids : NoDup (fresh_uid env <$> seq 0 (length (all_blocks m)))) :
  exists m', initialize_all_processes env m = Some m' /\
    all_blocks m' = all_blocks m /\
    ready_to_run m' /\
    fst <$> processes m' = fresh_uid env <$> seq 0 (length (all_blocks m)) /\
    (forall n, n ∈ completed m' <->
       n ∈ block_name <$> all_blocks m /\
       existing_status m !! n = Some "done" /\ ~ invalidated m n) /\
    (forall i u p, processes m' !! i = Some (u, p) ->
       (status p = "done" /\ name p ∈ completed m') \/
       (status p = "waiting" /\ name p ∉ completed m')).
Proof.
  destruct (initialize_spec env m Hempty Huids)
    as (m' & needs & Hrun & Hneeds & Hb & Hq & Hw & Hu & Hn & Hstat & Hc & _).
  assert (Hin : forall i u p, processes m' !! i = Some (u, p) ->
            name p ∈ block_name <$> all_blocks m).
  { intros i u p Hi. rewrite <- Hn. unfold process_names.
    apply list_elem_of_fmap. exists (u, p). split; [done|].
    by eapply list_elem_of_lookup_2. }
  assert (Hrec : forall i u p, processes m' !! i = Some (u, p) ->
            (status p = "done" /\ name p ∈ completed m') \/
            (status p = "waiting" /\ name p ∉ completed m')).
  { intros i u p Hi. pose proof (Hin i u p Hi) as Hname.
    destruct (Hstat i u p Hi) as [[Hres Hst]|[Hres Hst]].
    - left. split; [done|]. by apply Hc.
    - right. split; [done|]. rewrite Hc. tauto. }
  exists m'. split; [done|]. split; [done|]. split; [|split; [done|split; [|done]]].
  - split; [by rewrite Hb|]. split; [|done].
    intros i u p Hi. destruct (Hrec i u p Hi) as [[Hst ?]|?]; [|by right].
    left. by rewrite Hst.
  - intros n. rewrite Hc. unfold restorable. rewrite Hneeds. tauto.
Qed.

Lemma initialize_makes_ready_to_run_witness :
  let m := fresh_manager sample_chain in
  exists m', initialize_all_processes sample_env m = Some m' /\
    ready_to_run m' /\ fst <$> processes m' = ["uid0"; "uid1"; "uid2"].
Proof.
  cbn zeta.
  destruct (initialize_makes_ready_to_run sample_env (fresh_manager sample_chain))
    as (m' & Hrun & _ & Hready & Hu & _).
  - done.
  - assert (H : bool_decide (NoDup (fresh_uid sample_env <$>
                seq 0 (length (all_blocks (fresh_manager sample_chain))))) = true)
      by (vm_compute; reflexivity).
    exact (bool_decide_eq_true_1 _ H).
  - exists m'. done.
Defined.

(** X4. On resume, a block whose persisted status is not done -- it was
    waiting, paused or cancelled, or has no record at all -- gets a new
    record with status waiting, progress 0 and exit_code null, and is not
    added to the completed set; unless it is invalidated, its outputs
    directory is left as it was. *)
Theorem resume_restarts_unfinished (env : InitEnv) (m : Manager) (n : string)
    (Hblock : n ∈ block_name <$> all_blocks m)
    (Hnot_done : existing_status m !! n <> Some "done") :
  exists m' row, initialize_all_processes env m = Some m' /\
    state m' !! n = Some row /\
    ReinState.r_status row = "waiting" /\ ReinState.r_progress row = 0 /\
    ReinState.r_exit_code row = None /\
    (n ∈ completed m' <-> n ∈ completed m) /\
    (~ invalidated m n -> (n ∈ outputs m' <-> n ∈ outputs m)).
Proof.
  unfold initialize_all_processes.
  destruct (needs_rerun_spec m) as (needs & log & -> & Hneeds). cbn zeta.
  cbn [mbind option_bind].
  set (m0 := mkManager _ _ _ _ _ _ _ _ _ _ _ log).
  destruct (clean_outputs_fold (elements needs) m0) as (Ho & Hs & Hc & Hb).
  set (m1 := foldl _ m0 (elements needs)) in *.
  pose proof (init_blocks_fold env (existing_status m) needs (phase_pass (all_blocks m))
                (indexed (all_blocks m)) (m1, 0)) as Hfold.
  cbn zeta in Hfold. rewrite indexed_names in Hfold.
  destruct (foldl _ (m1, 0) (indexed (all_blocks m))) as [m2 restored] eqn:Hrun.
  cbn [fst] in Hfold. destruct Hfold as (Ho2 & Hw & _ & Hcm).
  assert (Hnr : ~ restorable (existing_status m) needs n) by (by intros [? _]).
  destruct (Hw n Hblock Hnr) as (row & Hrow & H1 & H2 & H3).
  eexists _, row. split; [reflexivity|].
  set (m3 := if bool_decide (0 < restored) then _ else m2).
  assert (Hsame : outputs m3 = outputs m ∖ needs /\ state m3 = state m2 /\
                  completed m3 = completed m2).
  { unfold m3. rewrite <- (list_to_set_elements_L needs) at 1.
    destruct (bool_decide (0 < restored)); cbn; rewrite Ho2, Ho; done. }
  destruct Hsame as (-> & -> & ->).
  split; [done|]. split; [done|]. split; [done|]. split; [done|]. split.
  - rewrite Hcm, Hc. change (completed m0) with (completed m). tauto.
  - intros Hinv. rewrite <- Hneeds in Hinv. set_solver.
Qed.

Lemma resume_restarts_unfinished_witness :
  exists m' row,
    initialize_all_processes sample_env sample_resumed_cancelled = Some m' /\
    state m' !! "a" = Some row /\ ReinState.r_status row = "waiting" /\
    "a" ∈ outputs m'.
Proof.
  destruct (resume_restarts_unfinished sample_env sample_resumed_cancelled "a")
    as (m' & row & Hrun & Hrow & Hst & _ & _ & _ & Hout).
  - cbn. set_solver.
  - vm_compute. discriminate.
  - exists m', row. split; [done|]. split; [done|]. split; [done|].
    apply Hout; [|cbn; set_solver].
    intros (f & (frow & Hf & Hfst) & _).
    assert (f = "a") as ->.
    { destruct (decide (f = "a")) as [|Hne]; [done|].
      cbn in Hf. by rewrite lookup_insert_ne, lookup_empty in Hf. }
    cbn in Hf. rewrite lookup_insert_eq in Hf. injection Hf as <-.
    destruct Hfst as [Hfst|Hfst]; vm_compute in Hfst; discriminate.
Defined.

(** ** What a run of the main loop preserves *)

Section LoopPreserves.

Variable P : Manager -> Prop.
Hypothesis P_log : forall msg m, P m -> P (write_rein_log msg m).
Hypothesis P_completed : forall c m, P m -> P (set_completed c m).
Hypothesis P_queue : forall q m, P m -> P (set_next_queue q m).
Hypothesis P_spawn : forall now pid_ res b m, P m -> P (spawn_process now pid_ res b m).2.

Lemma spawn_ready_preserves env timeout rs st :
  P (mgr st) -> P (mgr (spawn_ready env timeout rs st)).
Proof.
  revert st. induction rs as [|n rs IH]; intros st HP; [done|]. cbn [spawn_ready].
  destruct (workflow_paused (mgr st)); [apply IH; cbn; by apply P_log|].
  destruct (timeout_approaching timeout env (loop_count st)); [cbn; by apply P_log|].
  destruct (dict_get n (pending st)) as [block|]; [|by apply IH].
  pose proof (P_spawn (clock env (loop_count st)) (self_pid env)
                (worker env (executions st)) block (mgr st) HP) as Hs.
  destruct (spawn_process _ _ _ block (mgr st)) as [r m'].
  cbn [snd] in Hs. destruct r; apply IH; cbn [mgr]; [by apply P_completed|done|done].
Qed.

Lemma drain_next_queue_preserves fuel env timeout st st' :
  drain_next_queue fuel env timeout st = Some st' -> P (mgr st) -> P (mgr st').
Proof.
  revert st. induction fuel as [|fuel IH]; intros st; cbn [drain_next_queue].
  - destruct (next_queue (mgr st)) as [|[n d] q]; [by intros [= <-]|].
    destruct (workflow_paused (mgr st)); [by intros [= <-]|done].
  - destruct (next_queue (mgr st)) as [|[n d] q]; [by intros [= <-]|].
    destruct (workflow_paused (mgr st)); [by intros [= <-]|].
    cbn zeta. cbn [block_configs set_next_queue].
    destruct (block_configs (mgr st) !! n) as [cfg|].
    + destruct (timeout_approaching timeout env (loop_count st)).
      { intros [= <-] HP. cbn [mgr]. by apply P_log, P_queue. }
      intros Hrun HP.
      pose proof (P_spawn (clock env (loop_count st)) (self_pid env)
                    (worker env (executions st)) cfg
                    (write_rein_log ("NEXT SPAWN | " +:+ n +:+ " | triggered by state machine")
                       (set_next_queue q (mgr st)))
                    ltac:(by apply P_log, P_queue)) as Hs.
      destruct (spawn_process _ _ _ cfg _) as [r m'].
      cbn [snd] in Hs. destruct r.
      * apply IH in Hrun; [done|]. cbn [mgr]. by apply P_log.
      * by apply IH in Hrun.
      * injection Hrun as <-. cbn [mgr]. by apply P_queue.
    + intros Hrun HP. apply IH in Hrun; [done|]. cbn [mgr]. by apply P_log, P_queue.
Qed.

Lemma kill_remaining_preserves reason m :
  P m -> P (kill_remaining_processes reason m).
Proof.
  unfold kill_remaining_processes. generalize (processes m). intros ps. revert m.
  induction ps as [|[u p] ps IH]; intros m HP; [done|]. cbn [foldl].
  apply IH. cbn. destruct (pid p) as [z|]; [|done].
  destruct (_ && _); [by apply P_log|done].
Qed.

Lemma tick_preserves drain_fuel env timeout st out :
  tick drain_fuel env timeout st = Some out ->
  P (mgr st) ->
  match out with
  | inl st' => P (mgr st')
  | inr (_, st') => P (mgr st')
  end.
Proof.
  unfold tick. destruct (negb (loop_condition st)); [by intros [= <-]|].
  cbn [mgr pending loop_count executions].
  destruct (stop_workflow (mgr st)).
  { intros [= <-] HP. cbn [mgr]. by apply kill_remaining_preserves, P_log. }
  destruct (timeout_exceeded timeout env (S (loop_count st))).
  { intros [= <-] HP. cbn [mgr]. by apply kill_remaining_preserves, P_log. }
  destruct (drain_next_queue _ _ _ _) as [st3|] eqn:Hdrain; [|done].
  intros Hout HP.
  assert (P (mgr st3)).
  { eapply drain_next_queue_preserves; [exact Hdrain|].
    by apply spawn_ready_preserves. }
  destruct (exit_check st3); by injection Hout as <-.
Qed.

Lemma run_loop_preserves fuel drain_fuel env timeout st reason st' :
  run_loop fuel drain_fuel env timeout st = Some (reason, st') ->
  P (mgr st) -> P (mgr st').
Proof.
  revert st. induction fuel as [|fuel IH]; intros st; [done|]. cbn [run_loop].
  destruct (tick drain_fuel env timeout st) as [[st1|[r st1]]|] eqn:Htick; [| |done].
  - intros Hrun HP. apply (IH st1 Hrun).
    exact (tick_preserves _ _ _ _ _ Htick HP).
  - intros [= <- <-] HP. exact (tick_preserves _ _ _ _ _ Htick HP).
Qed.

End LoopPreserves.

(** ** The state store follows the records *)

Lemma db_consistent_frame (m m' : Manager) :
  processes m' = processes m -> state m' = state m ->
  db_consistent m -> db_consistent m'.
Proof. unfold db_consistent, process_names. by intros -> ->. Qed.

(** A change of one record followed by its save. *)
Lemma update_save_consistent (now : Q) (i : nat) (f : Process -> Process) (m : Manager) :
  (forall p, name (f p) = name p) ->
  db_consistent m ->
  db_consistent (save_at now i (set_processes (update_at i f (processes m)) m)).
Proof.
  intros Hf [Hnd Hrows].
  assert (Hnames : process_names (set_processes (update_at i f (processes m)) m)
                   = process_names m).
  { unfold process_names. cbn. by apply process_names_update_at. }
  split.
  { unfold process_names in *. rewrite save_at_processes. by rewrite Hnames. }
  intros j u p. rewrite save_at_processes. cbn [processes set_processes].
  unfold save_at. cbn [processes set_processes].
  destruct (processes m !! i) as [[ui pi]|] eqn:Hi.
  - rewrite (update_at_lookup i f _ ui pi Hi). cbn [state db_save set_state].
    unfold ReinState.save_process. cbn [name].
    destruct (decide (i = j)) as [->|Hne].
    + rewrite (update_at_lookup j f _ ui pi Hi). intros [= <- <-].
      rewrite lookup_insert_eq. by eexists.
    + rewrite update_at_lookup_ne by done. intros Hj.
      rewrite lookup_insert_ne; [by eapply Hrows|].
      rewrite Hf. intros Heq. apply Hne.
      apply (NoDup_lookup (process_names m) i j (name pi) Hnd).
      * unfold process_names. by rewrite list_lookup_fmap, Hi.
      * unfold process_names. rewrite list_lookup_fmap, Hj. cbn. by rewrite Heq.
  - assert (Hnone : update_at i f (processes m) !! i = None).
    { unfold update_at. by rewrite list_lookup_alter_eq, Hi. }
    rewrite Hnone. cbn [state set_processes].
    destruct (decide (i = j)) as [->|Hne]; [by rewrite Hnone|].
    rewrite update_at_lookup_ne by done. apply Hrows.
Qed.

Lemma trigger_next_consistent now block target data m :
  db_consistent m -> db_consistent (trigger_next now block target data m).
Proof.
  intros H. unfold trigger_next. case_decide; [by eapply db_consistent_frame|].
  cbn zeta.
  eapply db_consistent_frame; [reflexivity|reflexivity|]. cbn [processes state
    write_rein_log set_next_queue].
  eapply (db_consistent_frame (reset_target now target _ _)); [done|done|].
  unfold reset_target.
  destruct (index_of_name target _) as [i|].
  - apply update_save_consistent; [done|]. by eapply db_consistent_frame.
  - by eapply db_consistent_frame.
Qed.

Lemma execute_block_consistent now res i block m :
  db_consistent m -> db_consistent (execute_block now res i block m).
Proof.
  intros H. destruct res as [result_data|]; cbn [execute_block].
  - unfold finish_done. cbn zeta.
    assert (Hdone : db_consistent
              (set_completed ({[block_name block]} ∪ completed m)
                 (write_rein_log ("BLOCK COMPLETED | " +:+ block_name block)
                    (save_at now i
                       (set_processes
                          (update_at i (fun p => with_exit_code (Some 0)
                                          (with_status "done" (with_progress 100 p)))
                             (processes m)) m))))).
    { eapply db_consistent_frame; [reflexivity|reflexivity|].
      by apply update_save_consistent. }
    cbn [completed write_rein_log].
    rewrite save_at_completed. cbn [completed set_processes].
    destruct (Cond.evaluate_next_block block result_data) as [t|]; [|exact Hdone].
    case_decide; [exact Hdone|]. by apply trigger_next_consistent.
  - unfold finish_failed. cbn zeta.
    assert (Hfailed : db_consistent
              (save_at now i
                 (set_processes
                    (update_at i (fun p => with_exit_code (Some 1) (with_status "failed" p))
                       (processes (write_rein_log ("BLOCK FAILED | " +:+ block_name block) m)))
                    (write_rein_log ("BLOCK FAILED | " +:+ block_name block) m)))).
    { apply update_save_consistent; [done|]. by eapply db_consistent_frame. }
    destruct (block_continue_if_failed block);
      (eapply db_consistent_frame; [reflexivity|reflexivity|exact Hfailed]).
Qed.

Lemma spawn_process_consistent now pid_ res block m :
  db_consistent m -> db_consistent (spawn_process now pid_ res block m).2.
Proof.
  intros H. unfold spawn_process.
  case_decide; [by eapply db_consistent_frame|]. cbn zeta.
  destruct (bool_decide (Exists _ _)); [done|].
  destruct (blocked_by_pause _ _); [done|].
  destruct (_ && _); [by eapply db_consistent_frame|].
  destruct (index_of_name _ _) as [i|]; [|by eapply db_consistent_frame].
  cbn [snd]. apply execute_block_consistent.
  eapply db_consistent_frame; [reflexivity|reflexivity|].
  by apply update_save_consistent.
Qed.

Lemma command_consistent (now : Q) (identifier : string) (m : Manager) :
  db_consistent m ->
  db_consistent (pause_single now identifier m).2 /\
  db_consistent (resume_single now identifier m).2 /\
  db_consistent (cancel_single now identifier m).2.
Proof.
  intros H.
  assert (Hone : forall f i u p m0,
            (forall q, name (f q) = name q) ->
            db_consistent m0 ->
            processes m0 !! i = Some (u, p) ->
            db_consistent (db_save now (f p)
                             (set_processes (update_at i f (processes m0)) m0))).
  { intros f i u p m0 Hf H0 Hi.
    pose proof (update_save_consistent now i f m0 Hf H0) as Hs.
    unfold save_at in Hs. cbn [processes set_processes] in Hs.
    by rewrite (update_at_lookup i f _ u p Hi) in Hs. }
  unfold pause_single, resume_single, cancel_single.
  destruct (find_target identifier (processes m)) as [i|]; [|done].
  destruct (processes m !! i) as [[u p]|] eqn:Hi; [|done].
  split; [|split].
  - destruct (is_done_or_failed (status p)); [done|]. cbn [snd].
    eapply db_consistent_frame; [reflexivity|reflexivity|].
    by apply (Hone pause_mut i u p m).
  - destruct (bool_decide (status p <> "paused")); [done|]. cbn [snd].
    eapply db_consistent_frame; [reflexivity|reflexivity|].
    by apply (Hone resume_mut i u p m).
  - cbn [snd]. eapply db_consistent_frame; [reflexivity|reflexivity|].
    destruct (_ && _).
    + apply (Hone (with_status "cancelled") i u p); [done| |done].
      by eapply db_consistent_frame.
    + by apply (Hone (with_status "cancelled") i u p).
Qed.

Lemma initialize_db_consistent (env : InitEnv) (m m' : Manager) :
  processes m = [] /\ completed m = ∅ /\ next_queue m = [] /\
    workflow_paused m = false ->
  NoDup (fresh_uid env <$> seq 0 (length (all_blocks m))) ->
  NoDup (block_name <$> all_blocks m) ->
  initialize_all_processes env m = Some m' ->
  db_consistent m'.
Proof.
  intros Hempty Huids Hnames Hrun.
  destruct (initialize_spec env m Hempty Huids)
    as (m'' & needs & Hrun' & _ & _ & _ & _ & _ & Hn & Hstat & _ & Hw & Hk).
  rewrite Hrun in Hrun'. injection Hrun' as <-.
  split; [by rewrite Hn|].
  intros i u p Hi.
  assert (Hname : name p ∈ block_name <$> all_blocks m).
  { rewrite <- Hn. unfold process_names. apply list_elem_of_fmap.
    exists (u, p). split; [done|]. by eapply list_elem_of_lookup_2. }
  destruct (Hstat i u p Hi) as [[Hres Hst]|[Hres Hst]].
  - rewrite (Hk _ Hres), Hst. destruct Hres as [Hdone _].
    unfold existing_status in Hdone. rewrite lookup_fmap in Hdone.
    destruct (state m !! name p) as [row|]; [|done].
    injection Hdone as Hdone. by exists row.
  - destruct (Hw _ Hname Hres) as (row & Hrow & Hwait & _).
    exists row. by rewrite Hst.
Qed.

(** X5. The state store follows the records. When record names are
    unique and every record's persisted status equals its status in
    memory, this still holds after [spawn_process] (whatever the worker
    does, and through any [next] transition) and after [pause_single],
    [resume_single] and [cancel_single], whether they succeed or not. *)
Theorem persisted_status_follows_records (m : Manager) (Hinv : db_consistent m) :
  (forall now pid_ res block, db_consistent (spawn_process now pid_ res block m).2) /\
  (forall now identifier,
     db_consistent (pause_single now identifier m).2 /\
     db_consistent (resume_single now identifier m).2 /\
     db_consistent (cancel_single now identifier m).2).
Proof.
  split.
  - intros. by apply spawn_process_consistent.
  - intros. by apply command_consistent.
Qed.

Lemma persisted_status_follows_records_witness :
  let m := sample_started sample_chain in
  db_consistent m /\
  db_consistent (spawn_process 0 1 WorkerFailed (sample_block "a" []) m).2 /\
  db_consistent (cancel_single 0 "b" m).2.
Proof.
  cbn zeta.
  assert (H : db_consistent (sample_started sample_chain)).
  { apply (initialize_db_consistent sample_env (fresh_manager sample_chain)).
    - done.
    - assert (H : bool_decide (NoDup (fresh_uid sample_env <$>
                    seq 0 (length (all_blocks (fresh_manager sample_chain))))) = true)
        by (vm_compute; reflexivity).
      exact (bool_decide_eq_true_1 _ H).
    - assert (H : bool_decide (NoDup (block_name <$>
                    all_blocks (fresh_manager sample_chain))) = true)
        by (vm_compute; reflexivity).
      exact (bool_decide_eq_true_1 _ H).
    - vm_compute. reflexivity. }
  split; [exact H|].
  destruct (persisted_status_follows_records _ H) as [Hspawn Hcmd].
  split; [apply Hspawn|]. apply (Hcmd 0%Q "b").
Defined.

(** X6. From any persisted state, for a document with unique block names
    and distinct uids: after [_initialize_all_processes] the persisted
    status of every block equals the status of its record, and this holds
    again whenever the main loop is left, whatever the blocks declare
    ([next], skip policies), whatever the workers do and whatever the
    timeout is. *)
Theorem state_store_consistent_after_run (env : InitEnv) (m : Manager)
    (Hempty : processes m = [] /\ completed m = ∅ /\ next_queue m = [] /\
              workflow_paused m = false)
    (Huids : NoDup (fresh_uid env <$> seq 0 (length (all_blocks m))))
    (Hnames : NoDup (block_name <$> all_blocks m)) :
  exists m0, initialize_all_processes env m = Some m0 /\
    db_consistent m0 /\
    forall fuel drain_fuel lenv timeout reason st',
      run_loop fuel drain_fuel lenv timeout (loop_start m0) = Some (reason, st') ->
      db_consistent (mgr st').
Proof.
  destruct (initialize_spec env m Hempty Huids) as (m0 & needs & Hrun & _).
  pose proof (initialize_db_consistent env m m0 Hempty Huids Hnames Hrun) as H0.
  exists m0. split; [done|]. split; [done|].
  intros fuel drain_fuel lenv timeout reason st' Hloop.
  eapply (run_loop_preserves db_consistent); [..|exact Hloop|exact H0].
  - intros. by eapply db_consistent_frame.
  - intros. by eapply db_consistent_frame.
  - intros. by eapply db_consistent_frame.
  - intros. by apply spawn_process_consistent.
Qed.

Lemma state_store_consistent_after_run_witness :
  exists m0 st',
    initialize_all_processes sample_env sample_crashed = Some m0 /\
    run_loop 4 4 sample_env_ok None (loop_start m0) = Some (ExitAllDone, st') /\
    db_consistent (mgr st').
Proof.
  destruct (state_store_consistent_after_run sample_env sample_crashed)
    as (m0 & Hrun & _ & Hloop).
  - done.
  - assert (H : bool_decide (NoDup (fresh_uid sample_env <$>
                  seq 0 (length (all_blocks sample_crashed)))) = true)
      by (vm_compute; reflexivity).
    exact (bool_decide_eq_true_1 _ H).
  - assert (H : bool_decide (NoDup (block_name <$> all_blocks sample_crashed)) = true)
      by (vm_compute; reflexivity).
    exact (bool_decide_eq_true_1 _ H).
  - assert (Hm0 : Some m0 = Some (default sample_crashed
                      (initialize_all_processes sample_env sample_crashed)))
      by (rewrite <- Hrun; vm_compute; reflexivity).
    injection Hm0 as Hm0.
    destruct (run_loop 4 4 sample_env_ok None (loop_start m0)) as [[r st']|] eqn:Hl.
    + exists m0, st'. split; [done|].
      assert (Hr : r = ExitAllDone).
      { rewrite Hm0 in Hl. vm_compute in Hl. by injection Hl as <- _. }
      subst r. split; [done|]. by eapply Hloop.
    + rewrite Hm0 in Hl. vm_compute in Hl. discriminate.
Defined.

(** ** Record names and run counters along a run *)

Lemma trigger_next_names now block target data m :
  process_names (trigger_next now block target data m) = process_names m.
Proof.
  unfold process_names, trigger_next. case_decide; [done|]. cbn zeta.
  cbn [processes write_rein_log set_next_queue]. rewrite reset_target_processes.
  cbn [processes set_completed set_run_counts].
  destruct (index_of_name target (processes m)); [|done].
  by apply process_names_update_at.
Qed.

Lemma execute_block_names now res i block m :
  process_names (execute_block now res i block m) = process_names m.
Proof.
  destruct res as [result_data|]; cbn [execute_block].
  - unfold finish_done. cbn zeta.
    assert (Hdone : process_names
              (set_completed ({[block_name block]} ∪ completed m)
                 (write_rein_log ("BLOCK COMPLETED | " +:+ block_name block)
                    (save_at now i
                       (set_processes
                          (update_at i (fun p => with_exit_code (Some 0)
                                          (with_status "done" (with_progress 100 p)))
                             (processes m)) m)))) = process_names m).
    { unfold process_names. cbn [processes set_completed write_rein_log].
      rewrite save_at_processes. by apply process_names_update_at. }
    cbn [completed write_rein_log].
    rewrite save_at_completed. cbn [completed set_processes].
    destruct (Cond.evaluate_next_block block result_data) as [t|]; [|exact Hdone].
    case_decide; [exact Hdone|]. by rewrite trigger_next_names.
  - unfold finish_failed. cbn zeta.
    destruct (block_continue_if_failed block); unfold process_names;
      cbn [processes set_stop set_completed write_rein_log];
      rewrite save_at_processes; by apply process_names_update_at.
Qed.

Lemma spawn_process_names now pid_ res block m :
  process_names (spawn_process now pid_ res block m).2 = process_names m.
Proof.
  unfold spawn_process. case_decide; [done|]. cbn zeta.
  destruct (bool_decide (Exists _ _)); [done|].
  destruct (blocked_by_pause _ _); [done|].
  destruct (_ && _); [done|].
  destruct (index_of_name _ _) as [i|]; [|done].
  cbn [snd]. rewrite execute_block_names. unfold process_names.
  cbn [processes write_rein_log]. rewrite save_at_processes.
  by apply process_names_update_at.
Qed.

(** The records named by a run stay the same. *)
Lemma run_loop_names fuel drain_fuel env timeout st reason st' :
  run_loop fuel drain_fuel env timeout st = Some (reason, st') ->
  process_names (mgr st') = process_names (mgr st).
Proof.
  intros Hrun.
  eapply (run_loop_preserves (fun m => process_names m = process_names (mgr st)));
    [..|exact Hrun|done]; try done.
  intros. by rewrite spawn_process_names.
Qed.

Lemma runs_bounded_frame (m m' : Manager) :
  processes m' = processes m -> run_counts m' = run_counts m ->
  block_configs m' = block_configs m ->
  runs_bounded m -> runs_bounded m'.
Proof.
  unfold runs_bounded, run_counts_bounded, records_bounded, target_max_runs.
  by intros -> -> ->.
Qed.

Lemma runs_bounded_update (i : nat) (f : Process -> Process) (m : Manager) :
  (forall p, name (f p) = name p /\ run_count (f p) = run_count p) ->
  runs_bounded m ->
  runs_bounded (set_processes (update_at i f (processes m)) m).
Proof.
  intros Hf [Hc Hr]. split; [exact Hc|].
  intros j u p. cbn [processes set_processes]. unfold update_at.
  destruct (decide (i = j)) as [->|Hne].
  - rewrite list_lookup_alter_eq.
    destruct (processes m !! j) as [[u0 p0]|] eqn:Hj; [|done].
    cbn. intros [= <- <-]. destruct (Hf p0) as [-> ->]. by eapply Hr.
  - rewrite list_lookup_alter_ne by done. apply Hr.
Qed.

Lemma runs_bounded_save now i m : runs_bounded m -> runs_bounded (save_at now i m).
Proof.
  destruct (save_at_flags now i m) as (_ & _ & _ & Hb & Hr).
  apply runs_bounded_frame; [apply save_at_processes|done|done].
Qed.

Lemma execute_block_bounded now res i block m :
  runs_bounded m -> runs_bounded (execute_block now res i block m).
Proof.
  intros H. destruct res as [result_data|]; cbn [execute_block].
  - unfold finish_done. cbn zeta.
    assert (Hdone : runs_bounded
              (set_completed ({[block_name block]} ∪ completed m)
                 (write_rein_log ("BLOCK COMPLETED | " +:+ block_name block)
                    (save_at now i
                       (set_processes
                          (update_at i (fun p => with_exit_code (Some 0)
                                          (with_status "done" (with_progress 100 p)))
                             (processes m)) m))))).
    { eapply runs_bounded_frame; [reflexivity..|].
      by apply runs_bounded_save, runs_bounded_update. }
    cbn [completed write_rein_log].
    rewrite save_at_completed. cbn [completed set_processes].
    destruct (Cond.evaluate_next_block block result_data) as [t|]; [|exact Hdone].
    case_decide; [exact Hdone|]. by apply trigger_next_bounded.
  - unfold finish_failed. cbn zeta.
    destruct (block_continue_if_failed block);
      (eapply runs_bounded_frame; [reflexivity..|]);
      apply runs_bounded_save, runs_bounded_update; try done;
      by eapply runs_bounded_frame.
Qed.

Lemma spawn_process_bounded now pid_ res block m :
  runs_bounded m -> runs_bounded (spawn_process now pid_ res block m).2.
Proof.
  intros H. unfold spawn_process. case_decide; [done|]. cbn zeta.
  destruct (bool_decide (Exists _ _)); [done|].
  destruct (blocked_by_pause _ _); [done|].
  destruct (_ && _); [done|].
  destruct (index_of_name _ _) as [i|]; [|done].
  cbn [snd]. apply execute_block_bounded.
  eapply runs_bounded_frame; [reflexivity..|].
  by apply runs_bounded_save, runs_bounded_update.
Qed.

(** X7. Along a whole run of the main loop -- with [next] transitions,
    skip policies, pauses, timeouts and failing workers -- counters and
    records that start within the [max_runs] of their blocks are still
    within them when the loop is left, and so after every call of
    [spawn_process]. *)
Theorem run_counts_bounded_along_run (m : Manager) (Hbounded : runs_bounded m) :
  (forall now pid_ res block, runs_bounded (spawn_process now pid_ res block m).2) /\
  (forall fuel drain_fuel env timeout pending_ k e reason st',
     run_loop fuel drain_fuel env timeout (mkLoop m pending_ k e) = Some (reason, st') ->
     runs_bounded (mgr st')).
Proof.
  split; [intros; by apply spawn_process_bounded|].
  intros fuel drain_fuel env timeout pending_ k e reason st' Hrun.
  eapply (run_loop_preserves runs_bounded); [..|exact Hrun|exact Hbounded].
  - intros. by eapply runs_bounded_frame.
  - intros. by eapply runs_bounded_frame.
  - intros. by eapply runs_bounded_frame.
  - intros. by apply spawn_process_bounded.
Qed.

Lemma run_counts_bounded_along_run_witness :
  runs_bounded sample_review_loop /\
  exists st',
    run_loop 3 3 sample_env_ok None (loop_start sample_review_loop)
      = Some (ExitAllDone, st') /\
    run_counts (mgr st') !! "review" = Some 1 /\
    runs_bounded (mgr st').
Proof.
  assert (H : runs_bounded sample_review_loop).
  { split.
    - intros t c Hc. cbn in Hc. by rewrite lookup_empty in Hc.
    - intros i u p Hi.
      destruct i as [|[|i]]; cbn in Hi; [| |done]; injection Hi as <- <-;
        vm_compute; discriminate. }
  split; [exact H|].
  destruct (run_counts_bounded_along_run _ H) as [_ Hloop].
  destruct (run_loop 3 3 sample_env_ok None (loop_start sample_review_loop))
    as [[r st']|] eqn:Hl.
  - exists st'.
    assert (Hr : r = ExitAllDone /\ run_counts (mgr st') !! "review" = Some 1).
    { vm_compute in Hl. injection Hl as <- <-. split; reflexivity. }
    destruct Hr as [-> Hc]. split; [done|]. split; [exact Hc|].
    by eapply Hloop.
  - vm_compute in Hl. discriminate.
Defined.

(** ** From the persisted state to the summary *)

Lemma run_loop_fuel_mono fuel fuel' drain_fuel env timeout st out :
  run_loop fuel drain_fuel env timeout st = Some out ->
  (fuel <= fuel')%nat ->
  run_loop fuel' drain_fuel env timeout st = Some out.
Proof.
  revert fuel' st. induction fuel as [|fuel IH]; intros fuel' st; [done|].
  intros Hrun Hle. destruct fuel' as [|fuel']; [lia|]. cbn [run_loop] in *.
  destruct (tick drain_fuel env timeout st) as [[st1|o]|]; [|done|done].
  apply IH; [done|lia].
Qed.

Lemma count_done_failed (ps : list (string * Process)) :
  let c st := length (filter (fun up : string * Process => status up.2 = st) ps) in
  (c "done" + c "failed" <= length ps)%nat /\
  (forallb (fun up : string * Process => is_done_or_failed (status up.2)) ps = true <->
   (c "done" + c "failed" = length ps)%nat).
Proof.
  induction ps as [|[u p] ps IH]; cbn zeta; [done|].
  cbn zeta in IH. destruct IH as [Hle Hiff].
  rewrite !filter_cons. cbn [forallb snd length]. unfold is_done_or_failed at 1.
  destruct (decide (status p = "done")) as [Hd|Hd];
    destruct (decide (status p = "failed")) as [Hf|Hf]; cbn [length].
  - rewrite Hd in Hf. discriminate.
  - rewrite (bool_decide_eq_true_2 _ Hd). cbn [orb andb]. rewrite Hiff. lia.
  - rewrite (bool_decide_eq_false_2 _ Hd), (bool_decide_eq_true_2 _ Hf).
    cbn [orb andb]. rewrite Hiff. lia.
  - rewrite (bool_decide_eq_false_2 _ Hd), (bool_decide_eq_false_2 _ Hf).
    cbn [orb andb]. split; [lia|]. split; [done|lia].
Qed.

Lemma initialize_ready (env : InitEnv) (m : Manager) :
  processes m = [] /\ completed m = ∅ /\ next_queue m = [] /\
    workflow_paused m = false ->
  NoDup (fresh_uid env <$> seq 0 (length (all_blocks m))) ->
  exists m', initialize_all_processes env m = Some m' /\
    all_blocks m' = all_blocks m /\ ready_to_run m'.
Proof.
  intros Hempty Huids.
  destruct (initialize_spec env m Hempty Huids)
    as (m' & needs & Hrun & Hneeds & Hb & Hq & Hw & Hu & Hn & Hstat & Hc & _).
  exists m'. split; [done|]. split; [done|].
  split; [by rewrite Hb|]. split; [|done].
  intros i u p Hi.
  assert (Hname : name p ∈ block_name <$> all_blocks m).
  { rewrite <- Hn. unfold process_names. apply list_elem_of_fmap.
    exists (u, p). split; [done|]. by eapply list_elem_of_lookup_2. }
  destruct (Hstat i u p Hi) as [[Hres Hst]|[Hres Hst]].
  - left. split; [by rewrite Hst|]. by apply Hc.
  - right. split; [done|]. rewrite Hc. tauto.
Qed.

(** X8. From load to summary. For a document with unique block names,
    dependencies that name blocks of the document and form no cycle, and
    no [next] or [skip_if_previous_failed], over any persisted state and
    with distinct uids, without timeout and commands, each worker
    finishing before the coordinator goes on: initialisation followed by
    [run_workflow] returns within one tick per block plus one, never by
    the timeout exit; the summary counts one record per block, completed
    plus failed never exceeds the total, and equals it when the loop was
    left through the exit check. *)
Theorem run_from_persisted_state (env : InitEnv) (lenv : LoopEnv) (drain_fuel : nat)
    (task_id : string) (m : Manager)
    (Hempty : processes m = [] /\ completed m = ∅ /\ next_queue m = [] /\
              workflow_paused m = false)
    (Huids : NoDup (fresh_uid env <$> seq 0 (length (all_blocks m))))
    (Hnames : NoDup (block_name <$> all_blocks m))
    (Hclosed : deps_closed (all_blocks m))
    (Hacyclic : acyclic_deps (all_blocks m))
    (Hplain : no_next_no_skip (all_blocks m)) :
  exists m0 reason files m',
    initialize_all_processes env m = Some m0 /\
    run_workflow (S (length (all_blocks m))) drain_fuel lenv None task_id m0
      = Some (reason, files, m') /\
    reason <> ExitTimeout /\
    summary_total files = Z.of_nat (length (all_blocks m)) /\
    summary_completed files + summary_failed files <= summary_total files /\
    (reason = ExitAllDone ->
       summary_completed files + summary_failed files = summary_total files).
Proof.
  destruct (initialize_ready env m Hempty Huids) as (m0 & Hinit & Hb & Hready).
  rewrite <- Hb in Hnames, Hclosed, Hacyclic, Hplain.
  pose proof (loop_start_inv m0 Hnames Hready) as Hinv.
  destruct (run_loop_terminates (all_blocks m0) Hnames Hplain Hclosed Hacyclic
              lenv drain_fuel (length (all_blocks m0)) (loop_start m0) Hinv)
    as (fuel & reason & st' & Hfuel & Hrun & Hnt & Hdone).
  { cbn. rewrite initial_pending_unique by done. by rewrite length_fmap. }
  apply (run_loop_fuel_mono _ (S (length (all_blocks m0)))) in Hrun; [|done].
  pose proof (run_loop_names _ _ _ _ _ _ _ Hrun) as Hpn.
  assert (Hlen : length (processes (mgr st')) = length (all_blocks m)).
  { destruct Hready as [Hn0 _]. cbn [mgr loop_start] in Hpn.
    rewrite Hn0 in Hpn. unfold process_names in Hpn.
    apply (f_equal length) in Hpn. rewrite !length_fmap in Hpn. by rewrite Hpn, Hb. }
  exists m0, reason, (finalize_run task_id (mgr st')).1, (finalize_run task_id (mgr st')).2.
  split; [done|]. split.
  { unfold run_workflow. rewrite <- Hb, Hrun.
    by destruct (finalize_run task_id (mgr st')). }
  split; [done|].
  cbn [finalize_run fst summary_total summary_completed summary_failed].
  unfold count_status.
  destruct (count_done_failed (processes (mgr st'))) as [Hle Hiff]. cbn zeta in Hle, Hiff.
  split; [by rewrite Hlen|]. split; [lia|].
  intros Hr. specialize (Hdone Hr). unfold exit_check in Hdone.
  apply andb_true_iff in Hdone as [Hdone _]. apply andb_true_iff in Hdone as [_ Hall].
  unfold all_completed in Hall. apply Hiff in Hall. lia.
Qed.

Lemma run_from_persisted_state_witness :
  exists m0 reason files m',
    initialize_all_processes sample_env sample_crashed = Some m0 /\
    run_workflow 4 0 sample_env_ok None "task-1" m0 = Some (reason, files, m') /\
    summary_total files = 3.
Proof.
  destruct (run_from_persisted_state sample_env sample_env_ok 0 "task-1" sample_crashed)
    as (m0 & reason & files & m' & Hinit & Hrun & _ & Htotal & _).
  - done.
  - assert (H : bool_decide (NoDup (fresh_uid sample_env <$>
                  seq 0 (length (all_blocks sample_crashed)))) = true)
      by (vm_compute; reflexivity).
    exact (bool_decide_eq_true_1 _ H).
  - assert (H : bool_decide (NoDup (block_name <$> all_blocks sample_crashed)) = true)
      by (vm_compute; reflexivity).
    exact (bool_decide_eq_true_1 _ H).
  - intros b d Hb Hd. cbn in Hb.
    repeat (apply elem_of_cons in Hb as [->|Hb]); [| | |by apply elem_of_nil in Hb];
      cbn in Hd |- *; set_solver.
  - exists (fun n => if decide (n = "a") then 0%nat
                     else if decide (n = "b") then 1%nat else 2%nat).
    intros b d Hb Hd. cbn in Hb.
    repeat (apply elem_of_cons in Hb as [->|Hb]); [| | |by apply elem_of_nil in Hb];
      cbn in Hd; [by apply elem_of_nil in Hd| |];
      apply list_elem_of_singleton in Hd as ->; vm_compute; lia.
  - intros b Hb. cbn in Hb.
    repeat (apply elem_of_cons in Hb as [->|Hb]); [| | |by apply elem_of_nil in Hb]; done.
  - exists m0, reason, files, m'. done.
Defined.

(** X9. The counts of the summary and the exit check: completed plus
    failed never exceeds the number of records, and [all_completed] holds
    exactly when the two add up to it. *)
Theorem all_completed_iff_counts (m : Manager) :
  count_status "done" m + count_status "failed" m <= Z.of_nat (length (processes m)) /\
  (all_completed m = true <->
   count_status "done" m + count_status "failed" m = Z.of_nat (length (processes m))).
Proof.
  unfold count_status, all_completed.
  destruct (count_done_failed (processes m)) as [Hle Hiff]. cbn zeta in Hle, Hiff.
  split; [lia|]. rewrite Hiff. lia.
Qed.

(** ** A paused workflow, a stopped workflow *)

Lemma spawn_ready_paused env timeout rs st :
  workflow_paused (mgr st) = true ->
  let st' := spawn_ready env timeout rs st in
  pending st' = pending st /\ executions st' = executions st /\
  loop_count st' = loop_count st /\
  processes (mgr st') = processes (mgr st) /\
  completed (mgr st') = completed (mgr st) /\
  state (mgr st') = state (mgr st) /\
  next_queue (mgr st') = next_queue (mgr st) /\
  workflow_paused (mgr st') = true /\
  rein_log (mgr st') =
    rein_log (mgr st) ++ ((fun n => "WORKFLOW PAUSED | skipping spawn of " +:+ n) <$> rs).
Proof.
  revert st. induction rs as [|n rs IH]; intros st Hp; cbn zeta.
  - cbn. by rewrite app_nil_r.
  - cbn [spawn_ready]. rewrite Hp.
    set (st1 := mkLoop _ (pending st) (loop_count st) (executions st)).
    destruct (IH st1 Hp) as (H1 & H2 & H3 & H4 & H5 & H6 & H7 & H8 & H9).
    rewrite H1, H2, H3, H4, H5, H6, H7, H8, H9. cbn.
    by rewrite <- app_assoc.
Qed.

Lemma kill_remaining_frame reason m :
  let m' := kill_remaining_processes reason m in
  processes m' = processes m /\ completed m' = completed m /\
  state m' = state m /\ next_queue m' = next_queue m /\
  workflow_paused m' = workflow_paused m.
Proof.
  apply (kill_remaining_preserves
           (fun m' => processes m' = processes m /\ completed m' = completed m /\
                      state m' = state m /\ next_queue m' = next_queue m /\
                      workflow_paused m' = workflow_paused m)); done.
Qed.

(** X10. While the workflow is paused a tick starts nothing: it always
    returns, and whichever way it ends, [pending], the records, the
    completed set, the state store, the next-queue and the number of
    executions are what they were; only log lines are written. *)
Theorem paused_workflow_starts_nothing (drain_fuel : nat) (env : LoopEnv)
    (timeout : option Q) (st : LoopState)
    (Hpaused : workflow_paused (mgr st) = true) :
  exists out, tick drain_fuel env timeout st = Some out /\
    let st' := match out with inl s => s | inr (_, s) => s end in
    pending st' = pending st /\ executions st' = executions st /\
    processes (mgr st') = processes (mgr st) /\
    completed (mgr st') = completed (mgr st) /\
    state (mgr st') = state (mgr st) /\
    next_queue (mgr st') = next_queue (mgr st).
Proof.
  unfold tick. destruct (negb (loop_condition st)); [by eexists|].
  cbn [mgr pending loop_count executions].
  destruct (stop_workflow (mgr st)).
  { eexists. split; [reflexivity|]. cbn [mgr pending executions].
    destruct (kill_remaining_frame
                (default "workflow stop requested" (stop_reason (mgr st)))
                (write_rein_log ("WORKFLOW STOPPING | reason="
                                   +:+ default "None" (stop_reason (mgr st))) (mgr st)))
      as (-> & -> & -> & -> & _). done. }
  destruct (timeout_exceeded timeout env (S (loop_count st))).
  { eexists. split; [reflexivity|]. cbn [mgr pending executions].
    destruct (kill_remaining_frame "timeout exceeded"
                (write_rein_log "TIMEOUT EXCEEDED" (mgr st)))
      as (-> & -> & -> & -> & _). done. }
  set (st1 := mkLoop (mgr st) (pending st) (S (loop_count st)) (executions st)).
  destruct (spawn_ready_paused env timeout (ready_names st1) st1 Hpaused)
    as (H1 & H2 & _ & H4 & H5 & H6 & H7 & H8 & _).
  set (st2 := spawn_ready env timeout (ready_names st1) st1) in *.
  assert (Hdrain : drain_next_queue drain_fuel env timeout st2 = Some st2).
  { destruct drain_fuel; cbn [drain_next_queue];
      destruct (next_queue (mgr st2)) as [|[n d] q]; try done; by rewrite H8. }
  rewrite Hdrain.
  destruct (exit_check st2); (eexists; split; [reflexivity|]); cbn zeta; done.
Qed.

Lemma paused_workflow_starts_nothing_witness :
  let st := loop_start (mkManager sample_chain
                          (processes (sample_started sample_chain)) ∅ [] ∅ ∅
                          true false None ∅ ∅ []) in
  exists st', tick 0 sample_env_ok None st = Some (inl st') /\
    pending st' = pending st /\ processes (mgr st') = processes (mgr st).
Proof.
  cbn zeta.
  destruct (paused_workflow_starts_nothing 0 sample_env_ok None
              (loop_start (mkManager sample_chain
                             (processes (sample_started sample_chain)) ∅ [] ∅ ∅
                             true false None ∅ ∅ []))
              eq_refl) as (out & Htick & Hp & _ & Hps & _).
  destruct out as [st'|[r st']].
  - exists st'. done.
  - vm_compute in Htick. discriminate.
Defined.

(** X11. Leaving the loop because [stop_workflow] is set or the timeout
    is exceeded changes no record: [_kill_remaining_processes] only sends
    signals and writes log lines, so a record that was running or waiting
    keeps that status, nothing is added to the completed set and nothing
    is saved. *)
Theorem stop_and_timeout_leave_records (drain_fuel : nat) (env : LoopEnv)
    (timeout : option Q) (st st' : LoopState) (reason : ExitReason)
    (Htick : tick drain_fuel env timeout st = Some (inr (reason, st')))
    (Hreason : reason <> ExitAllDone) :
  pending st' = pending st /\ executions st' = executions st /\
  processes (mgr st') = processes (mgr st) /\
  completed (mgr st') = completed (mgr st) /\
  state (mgr st') = state (mgr st) /\
  next_queue (mgr st') = next_queue (mgr st) /\
  (reason = ExitStopped <-> loop_condition st = true /\ stop_workflow (mgr st) = true) /\
  (reason = ExitTimeout ->
   timeout_exceeded timeout env (S (loop_count st)) = true).
Proof.
  revert Htick. unfold tick. destruct (loop_condition st); cbn [negb].
  2:{ intros [= <- <-]. repeat (split; [done|]). split; [|done].
      split; [done|]. by intros [? _]. }
  cbn [mgr pending loop_count executions].
  destruct (stop_workflow (mgr st)).
  { intros [= <- <-]. cbn [mgr pending executions].
    destruct (kill_remaining_frame
                (default "workflow stop requested" (stop_reason (mgr st)))
                (write_rein_log ("WORKFLOW STOPPING | reason="
                                   +:+ default "None" (stop_reason (mgr st))) (mgr st)))
      as (-> & -> & -> & -> & _). done. }
  destruct (timeout_exceeded timeout env (S (loop_count st))).
  { intros [= <- <-]. cbn [mgr pending executions].
    destruct (kill_remaining_frame "timeout exceeded"
                (write_rein_log "TIMEOUT EXCEEDED" (mgr st)))
      as (-> & -> & -> & -> & _).
    repeat (split; [done|]). split; [|done]. split; [done|]. by intros [_ ?]. }
  destruct (drain_next_queue _ _ _ _) as [st3|]; [|done].
  destruct (exit_check st3); [|done]. intros [= <- <-]. done.
Qed.

Lemma stop_and_timeout_leave_records_witness :
  exists st',
    tick 5 sample_env_ok (Some 30%Q) (loop_start (sample_started sample_chain))
      = Some (inr (ExitTimeout, st')) /\
    processes (mgr st') = processes (sample_started sample_chain).
Proof.
  assert (Ht : exists st',
            tick 5 sample_env_ok (Some 30%Q) (loop_start (sample_started sample_chain))
            = Some (inr (ExitTimeout, st'))).
  { eexists. vm_compute. reflexivity. }
  destruct Ht as [st' Ht]. exists st'. split; [exact Ht|].
  destruct (stop_and_timeout_leave_records _ _ _ _ _ _ Ht ltac:(done))
    as (_ & _ & Hps & _).
  exact Hps.
Defined.

(** ** Cancelling one block *)

(** X12. [cancel_single] on a process that the identifier designates
    always succeeds, whatever the status was (also done or failed): the
    record and its persisted row get status cancelled, no other record
    changes, the completed set is left alone, the log line reports
    [previous_status=cancelled] (the status is read after the
    assignment), and [all_completed] is false afterwards. *)
Theorem cancel_single_contract (now : Q) (identifier : string) (m : Manager)
    (i : nat) (u : string) (p : Process)
    (Hfind : find_target identifier (processes m) = Some i)
    (Hentry : processes m !! i = Some (u, p)) :
  let r := cancel_single now identifier m in
  r.1 = true /\
  processes r.2 !! i = Some (u, with_status "cancelled" p) /\
  (forall j, j <> i -> processes r.2 !! j = processes m !! j) /\
  (exists row, state r.2 !! name p = Some row /\
     ReinState.r_status row = "cancelled" /\
     ReinState.r_exit_code row = exit_code p) /\
  completed r.2 = completed m /\
  last (rein_log r.2) =
    Some ("CANCEL_SINGLE | " +:+ name p +:+ "[" +:+ u +:+ "] | previous_status=cancelled") /\
  all_completed r.2 = false.
Proof.
  cbn zeta. unfold cancel_single. rewrite Hfind, Hentry. cbn [fst snd].
  remember (if _ && _ then _ else m) as m0 eqn:Hm0.
  assert (Hm0' : processes m0 = processes m /\ completed m0 = completed m).
  { rewrite Hm0. by destruct (_ && _). }
  clear Hm0. destruct Hm0' as [Hps Hc].
  cbn [processes completed state rein_log write_rein_log db_save set_state set_processes].
  rewrite Hps, Hc.
  split; [done|]. split; [by apply update_at_lookup|].
  split; [intros j Hj; by apply update_at_lookup_ne|].
  split.
  { unfold ReinState.save_process. cbn [name with_status mutate].
    rewrite lookup_insert_eq. by eexists. }
  split; [done|]. split; [by rewrite last_snoc|].
  unfold all_completed. cbn [processes write_rein_log db_save set_state set_processes].
  apply not_true_is_false. rewrite forallb_forall. intros Hall.
  specialize (Hall (u, with_status "cancelled" p)).
  assert (Hin : In (u, with_status "cancelled" p)
                  (update_at i (with_status "cancelled") (processes m))).
  { apply list_elem_of_In. eapply list_elem_of_lookup_2. by apply update_at_lookup. }
  specialize (Hall Hin). cbn in Hall. discriminate.
Qed.

Lemma cancel_single_contract_witness :
  let m := sample_manager [sample_block "a" []] [("u0", sample_process "u0" "a" "done")] in
  (cancel_single 0 "a" m).1 = true /\
  all_completed m = true /\
  all_completed (cancel_single 0 "a" m).2 = false.
Proof.
  cbn zeta.
  destruct (cancel_single_contract 0
              "a" (sample_manager [sample_block "a" []]
                     [("u0", sample_process "u0" "a" "done")])
              0%nat "u0" (sample_process "u0" "a" "done") eq_refl eq_refl)
    as (H1 & _ & _ & _ & _ & _ & H7).
  split; [exact H1|]. split; [reflexivity|exact H7].
Defined.

(** ** A permitted [next] transition *)

(** X13. A [next] transition to a target whose counter is below its
    [max_runs] re-opens the target: its name leaves the completed set,
    the entry goes to the back of the next-queue, the counter goes up by
    one, and the first record of that name is reset to waiting with
    progress 0 and the new run count -- its exit code is kept -- and
    saved; no other record changes. *)
Theorem next_transition_reopens_target (now : Q) (block target : string) (data : json)
    (m : Manager) (i : nat) (u : string) (p : Process)
    (Hruns : current_runs m target < target_max_runs m target)
    (Hfound : index_of_name target (processes m) = Some i)
    (Hentry : processes m !! i = Some (u, p)) :
  let m' := trigger_next now block target data m in
  completed m' = completed m ∖ {[target]} /\
  next_queue m' = next_queue m ++ [(target, data)] /\
  run_counts m' !! target = Some (current_runs m target + 1) /\
  (exists p', processes m' !! i = Some (u, p') /\
     status p' = "waiting" /\ progress p' = 0 /\
     run_count p' = current_runs m target + 1 /\ exit_code p' = exit_code p /\
     name p' = target) /\
  (forall j, j <> i -> processes m' !! j = processes m !! j) /\
  (exists row, state m' !! target = Some row /\
     ReinState.r_status row = "waiting" /\ ReinState.r_progress row = 0 /\
     ReinState.r_exit_code row = exit_code p).
Proof.
  cbn zeta.
  assert (Hname : name p = target).
  { apply index_of_name_Some in Hfound as (u0 & p0 & Hi & Hn). congruence. }
  unfold trigger_next. rewrite decide_False by lia. cbn zeta.
  cbn [completed next_queue run_counts processes state write_rein_log set_next_queue].
  unfold reset_target. cbn [processes set_completed set_run_counts]. rewrite Hfound.
  match goal with |- context [save_at now i ?x] => set (m2 := x) end.
  rewrite save_at_completed, save_at_next_queue, save_at_processes.
  destruct (save_at_flags now i m2) as (_ & _ & _ & _ & ->).
  assert (Hm2 : processes m2 !! i =
                Some (u, with_run_count (current_runs m target + 1)
                           (with_progress 0 (with_status "waiting" p)))).
  { unfold m2. cbn [processes set_processes].
    exact (update_at_lookup i _ _ u p Hentry). }
  unfold save_at. rewrite Hm2.
  unfold m2.
  cbn [completed next_queue run_counts processes state db_save set_state
       set_processes set_completed set_run_counts].
  split; [done|]. split; [done|]. split; [by rewrite lookup_insert_eq|].
  split.
  { eexists. split; [reflexivity|]. done. }
  split; [intros j Hj; by apply update_at_lookup_ne|].
  unfold ReinState.save_process.
  cbn [name with_run_count with_progress with_status mutate]. rewrite Hname.
  rewrite lookup_insert_eq. by eexists.
Qed.

Lemma next_transition_reopens_target_witness :
  let m' := trigger_next 0 "revise" "review" JNull
              (set_completed {["review"; "revise"]} sample_review_loop) in
  completed m' = {["review"; "revise"]} ∖ {["review"]} /\
  next_queue m' = [("review", JNull)] /\
  run_counts m' !! "review" = Some 1.
Proof.
  cbn zeta.
  destruct (next_transition_reopens_target 0 "revise" "review" JNull
              (set_completed {["review"; "revise"]} sample_review_loop)
              0%nat "u0" (sample_process "u0" "review" "done"))
    as (H1 & H2 & H3 & _).
  - vm_compute. reflexivity.
  - reflexivity.
  - reflexivity.
  - split; [exact H1|]. split; [exact H2|exact H3].
Defined.


(** ** Choosing the next block *)

Section NextFacts.

Import Cond.

Lemma first_match_passes_over pre rest data :
  Forall (passes_over data) pre ->
  first_match (pre ++ rest) data = first_match rest data.
Proof.
  induction 1 as [|c pre [Helse Hif] _ IH]; [done|].
  cbn [app first_match]. rewrite Helse.
  destruct (cond_if c) as [x|]; [|done]. by rewrite (Hif x eq_refl).
Qed.

End NextFacts.

(** X14. How [_evaluate_next_block] reads a conditional list: the entries
    are tried in order; entries that are an [if] whose condition does not
    hold are passed over; the first entry that has the key [else] decides
    (its [goto], or else the value of [else]), and the first [if] whose
    condition holds decides with its [goto] -- with no target at all when
    it has no [goto]; whatever follows the deciding entry is never
    looked at. *)
Theorem next_list_first_decides (block : Block) (pre post post' : list Condition)
    (c : Condition) (data : json)
    (Hnext : b_next block = Some (NextList (pre ++ c :: post)))
    (Hpre : Forall (passes_over data) pre) :
  (forall e, cond_else c = Some e ->
     Cond.evaluate_next_block block data = Some (Cond.else_target c e)) /\
  (forall x, cond_else c = None -> cond_if c = Some x ->
     Cond.evaluate_condition x data = true ->
     Cond.evaluate_next_block block data = cond_goto c) /\
  (passes_over data c ->
     Cond.evaluate_next_block block data = Cond.first_match post data) /\
  (~ passes_over data c ->
     Cond.first_match (pre ++ c :: post) data = Cond.first_match (pre ++ c :: post') data).
Proof.
  assert (Heval : Cond.evaluate_next_block block data
                  = Cond.first_match (pre ++ c :: post) data).
  { unfold Cond.evaluate_next_block. rewrite Hnext. by destruct pre. }
  rewrite Heval, !first_match_passes_over by done.
  split; [|split; [|split]].
  - intros e He. cbn. by rewrite He.
  - intros x He Hif Hx. cbn. by rewrite He, Hif, Hx.
  - intros [He Hif]. cbn. rewrite He.
    destruct (cond_if c) as [x|]; [|done]. by rewrite (Hif x eq_refl).
  - intros Hno. cbn. destruct (cond_else c) as [e|] eqn:He; [done|].
    destruct (cond_if c) as [x|] eqn:Hif.
    + destruct (Cond.evaluate_condition x data) eqn:Hx; [done|].
      destruct Hno. split; [done|]. intros y Hy. rewrite Hif in Hy.
      by injection Hy as <-.
    + destruct Hno. split; [done|]. intros y Hy. by rewrite Hif in Hy.
Qed.

Lemma next_list_first_decides_witness :
  let approve := mkCondition (Some "{{ result.approved }}") None (Some "publish") in
  let fallback := mkCondition None (Some ElseTrue) (Some "revision") in
  let block := mkBlock (Some "review") None None None None None
                 (Some (NextList [approve; fallback])) None None None in
  Cond.evaluate_next_block block (sample_result [("approved", JBool false)])
    = Some "revision" /\
  Cond.evaluate_next_block block (sample_result [("approved", JBool true)])
    = Some "publish".
Proof.
  cbn zeta.
  set (approve := mkCondition (Some "{{ result.approved }}") None (Some "publish")).
  set (fallback := mkCondition None (Some ElseTrue) (Some "revision")).
  set (block := mkBlock (Some "review") None None None None None
                  (Some (NextList [approve; fallback])) None None None).
  split.
  - assert (Hpre : Forall (passes_over (sample_result [("approved", JBool false)]))
                     [approve]).
    { apply Forall_cons. split; [|done]. split; [done|].
      intros x [= <-]. vm_compute. reflexivity. }
    destruct (next_list_first_decides block [approve] [] [] fallback
                (sample_result [("approved", JBool false)]) eq_refl Hpre)
      as (Helse & _).
    exact (Helse ElseTrue eq_refl).
  - destruct (next_list_first_decides block [] [fallback] [] approve
                (sample_result [("approved", JBool true)]) eq_refl
                ltac:(constructor))
      as (_ & Hif & _).
    apply (Hif "{{ result.approved }}"); [done|done|]. vm_compute. reflexivity.
Defined.

(** ** Paths into the result data *)

Section PathFacts.

Import PyStr Cond.

Lemma split_on_nonempty sep s : split_on sep s <> [].
Proof.
  destruct s as [|c s]; cbn; [done|].
  destruct (eqc c sep); [done|]. by destruct (split_on sep s).
Qed.

Lemma split_on_app sep a b :
  split_on sep (a ++ sep :: b) = split_on sep a ++ split_on sep b.
Proof.
  induction a as [|c a IH]; cbn [app split_on].
  - unfold eqc. by rewrite Ascii.eqb_refl.
  - destruct (eqc c sep); [by rewrite IH|].
    rewrite IH. pose proof (split_on_nonempty sep a).
    by destruct (split_on sep a).
Qed.

Lemma of_string_app s t : of_string (s +:+ t) = of_string s ++ of_string t.
Proof.
  unfold of_string. induction s as [|c s IH]; [done|].
  change (list_ascii_of_string (String c s +:+ t))
    with (c :: list_ascii_of_string (s +:+ t)).
  by rewrite IH.
Qed.

Lemma resolve_parts_null parts : parts <> [] -> resolve_parts parts JNull = JNull.
Proof. by destruct parts. Qed.

Lemma resolve_parts_app ps qs data :
  qs <> [] ->
  resolve_parts (ps ++ qs) data = resolve_parts qs (resolve_parts ps data).
Proof.
  intros Hqs. revert data. induction ps as [|p ps IH]; intros data; [done|].
  cbn [app resolve_parts].
  destruct data as [| | | | |fields]; try by rewrite resolve_parts_null.
  destruct (dict_get p fields); [apply IH|by rewrite resolve_parts_null].
Qed.

End PathFacts.

(** X15. [_resolve_path] composes along the dots: resolving [p.q] is
    resolving [q] in what [p] resolves to, whatever the data (a missing
    key, or a value that is not a dict, gives null at once and for
    all). *)
Theorem resolve_path_composes (p q : string) (data : json) :
  Cond.resolve_path (p +:+ "." +:+ q) data
  = Cond.resolve_path q (Cond.resolve_path p data).
Proof.
  unfold Cond.resolve_path.
  rewrite of_string_app. change (PyStr.of_string ("." +:+ q))
    with ("."%char :: PyStr.of_string q).
  rewrite split_on_app, fmap_app. apply resolve_parts_app.
  intros Hnil. apply fmap_nil_inv in Hnil. by apply split_on_nonempty in Hnil.
Qed.

(** ** The guards of [spawn_process] *)

(** X16. [spawn_process] starts a worker only for a block that is not in
    the completed set, all of whose dependencies are in it, none of them
    paused with [blocking_pause], and that has a record; when it returns
    [None] or the marker [skipped], no record, no persisted row and no
    member of the completed set has changed. *)
Theorem spawn_process_guards (now : Q) (pid_ : Z) (res : WorkerResult)
    (block : Block) (m : Manager) :
  let r := spawn_process now pid_ res block m in
  (r.1 = SpawnStarted ->
     (block_name block ∉ completed m) /\
     Forall (fun dep => dep ∈ completed m) (block_deps block) /\
     blocked_by_pause (block_deps block) m = false /\
     is_Some (index_of_name (block_name block) (processes m))) /\
  (r.1 <> SpawnStarted ->
     processes r.2 = processes m /\ state r.2 = state m /\
     completed r.2 = completed m /\ next_queue r.2 = next_queue m) /\
  (r.1 = SpawnSkipped <->
     block_name block ∈ completed m \/
     (Forall (fun dep => dep ∈ completed m) (block_deps block) /\
      blocked_by_pause (block_deps block) m = false /\
      previous_failed m <> [] /\ block_skip_if_previous_failed block = true)).
Proof.
  cbn zeta. unfold spawn_process.
  destruct (decide (block_name block ∈ completed m)) as [Hc|Hc].
  { cbn. split; [done|]. split; [done|]. split; auto. }
  cbn zeta.
  destruct (bool_decide (Exists (fun dep => dep ∉ completed m) (block_deps block)))
    eqn:Hdeps.
  { apply bool_decide_eq_true in Hdeps. cbn. split; [done|]. split; [done|].
    split; [done|]. intros [?|[Hall _]]; [done|].
    apply Exists_exists in Hdeps as (d & Hd & Hnc).
    rewrite Forall_forall in Hall. destruct (Hnc (Hall d Hd)). }
  apply bool_decide_eq_false in Hdeps.
  assert (Hall : Forall (fun dep => dep ∈ completed m) (block_deps block)).
  { apply Forall_forall. intros d Hd.
    destruct (decide (d ∈ completed m)) as [|Hn]; [done|].
    destruct Hdeps. apply Exists_exists. by exists d. }
  destruct (blocked_by_pause (block_deps block) m) eqn:Hpause.
  { cbn. split; [done|]. split; [done|]. split; [done|].
    intros [?|(_ & ? & _)]; done. }
  destruct (bool_decide (previous_failed m <> [])) eqn:Hpf;
    destruct (block_skip_if_previous_failed block) eqn:Hskip; cbn [andb].
  - apply bool_decide_eq_true in Hpf. cbn. split; [done|]. split; [done|].
    split; [|done]. intros _. right. done.
  - destruct (index_of_name _ _) as [i|]; cbn [fst snd].
    + split; [intros _; split; [done|]; split; [done|]; split; [done|by eexists]|].
      split; [done|]. split; [done|]. intros [?|(_ & _ & _ & ?)]; done.
    + split; [done|]. split; [done|]. split; [done|].
      intros [?|(_ & _ & _ & ?)]; done.
  - apply bool_decide_eq_false in Hpf.
    destruct (index_of_name _ _) as [i|]; cbn [fst snd].
    + split; [intros _; split; [done|]; split; [done|]; split; [done|by eexists]|].
      split; [done|]. split; [done|]. intros [?|(_ & _ & ? & _)]; done.
    + split; [done|]. split; [done|]. split; [done|].
      intros [?|(_ & _ & ? & _)]; done.
  - apply bool_decide_eq_false in Hpf.
    destruct (index_of_name _ _) as [i|]; cbn [fst snd].
    + split; [intros _; split; [done|]; split; [done|]; split; [done|by eexists]|].
      split; [done|]. split; [done|]. intros [?|(_ & _ & ? & _)]; done.
    + split; [done|]. split; [done|]. split; [done|].
      intros [?|(_ & _ & ? & _)]; done.
Qed.


(** ** Listing and updating the state store *)

Section StoreFacts.

Import ReinState ReinStore.

Lemma ascii_compare_cases (a b : ascii) :
  match Ascii.compare a b with
  | Eq => a = b
  | Lt => (N_of_ascii a < N_of_ascii b)%N
  | Gt => (N_of_ascii b < N_of_ascii a)%N
  end.
Proof.
  unfold Ascii.compare. destruct (N.compare_spec (N_of_ascii a) (N_of_ascii b)) as [H|H|H];
    [|done|done].
  rewrite <- (ascii_N_embedding a), <- (ascii_N_embedding b). by rewrite H.
Qed.

(** The order on strings is transitive. *)
Lemma string_leb_trans (a b c : string) :
  String.leb a b = true -> String.leb b c = true -> String.leb a c = true.
Proof.
  unfold String.leb.
  assert (H : String.compare a b <> Gt -> String.compare b c <> Gt ->
              String.compare a c <> Gt).
  { revert b c. induction a as [|x a IH]; intros [|y b] [|z c]; cbn; try done.
    pose proof (ascii_compare_cases x y) as Hxy.
    pose proof (ascii_compare_cases y z) as Hyz.
    pose proof (ascii_compare_cases x z) as Hxz.
    destruct (Ascii.compare x y) eqn:Exy; destruct (Ascii.compare y z) eqn:Eyz;
      try done; subst; rewrite ?Exy, ?Eyz; try done.
    - apply IH.
    - intros _ _. destruct (Ascii.compare x z); [subst; lia|done|lia]. }
  destruct (String.compare a b) eqn:E1; destruct (String.compare b c) eqn:E2;
    try done; intros _ _;
    (destruct (String.compare a c) eqn:E3; [done|done|];
     exfalso; apply H; congruence).
Qed.

Lemma row_le_total : Total row_le.
Proof.
  intros [n1 r1] [n2 r2]. unfold row_le. cbn.
  destruct (Z.lt_trichotomy (r_phase r1) (r_phase r2)) as [?|[?|?]]; [auto| |auto].
  destruct (String.leb_total n1 n2); [left|right]; right; split; done.
Qed.

Lemma row_le_trans : Transitive row_le.
Proof.
  intros [n1 r1] [n2 r2] [n3 r3]. unfold row_le. cbn.
  intros [?|[? ?]] [?|[? ?]]; [left; lia|left; lia|left; lia|].
  right. split; [lia|]. by eapply string_leb_trans.
Qed.

Lemma elem_of_get_all_processes (db : Db) (p : Process) :
  p ∈ get_all_processes db <-> get_process (name p) db = Some p.
Proof.
  unfold get_all_processes, get_process. rewrite list_elem_of_fmap. split.
  - intros ([n r] & -> & Hin). rewrite merge_sort_Permutation in Hin.
    apply elem_of_map_to_list in Hin. cbn. by rewrite Hin.
  - intros Hget. destruct (db !! name p) as [r|] eqn:Hr; [|done].
    cbn in Hget. injection Hget as Hp. exists (name p, r). split; [done|].
    rewrite merge_sort_Permutation. by apply elem_of_map_to_list.
Qed.

Lemma get_all_processes_names (db : Db) :
  name <$> get_all_processes db = (merge_sort row_le (map_to_list db)).*1.
Proof.
  unfold get_all_processes. rewrite <- list_fmap_compose.
  apply list_fmap_ext. by intros _ [n r] _.
Qed.

End StoreFacts.

(** X17. [get_all_processes] lists exactly the stored records, each as
    [get_process] returns it and each once (names are unique), ordered by
    phase and then by name; after [save_process] the list holds the saved
    record with its eleven persisted columns. *)
Theorem get_all_processes_lists_store (now : Q) (p : Process) (db : ReinState.Db) :
  let ps := ReinStore.get_all_processes db in
  (forall q, q ∈ ps <-> ReinState.get_process (name q) db = Some q) /\
  NoDup (name <$> ps) /\
  length ps = size db /\
  StronglySorted phase_name_le ps /\
  Process_from_row (pid p) (name p) (status p) (start_time p) (command p)
    (exit_code p) (cpu_percent p) (memory_mb p) (progress p) (phase p)
    (blocking_pause p)
    ∈ ReinStore.get_all_processes (ReinState.save_process now p db).
Proof.
  cbn zeta. split; [apply elem_of_get_all_processes|]. split; [|split; [|split]].
  - rewrite get_all_processes_names.
    rewrite (merge_sort_Permutation ReinStore.row_le (map_to_list db)).
    apply NoDup_fst_map_to_list.
  - unfold ReinStore.get_all_processes.
    rewrite length_fmap, (merge_sort_Permutation ReinStore.row_le (map_to_list db)).
    apply length_map_to_list.
  - unfold ReinStore.get_all_processes.
    apply (StronglySorted_fmap _ ReinStore.row_le).
    + intros [n1 r1] [n2 r2] H. exact H.
    + apply StronglySorted_merge_sort; [apply row_le_trans|apply row_le_total].
  - apply elem_of_get_all_processes. cbn [name Process_from_row].
    apply get_after_save_row.
Qed.

(** X18. [update_status] changes the row of the given name and no other:
    the record read back has the new status, the new exit code when one
    is given and the stored one otherwise; for a name without a row
    nothing is created and the store stays as it is. *)
Theorem update_status_touches_one_row (now : Q) (n n' st : string) (ec : option Z)
    (db : ReinState.Db) :
  let db' := ReinStore.update_status now n st ec db in
  dom db' = dom db /\
  (n' <> n -> ReinState.get_process n' db' = ReinState.get_process n' db) /\
  ReinState.get_process n db' =
    (fun q => with_exit_code (match ec with Some e => Some e | None => exit_code q end)
                (with_status st q)) <$> ReinState.get_process n db /\
  (db !! n = None -> db' = db).
Proof.
  cbn zeta. unfold ReinStore.update_status, ReinState.get_process.
  split; [apply dom_alter_L|]. split; [|split].
  - intros Hne. by rewrite lookup_alter_ne.
  - rewrite lookup_alter_eq. destruct (db !! n) as [r|]; [|done]. cbn.
    by destruct ec.
  - intros Hnone. apply map_eq. intros k.
    destruct (decide (k = n)) as [->|Hne].
    + rewrite lookup_alter_eq. by rewrite Hnone.
    + by rewrite lookup_alter_ne.
Qed.

(** ** Loading the persisted state on resume *)

Lemma load_db_record_skip (m : Manager) (db_proc : Process) :
  name db_proc ∉ fst <$> processes m -> load_db_record m db_proc = m.
Proof.
  intros Hno. unfold load_db_record.
  assert (Hidx : index_of_uid (name db_proc) (processes m) = None); [|by rewrite Hidx].
  revert Hno. generalize (processes m). intros ps.
  induction ps as [|[u p] ps IH]; [done|]. cbn. intros Hno.
  rewrite decide_False by set_solver. rewrite IH by set_solver. done.
Qed.

(** X19. [_load_state_from_db] looks each persisted record up under its
    name in a dict that is keyed by uid. So when no uid equals the name
    of a persisted record, no record, no member of the completed set and
    no row changes: the call only writes the STATE LOADED line, with the
    counts as they were. *)
Theorem load_state_keyed_by_uid (m : Manager)
    (Hkeys : forall n, n ∈ dom (state m) -> n ∉ fst <$> processes m) :
  load_state_from_db m = write_rein_log (state_loaded_msg m) m.
Proof.
  unfold load_state_from_db.
  assert (Hfold : forall l, (forall q, q ∈ l -> q ∈ ReinStore.get_all_processes (state m)) ->
                    foldl load_db_record m l = m).
  { induction l as [|q l IH] using rev_ind; [done|]. intros Hl.
    rewrite foldl_app. cbn [foldl]. rewrite IH by (intros; apply Hl; set_solver).
    apply load_db_record_skip, Hkeys.
    specialize (Hl q ltac:(set_solver)).
    apply elem_of_get_all_processes in Hl. unfold ReinState.get_process in Hl.
    apply elem_of_dom. destruct (state m !! name q); [by eexists|done]. }
  by rewrite Hfold.
Qed.

Lemma load_state_keyed_by_uid_witness :
  let m := default sample_crashed (initialize_all_processes sample_env sample_crashed) in
  state m !! "a" = Some (sample_row "done") /\
  load_state_from_db m
  = write_rein_log "STATE LOADED | 1/3 processes restored from DB" m.
Proof.
  cbn zeta. split; [vm_compute; reflexivity|].
  rewrite load_state_keyed_by_uid.
  - assert (Hmsg : state_loaded_msg (default sample_crashed
                     (initialize_all_processes sample_env sample_crashed))
                   = "STATE LOADED | 1/3 processes restored from DB")
      by (vm_compute; reflexivity).
    by rewrite Hmsg.
  - intros n Hn.
    assert (Hdom : dom (state (default sample_crashed
                     (initialize_all_processes sample_env sample_crashed)))
                   = {["a"; "b"; "c"]}) by (vm_compute; reflexivity).
    rewrite Hdom in Hn.
    assert (Hu : fst <$> processes (default sample_crashed
                     (initialize_all_processes sample_env sample_crashed))
                 = ["uid0"; "uid1"; "uid2"]) by (vm_compute; reflexivity).
    rewrite Hu. set_unfold in Hn. intros Hin. set_unfold in Hin.
    destruct_or! Hn; subst n; destruct_or! Hin; discriminate.
Defined.


(** ** Declared inputs *)

Section InputFacts.

Variable env : InputEnv.

Implicit Types (spec : list (string * InputField)) (ti : list (string * json)).

Lemma dict_get_set {V} (d : list (string * V)) k k' (v : V) :
  dict_get k' (dict_set k v d) = if decide (k' = k) then Some v else dict_get k' d.
Proof.
  induction d as [|[k0 v0] d IH]; cbn.
  - case_decide; case_decide; congruence.
  - destruct (decide (k0 = k)) as [->|Hne]; cbn.
    + case_decide; case_decide; congruence.
    + rewrite IH. case_decide; case_decide; congruence.
Qed.

Lemma dict_get_None {V} (d : list (string * V)) k :
  dict_get k d = None <-> k ∉ fst <$> d.
Proof.
  induction d as [|[k0 v0] d IH]; cbn.
  - split; [intros _ ?%elem_of_nil|]; done.
  - case_decide as Hk.
    + subst. split; [done|]. intros []. set_solver.
    + rewrite IH. set_solver.
Qed.

Lemma check_field_spec ti errs log f0 cfg0 :
  exists log',
    check_field env (ti, errs, log) (f0, cfg0)
    = (match dict_get f0 ti with
       | Some _ => ti
       | None => if input_required cfg0 then ti
                 else match input_default cfg0 with
                      | Some d => dict_set f0 d ti
                      | None => ti
                      end
       end,
       errs ++ option_list (error_of ti (f0, cfg0)), log').
Proof.
  unfold check_field, error_of. cbn [fst snd].
  destruct (dict_get f0 ti) as [v|]; [rewrite app_nil_r; by eexists|].
  destruct (input_required cfg0); [by eexists|].
  destruct (input_default cfg0); rewrite app_nil_r; by eexists.
Qed.

Lemma check_fields_spec spec :
  NoDup (fst <$> spec) ->
  forall ti errs log,
  let r := foldl (check_field env) (ti, errs, log) spec in
  (forall f, dict_get f r.1.1 = value_after spec ti f) /\
  r.1.2 = errs ++ omap (error_of ti) spec.
Proof.
  induction spec as [|[f0 cfg0] spec IH]; intros Hnd ti errs log; cbn zeta.
  - cbn. split; [|by rewrite app_nil_r]. intros f. unfold value_after. cbn.
    by destruct (dict_get f ti).
  - rewrite fmap_cons in Hnd. cbn [fst] in Hnd.
    apply NoDup_cons in Hnd as [Hf0 Hnd]. cbn [foldl].
    destruct (check_field_spec ti errs log f0 cfg0) as [log' ->].
    set (ti1 := match dict_get f0 ti with Some _ => ti | None => _ end).
    assert (Hti1 : forall f, dict_get f ti1 =
              if decide (f = f0)
              then match dict_get f0 ti with
                   | Some v => Some v
                   | None => if input_required cfg0 then None else input_default cfg0
                   end
              else dict_get f ti).
    { intros f. unfold ti1. destruct (dict_get f0 ti) as [v|] eqn:Hget.
      - case_decide; congruence.
      - destruct (input_required cfg0); [case_decide; congruence|].
        destruct (input_default cfg0) as [d|].
        + apply dict_get_set.
        + case_decide; congruence. }
    destruct (IH Hnd ti1 (errs ++ option_list (error_of ti (f0, cfg0))) log')
      as [Hval Herr].
    split.
    + intros f. rewrite Hval. unfold value_after. rewrite Hti1. cbn [dict_get].
      destruct (decide (f = f0)) as [->|Hne].
      * rewrite decide_True by done.
        apply dict_get_None in Hf0. rewrite Hf0.
        destruct (dict_get f0 ti); [done|].
        by destruct (if input_required cfg0 then None else input_default cfg0).
      * rewrite decide_False by done. done.
    + rewrite Herr, <- app_assoc. f_equal. cbn [omap list_omap].
      assert (Hsame : omap (error_of ti1) spec = omap (error_of ti) spec).
      { clear -Hf0 Hti1. induction spec as [|[f cfg] spec IH]; [done|].
        cbn [omap list_omap]. rewrite IH by set_solver.
        unfold error_of at 1 3. cbn [fst snd]. rewrite Hti1.
        rewrite decide_False by set_solver. done. }
      rewrite Hsame. by destruct (error_of ti (f0, cfg0)).
Qed.

Lemma errors_nil_iff spec ti :
  omap (error_of ti) spec = [] <->
  forall f, required_field spec f -> is_Some (dict_get f ti).
Proof.
  induction spec as [|[f0 cfg0] spec IH]; cbn [omap list_omap].
  - split; [|done]. by intros _ f (cfg & ?%elem_of_nil & _).
  - unfold error_of at 1. cbn [fst snd]. split.
    + intros Hnil f (cfg & Hin & Hreq).
      apply elem_of_cons in Hin as [[= -> ->]|Hin].
      * destruct (dict_get f0 ti); [by eexists|]. by rewrite Hreq in Hnil.
      * destruct (dict_get f0 ti); [|destruct (input_required cfg0); [done|]];
          apply IH; [done|by exists cfg|done|by exists cfg].
    + intros Hall.
      assert (Hrest : omap (error_of ti) spec = []).
      { apply IH. intros f (cfg & Hin & Hreq). apply Hall. exists cfg. set_solver. }
      rewrite Hrest. destruct (dict_get f0 ti) as [v|] eqn:Hget; [done|].
      destruct (input_required cfg0) eqn:Hreq; [|done].
      destruct (Hall f0) as [v Hv]; [exists cfg0; set_solver|congruence].
Qed.

End InputFacts.

(** X20. [_validate_task_inputs] with a non-empty [inputs:] section: it
    goes on exactly when every field declared as required is provided,
    and otherwise leaves the program, the error lines being those of the
    required fields that are missing, in the order of the declaration. A
    provided value is never replaced; a field that is declared, optional
    and not provided gets its default when it has one (a null default
    counts as none); undeclared inputs are kept as they are. *)
Theorem declared_inputs_contract (env : InputEnv)
    (spec : list (string * InputField)) (task_input : list (string * json))
    (Hspec : spec <> []) (Hkeys : NoDup (fst <$> spec)) :
  let r := validate_task_inputs env (Some spec) task_input in
  let missing :=
    omap (fun fc : string * InputField =>
            if bool_decide (dict_get fc.1 task_input = None) && input_required fc.2
            then Some (error_line fc.1 fc.2) else None) spec in
  (r.1.1 = InputsOk <->
     forall f, required_field spec f -> is_Some (dict_get f task_input)) /\
  (r.1.1 <> InputsOk -> r.1.1 = InputsExit missing /\ missing <> []) /\
  (forall f v, dict_get f task_input = Some v -> dict_get f r.1.2 = Some v) /\
  (forall f cfg, (f, cfg) ∈ spec -> dict_get f task_input = None ->
     dict_get f r.1.2 = if input_required cfg then None else input_default cfg) /\
  (forall f, f ∉ fst <$> spec -> dict_get f r.1.2 = dict_get f task_input).
Proof.
  cbn zeta. unfold validate_task_inputs.
  destruct spec as [|fc0 spec0] eqn:Hs; [done|]. rewrite <- Hs in *. clear Hspec.
  assert (Hdestruct : match spec with [] => False | _ => True end) by (by rewrite Hs).
  pose proof (check_fields_spec env spec Hkeys task_input [] []) as Hfold.
  cbn zeta in Hfold.
  destruct (foldl (check_field env) (task_input, [], []) spec) as [[ti' errs] log].
  cbn [fst snd] in Hfold. destruct Hfold as [Hval Herr]. cbn [app] in Herr.
  assert (Hmissing : omap (fun fc : string * InputField =>
            if bool_decide (dict_get fc.1 task_input = None) && input_required fc.2
            then Some (error_line fc.1 fc.2) else None) spec = errs).
  { rewrite Herr. apply list_omap_ext. apply Forall2_same_length_lookup_2; [done|].
    intros i x y Hx Hy. rewrite Hx in Hy. injection Hy as <-. unfold error_of.
    destruct (dict_get x.1 task_input); cbn; [done|]. by destruct (input_required x.2). }
  rewrite Hmissing.
  assert (Hok : errs = [] <->
            forall f, required_field spec f -> is_Some (dict_get f task_input)).
  { rewrite Herr. apply errors_nil_iff. }
  assert (Hti : forall c l, (let '(c', t, _) := (c, ti', l) : InputCheck * _ * list string
                             in t) = ti') by done.
  assert (Hvalues :
    (forall f v, dict_get f task_input = Some v -> dict_get f ti' = Some v) /\
    (forall f cfg, (f, cfg) ∈ spec -> dict_get f task_input = None ->
       dict_get f ti' = if input_required cfg then None else input_default cfg) /\
    (forall f, f ∉ fst <$> spec -> dict_get f ti' = dict_get f task_input)).
  { split; [|split].
    - intros f v Hf. rewrite Hval. unfold value_after. by rewrite Hf.
    - intros f cfg Hin Hf. rewrite Hval. unfold value_after. rewrite Hf.
      by rewrite (dict_get_elem spec f cfg Hkeys Hin).
    - intros f Hf. rewrite Hval. unfold value_after.
      apply dict_get_None in Hf. rewrite Hf. by destruct (dict_get f task_input). }
  destruct spec as [|fc1 spec1]; [done|].
  destruct errs as [|e errs]; cbn [fst snd].
  - split; [split; [intros _; by apply Hok|done]|]. split; [done|exact Hvalues].
  - split.
    + split; [done|]. intros Hall. by apply Hok in Hall.
    + split; [|exact Hvalues]. intros _. done.
Qed.

Lemma declared_inputs_contract_witness :
  let r := validate_task_inputs sample_input_env (Some sample_inputs)
             [("topic", JStr "AI safety"); ("extra", JNull)] in
  r.1.1 = InputsOk /\
  r.1.2 = [("topic", JStr "AI safety"); ("extra", JNull); ("tone", JStr "neutral")] /\
  (validate_task_inputs sample_input_env (Some sample_inputs) []).1.1
  = InputsExit ["  - 'topic' (What to write about)"].
Proof.
  cbn zeta.
  assert (Hne : sample_inputs <> []) by done.
  assert (Hnd : NoDup (fst <$> sample_inputs)).
  { assert (H : bool_decide (NoDup (fst <$> sample_inputs)) = true)
      by (vm_compute; reflexivity).
    exact (bool_decide_eq_true_1 _ H). }
  destruct (declared_inputs_contract sample_input_env sample_inputs
              [("topic", JStr "AI safety"); ("extra", JNull)] Hne Hnd)
    as (Hok & _).
  destruct (declared_inputs_contract sample_input_env sample_inputs [] Hne Hnd)
    as (_ & Hexit & _).
  split; [|split].
  - apply Hok. intros f (cfg & Hin & Hreq). unfold sample_inputs in Hin.
    repeat (apply elem_of_cons in Hin as [[= -> ->]|Hin]);
      [by eexists|done|done|by apply elem_of_nil in Hin].
  - vm_compute. reflexivity.
  - destruct Hexit as [-> _]; [vm_compute; discriminate|]. vm_compute. reflexivity.
Defined.

(** ** The names in the INPUT VALIDATION FAILED line *)

Section MissingNameFacts.

Import PyStr.

Lemma lstrip_with_stop cls c l : cls c = false -> lstrip_with cls (c :: l) = c :: l.
Proof. intros H. cbn. by rewrite H. Qed.

Lemma rstrip_with_stop cls l c :
  cls c = false -> rstrip_with cls (l ++ [c]) = l ++ [c].
Proof.
  intros H. unfold rstrip_with. rewrite rev_app_distr. cbn [rev app].
  rewrite lstrip_with_stop by done.
  change (c :: rev l) with ([c] ++ rev l). rewrite rev_app_distr, rev_involutive. done.
Qed.

Lemma split_on_no_sep sep l :
  Forall (fun c => eqc c sep = false) l -> split_on sep l = [l].
Proof.
  induction 1 as [|c l Hc _ IH]; [done|]. cbn. by rewrite Hc, IH.
Qed.

Lemma to_of_string s : to_string (of_string s) = s.
Proof. apply string_of_list_ascii_of_string. Qed.

End MissingNameFacts.

(** X21. The names written to the INPUT VALIDATION FAILED line are read
    back from the error lines. For a field name that is not empty, does
    not begin with a dash, a space or a quote and holds no quote, the
    name read back from its error line is the field name, whatever the
    description; a name that begins with a dash loses it. *)
Theorem missing_name_reads_error_line (f : string) (cfg : InputField)
    (Hplain : plain_field_name f) :
  missing_name (error_line f cfg) = f /\
  missing_name (error_line ("-" +:+ f) cfg) = f.
Proof.
  destruct Hplain as [Hfirst Hquote].
  assert (Hline : forall g, exists tail last,
            PyStr.of_string (error_line g cfg)
            = PyStr.of_string "  - '" ++ PyStr.of_string g ++ PyStr.single_quote :: tail /\
            PyStr.single_quote :: tail = removelast (PyStr.single_quote :: tail) ++ [last] /\
            PyStr.is_space last = false).
  { intros g. unfold error_line. cbn zeta.
    rewrite !of_string_app.
    destruct (decide (default "" (f_description cfg) = "")) as [Hd|Hd].
    - exists [], PyStr.single_quote. split; [done|]. split; done.
    - exists (PyStr.of_string " (" ++ PyStr.of_string (default "" (f_description cfg))
                ++ PyStr.of_string ")"), ")"%char.
      rewrite !of_string_app. split; [done|]. split; [|done].
      change (PyStr.of_string ")") with [")"%char].
      rewrite !app_comm_cons, !app_assoc. by rewrite removelast_last. }
  assert (Hread : forall g pre,
            PyStr.of_string g = pre ++ PyStr.of_string f ->
            Forall (fun c => (PyStr.eqc c "-" || PyStr.eqc c " "
                              || PyStr.eqc c PyStr.single_quote) = true) pre ->
            missing_name (error_line g cfg) = f).
  { intros g pre Hg Hpre. unfold missing_name.
    destruct (Hline g) as (tail & last & -> & Hlast & Hsp).
    unfold PyStr.strip, PyStr.strip_with.
    change (PyStr.lstrip_with PyStr.is_space
              (PyStr.of_string "  - '" ++ PyStr.of_string g ++ PyStr.single_quote :: tail))
      with (PyStr.of_string "- '" ++ PyStr.of_string g ++ PyStr.single_quote :: tail).
    rewrite Hlast, !app_assoc, rstrip_with_stop by done.
    rewrite <- !app_assoc, <- Hlast.
    change (PyStr.lstrip_with _ (PyStr.of_string "- '" ++ ?l))
      with (PyStr.lstrip_with
              (fun c => PyStr.eqc c "-" || PyStr.eqc c " " || PyStr.eqc c PyStr.single_quote) l).
    rewrite Hg, <- app_assoc.
    assert (Hstrip : PyStr.lstrip_with
                       (fun c => PyStr.eqc c "-" || PyStr.eqc c " "
                                 || PyStr.eqc c PyStr.single_quote)
                       (pre ++ PyStr.of_string f ++ PyStr.single_quote :: tail)
                     = PyStr.of_string f ++ PyStr.single_quote :: tail).
    { clear Hg. induction Hpre as [|c pre Hc _ IH]; cbn [app PyStr.lstrip_with].
      - destruct (PyStr.of_string f) as [|c l]; [done|]. cbn [app PyStr.lstrip_with].
        by rewrite Hfirst.
      - by rewrite Hc. }
    rewrite Hstrip, split_on_app, split_on_no_sep by done. cbn [hd app].
    apply to_of_string. }
  split.
  - apply (Hread f []); [done|constructor].
  - apply (Hread ("-" +:+ f) ["-"%char]); [done|]. by constructor.
Qed.

Lemma missing_name_reads_error_line_witness :
  missing_name (error_line "topic" (mkInputField None None (Some "What to write about")))
  = "topic" /\
  missing_name (error_line "-topic" (mkInputField None None None)) = "topic".
Proof.
  assert (Hplain : plain_field_name "topic").
  { split; [reflexivity|]. repeat constructor. }
  destruct (missing_name_reads_error_line "topic"
              (mkInputField None None (Some "What to write about")) Hplain) as [H1 _].
  destruct (missing_name_reads_error_line "topic"
              (mkInputField None None None) Hplain) as [_ H2].
  split; [exact H1|exact H2].
Defined.


(** ** The execution order of a validated workflow *)

Section OrderFacts.

Import Workflow.

Variable blocks : list BlockConfig.

Implicit Types (E : gset string) (P : list (list string)).

#[local] Abbreviation names := (list_to_set (C := gset string) (cfg_name <$> blocks)).

Lemma elem_of_current_phase E n :
  n ∈ current_phase blocks E <->
  (n ∉ E) /\ exists b, b ∈ blocks /\ cfg_name b = n /\
    Forall (fun dep => dep ∈ E) (cfg_depends_on b).
Proof.
  unfold current_phase. rewrite list_elem_of_fmap. split.
  - intros (b & -> & [[Hn Hd] Hb]%list_elem_of_filter). split; [done|]. by exists b.
  - intros (Hn & b & Hb & <- & Hd). exists b. split; [done|].
    apply list_elem_of_filter. done.
Qed.

Lemma current_phase_NoDup E :
  NoDup (cfg_name <$> blocks) -> NoDup (current_phase blocks E).
Proof.
  unfold current_phase. generalize blocks. intros l.
  induction l as [|b l IH]; [constructor|].
  rewrite fmap_cons. intros [Hb Hl]%NoDup_cons. rewrite filter_cons.
  case_decide; [|by apply IH]. rewrite fmap_cons. apply NoDup_cons. split; [|by apply IH].
  intros (b' & Heq & [_ Hin]%list_elem_of_filter)%list_elem_of_fmap.
  apply Hb. apply list_elem_of_fmap. by exists b'.
Qed.

Lemma block_by_name b b' :
  NoDup (cfg_name <$> blocks) -> b ∈ blocks -> b' ∈ blocks ->
  cfg_name b = cfg_name b' -> b = b'.
Proof.
  intros Hnd [i Hi]%list_elem_of_lookup [j Hj]%list_elem_of_lookup Heq.
  assert (i = j) as ->; [|congruence].
  apply (NoDup_lookup _ i j (cfg_name b) Hnd); rewrite list_lookup_fmap.
  - by rewrite Hi.
  - rewrite Hj. cbn. by rewrite Heq.
Qed.

(** While a name is missing, an acyclic document has a block to place. *)
Lemma current_phase_nonempty E :
  valid_blocks blocks -> E ⊆ names -> (size E < size names)%nat ->
  current_phase blocks E <> [].
Proof.
  intros (Hnd & Hclosed & rank & Hrank) Hsub Hsize.
  set (L := filter (fun b => cfg_name b ∉ E) blocks).
  assert (HL : L <> []).
  { intros Hnil. assert (names ⊆ E); [|by apply subseteq_size in H; lia].
    intros n Hn. apply elem_of_list_to_set, list_elem_of_fmap in Hn as (b & -> & Hb).
    destruct (decide (cfg_name b ∈ E)) as [|Hno]; [done|].
    assert (b ∈ L) as Hin by (by apply list_elem_of_filter).
    rewrite Hnil in Hin. by apply elem_of_nil in Hin. }
  destruct (least_rank_entry rank ((fun b => (cfg_name b, b)) <$> L))
    as ([n b] & Hin & Hmin).
  { by destruct L. }
  apply list_elem_of_fmap in Hin as (b0 & [= -> ->] & [Hno Hb]%list_elem_of_filter).
  assert (Hready : cfg_name b0 ∈ current_phase blocks E);
    [|intros Hnil; rewrite Hnil in Hready; by apply elem_of_nil in Hready].
  apply elem_of_current_phase. split; [done|]. exists b0. split; [done|]. split; [done|].
  apply Forall_forall. intros d Hd.
  destruct (decide (d ∈ E)) as [|HdE]; [done|]. exfalso.
  pose proof (Hclosed b0 d Hb Hd) as Hdn.
  apply list_elem_of_fmap in Hdn as (bd & -> & Hbd).
  specialize (Hmin (cfg_name bd, bd)). cbn in Hmin.
  specialize (Hrank b0 (cfg_name bd) Hb Hd).
  assert ((rank (cfg_name b0) <= rank (cfg_name bd))%nat); [|lia].
  apply Hmin. apply list_elem_of_fmap. exists bd. split; [done|].
  by apply list_elem_of_filter.
Qed.

Lemma elem_of_concat_lookup P (n : string) :
  n ∈ concat P <-> exists i phase, P !! i = Some phase /\ n ∈ phase.
Proof.
  rewrite list_elem_of_In, in_concat. split.
  - intros (phase & Hp & Hn). apply list_elem_of_In in Hp, Hn.
    apply list_elem_of_lookup in Hp as [i Hi]. by exists i, phase.
  - intros (i & phase & Hi & Hn). exists phase. split; apply list_elem_of_In; [|done].
    by eapply list_elem_of_lookup_2.
Qed.

Lemma order_inv_init : order_inv blocks ∅ [].
Proof.
  split; [done|]. split; [constructor|]. split; [set_solver|]. split; [constructor|].
  split; [by intros i phase b d ?|]. split; [by intros i phase b ?|].
  intros before last b Heq. by destruct before.
Qed.

Lemma order_inv_step E P :
  NoDup (cfg_name <$> blocks) ->
  order_inv blocks E P ->
  current_phase blocks E <> [] ->
  order_inv blocks (E ∪ list_to_set (current_phase blocks E))
    (P ++ [current_phase blocks E]).
Proof.
  intros Hnd (HE & HndP & Hsub & Hne & Hfirst & Hearly & Hmax) Hcur.
  set (cur := current_phase blocks E) in *.
  assert (Hcur_in : forall n, n ∈ cur ->
            (n ∉ E) /\ exists b, b ∈ blocks /\ cfg_name b = n /\
              Forall (fun dep => dep ∈ E) (cfg_depends_on b)).
  { intros n. apply elem_of_current_phase. }
  split; [|split; [|split; [|split; [|split; [|split]]]]].
  - rewrite concat_app, list_to_set_app_L. cbn. rewrite app_nil_r. by rewrite HE.
  - rewrite concat_app. cbn. rewrite app_nil_r. apply NoDup_app. split; [done|].
    split; [|by apply current_phase_NoDup].
    intros n Hn Hn'. destruct (Hcur_in n Hn') as [Hno _]. apply Hno.
    rewrite HE. by apply elem_of_list_to_set.
  - intros n [Hn|Hn%elem_of_list_to_set]%elem_of_union; [by apply Hsub|].
    destruct (Hcur_in n Hn) as (_ & b & Hb & <- & _).
    apply elem_of_list_to_set, list_elem_of_fmap. by exists b.
  - apply Forall_app. split; [done|]. by constructor.
  - intros i phase b d Hi Hb Hn Hd.
    destruct (decide (i < length P)%nat) as [Hlt|Hge].
    + rewrite lookup_app_l in Hi by done.
      destruct (Hfirst i phase b d Hi Hb Hn Hd) as (j & phase' & Hj & Hlook & Hdj).
      exists j, phase'. split; [done|]. split; [|done].
      rewrite lookup_app_l; [done|]. lia.
    + rewrite lookup_app_r in Hi by lia.
      destruct (i - length P)%nat eqn:Hidx; [|by destruct n]. cbn in Hi.
      injection Hi as <-.
      destruct (Hcur_in _ Hn) as (_ & b' & Hb' & Heq & Hdeps).
      assert (b' = b) as -> by (by apply block_by_name).
      rewrite Forall_forall in Hdeps. specialize (Hdeps d Hd).
      rewrite HE in Hdeps. apply elem_of_list_to_set, elem_of_concat_lookup in Hdeps
        as (j & phase' & Hj & Hdj).
      exists j, phase'. pose proof (lookup_lt_Some _ _ _ Hj).
      split; [lia|]. split; [|done]. by rewrite lookup_app_l.
  - intros i phase b Hi Hb Hn.
    destruct (decide (S i < length P)%nat) as [Hlt|Hge].
    + rewrite lookup_app_l in Hi by done.
      destruct (Hearly i phase b Hi Hb Hn) as (d & phase' & Hd & Hlook & Hdi).
      exists d, phase'. split; [done|]. split; [|done].
      rewrite lookup_app_l; [done|]. lia.
    + rewrite lookup_app_r in Hi by lia.
      destruct (S i - length P)%nat eqn:Hidx; [|by destruct n]. cbn in Hi.
      injection Hi as <-.
      assert (Hlen : length P = S i) by lia.
      destruct (Hcur_in _ Hn) as (Hno & b' & Hb' & Heq & Hdeps).
      assert (b' = b) as -> by (by apply block_by_name).
      destruct (exists_last (l := P)) as (before & last & HP).
      { intros ->. cbn in Hlen. lia. }
      assert (Hlast : P !! i = Some last).
      { rewrite HP. rewrite lookup_app_r; rewrite HP, length_app in Hlen; cbn in Hlen.
        - replace (i - length before)%nat with 0%nat by lia. done.
        - lia. }
      destruct (decide (Exists (fun dep => dep ∈ last) (cfg_depends_on b)))
        as [Hex|Hnex].
      * apply Exists_exists in Hex as (d & Hd & Hdl).
        exists d, last. split; [done|]. split; [|done].
        rewrite lookup_app_l; [done|]. lia.
      * exfalso. apply Hno. apply (Hmax before last b HP Hb).
        apply Forall_forall. intros d Hd.
        rewrite Forall_forall in Hdeps. specialize (Hdeps d Hd).
        rewrite HE, HP, concat_app in Hdeps. cbn in Hdeps. rewrite app_nil_r in Hdeps.
        apply elem_of_list_to_set, elem_of_app in Hdeps as [|Hdl]; [done|].
        destruct Hnex. apply Exists_exists. by exists d.
  - intros before last b Heq Hb Hdeps.
    apply app_inj_tail in Heq as [<- <-].
    destruct (decide (cfg_name b ∈ E)) as [|Hno]; [set_solver|].
    apply elem_of_union. right. apply elem_of_list_to_set.
    apply elem_of_current_phase. split; [done|]. exists b. split; [done|]. split; [done|].
    eapply Forall_impl; [exact Hdeps|]. intros d Hd. cbn in Hd.
    rewrite HE. by apply elem_of_list_to_set.
Qed.

Lemma order_loop_spec fuel E P :
  valid_blocks blocks ->
  order_inv blocks E P ->
  (size names <= size E + fuel)%nat ->
  exists phases, order_loop fuel blocks E P = Some (Phases phases) /\
    order_inv blocks names phases.
Proof.
  intros Hvalid. revert E P. induction fuel as [|fuel IH]; intros E P Hinv Hfuel.
  - cbn. destruct Hinv as (HE & Hrest). pose proof Hrest as (_ & Hsub & _).
    rewrite decide_False by lia. exists P. split; [done|].
    assert (E = names) as <-; [|by split].
    apply set_subseteq_size_eq; [done|lia].
  - cbn [order_loop]. case_decide as Hlt.
    + pose proof Hinv as (_ & _ & Hsub & _).
      pose proof (current_phase_nonempty E Hvalid Hsub Hlt) as Hne.
      destruct Hvalid as (Hnd & Hrest).
      pose proof (order_inv_step E P Hnd Hinv Hne) as Hinv'.
      destruct (current_phase blocks E) as [|n cur] eqn:Hcur; [done|].
      apply IH; [done|].
      assert (Hn : n ∉ E).
      { assert (n ∈ current_phase blocks E) as Hin by (rewrite Hcur; set_solver).
        by apply elem_of_current_phase in Hin as [? _]. }
      assert (Hsz : (size E < size (E ∪ list_to_set (n :: cur)))%nat).
      { apply subset_size. split; [set_solver|]. intros Hsub'. apply Hn. apply Hsub'.
        set_solver. }
      lia.
    + exists P. split; [done|]. destruct Hinv as (HE & Hrest).
      pose proof Hrest as (_ & Hsub & _).
      assert (E = names) as <-; [|by split].
      apply set_subseteq_size_eq; [done|lia].
Qed.

End OrderFacts.

(** X22. [get_execution_order] on a workflow that passed the validators
    (unique names, dependencies that name blocks, no cycle): it returns,
    never raising the deadlock error; every block name is in exactly one
    phase, once; no phase is empty; every dependency of a block is in a
    phase strictly before the block's; and a block outside the first
    phase has a dependency in the phase just before its own, so every
    block is placed as early as its dependencies allow. *)
Theorem execution_order_layers (blocks : list Workflow.BlockConfig)
    (Hvalid : Workflow.valid_blocks blocks) :
  exists phases,
    Workflow.get_execution_order blocks = Some (Workflow.Phases phases) /\
    concat phases ≡ₚ Workflow.cfg_name <$> blocks /\
    Forall (fun phase => phase <> []) phases /\
    Workflow.dependencies_first blocks phases /\
    Workflow.as_early_as_possible blocks phases.
Proof.
  pose proof Hvalid as (Hnd & _).
  destruct (order_loop_spec blocks (length blocks) ∅ [] Hvalid (order_inv_init blocks))
    as (phases & Hrun & HE & HndP & _ & Hne & Hfirst & Hearly & _).
  { rewrite size_list_to_set by done. rewrite length_fmap. lia. }
  exists phases. split; [done|]. split; [|done].
  apply NoDup_Permutation; [done|done|].
  intros n. rewrite <- (elem_of_list_to_set (C := gset string) n (concat phases)), <- HE.
  by rewrite elem_of_list_to_set.
Qed.

Lemma execution_order_layers_witness :
  Workflow.valid_blocks Workflow.sample_diamond /\
  Workflow.get_execution_order Workflow.sample_diamond
  = Some (Workflow.Phases [["a"]; ["b"; "c"]; ["d"]]).
Proof.
  assert (Hvalid : Workflow.valid_blocks Workflow.sample_diamond).
  { split; [|split].
    - assert (H : bool_decide (NoDup (Workflow.cfg_name <$> Workflow.sample_diamond)) = true)
        by (vm_compute; reflexivity).
      exact (bool_decide_eq_true_1 _ H).
    - intros b d Hb Hd. unfold Workflow.sample_diamond in Hb.
      repeat (apply elem_of_cons in Hb as [->|Hb]); [| | | |by apply elem_of_nil in Hb];
        cbn in Hd; set_unfold in Hd; destruct_or? Hd; try done; subst d;
        cbn; set_unfold; auto.
    - exists (fun n => if decide (n = "a") then 0%nat
                       else if decide (n = "d") then 2%nat else 1%nat).
      intros b d Hb Hd. unfold Workflow.sample_diamond in Hb.
      repeat (apply elem_of_cons in Hb as [->|Hb]); [| | | |by apply elem_of_nil in Hb];
        cbn in Hd; set_unfold in Hd; destruct_or? Hd; try done; subst d;
        vm_compute; lia. }
  split; [exact Hvalid|].
  destruct (execution_order_layers _ Hvalid) as (phases & Hrun & _).
  rewrite Hrun. f_equal. f_equal.
  assert (Hc : Workflow.get_execution_order Workflow.sample_diamond
               = Some (Workflow.Phases [["a"]; ["b"; "c"]; ["d"]]))
    by (vm_compute; reflexivity).
  rewrite Hc in Hrun. by injection Hrun as <-.
Defined.


(** ** The daemon's view of a task *)

Section DaemonFacts.

Import ReinState Daemon.

Implicit Types (db : Db).

Lemma count_rows_le st db : (count_rows st db <= size db)%nat.
Proof. unfold count_rows. apply map_subseteq_size, map_filter_subseteq. Qed.

Lemma count_rows_zero st db :
  count_rows st db = 0%nat <-> forall n row, db !! n = Some row -> r_status row <> st.
Proof.
  unfold count_rows. rewrite map_size_empty_iff, map_empty. split.
  - intros Hnone n row Hn Hst. specialize (Hnone n).
    assert (filter (fun kv : string * Row => r_status kv.2 = st) db !! n = Some row);
      [|congruence].
    by apply map_lookup_filter_Some.
  - intros Hall n. apply eq_None_not_Some. intros [row [Hn Hst]%map_lookup_filter_Some].
    by eapply Hall.
Qed.

Lemma count_rows_all st db :
  count_rows st db = size db <-> forall n row, db !! n = Some row -> r_status row = st.
Proof.
  unfold count_rows. split.
  - intros Hsize n row Hn.
    assert (Heq : filter (fun kv : string * Row => r_status kv.2 = st) db = db).
    { apply map_subseteq_size_eq; [apply map_filter_subseteq|lia]. }
    rewrite <- Heq in Hn. by apply map_lookup_filter_Some in Hn as [_ ?].
  - intros Hall. f_equal. apply map_eq. intros n.
    destruct (db !! n) as [row|] eqn:Hn.
    + apply map_lookup_filter_Some. split; [done|]. by eapply Hall.
    + apply map_lookup_filter_None. by left.
Qed.

End DaemonFacts.

(** X23. The two readings that the daemon makes of a task database
    agree: [get_running_tasks] lists a task exactly when the status of
    its snapshot is running, or pending with at least one block -- so a
    task whose blocks are all still waiting is listed as running. The
    snapshot says failed exactly when some row is failed, and completed
    exactly when there are rows and every row is done. *)
Theorem daemon_views_agree (db : ReinState.Db) :
  (Daemon.listed_running db = true <->
     Daemon.task_status db = "running" \/
     (Daemon.task_status db = "pending" /\ size db <> 0%nat)) /\
  (Daemon.task_status db = "failed" <->
     exists n row, db !! n = Some row /\ ReinState.r_status row = "failed") /\
  (Daemon.task_status db = "completed" <->
     size db <> 0%nat /\
     forall n row, db !! n = Some row -> ReinState.r_status row = "done").
Proof.
  unfold Daemon.listed_running, Daemon.task_status. cbn zeta.
  pose proof (count_rows_le "done" db) as Hdone.
  pose proof (count_rows_zero "failed" db) as Hfz.
  pose proof (count_rows_all "done" db) as Hda.
  assert (Hfe : (0 < Daemon.count_rows "failed" db)%nat <->
                exists n row, db !! n = Some row /\ ReinState.r_status row = "failed").
  { split.
    - intros Hpos.
      destruct (decide (map_Exists (fun _ row => ReinState.r_status row = "failed") db))
        as [(n & row & Hn & Hst)|Hno]; [by exists n, row|].
      assert (Daemon.count_rows "failed" db = 0%nat); [|lia].
      apply Hfz. intros n row Hn Hst. apply Hno. by exists n, row.
    - intros (n & row & Hn & Hst).
      destruct (decide (Daemon.count_rows "failed" db = 0)%nat) as [Hz|]; [|lia].
      rewrite Hfz in Hz. by destruct (Hz n row Hn). }
  assert (Hff : (0 < Daemon.count_rows "failed" db)%nat ->
                ~ (forall n row, db !! n = Some row -> ReinState.r_status row = "done")).
  { intros (n & row & Hn & Hst)%Hfe Hall. specialize (Hall n row Hn). congruence. }
  pose proof (count_rows_le "failed" db) as Hfailed.
  rewrite bool_decide_eq_true.
  destruct (decide (size db = 0)%nat) as [Hz|Hnz].
  { split; [|split].
    - split; [lia|]. intros [?|[_ ?]]; done.
    - split; [done|]. intros ?%Hfe. lia.
    - split; [done|]. intros [? _]. done. }
  destruct (decide (0 < Daemon.count_rows "failed" db)%nat) as [Hf|Hf].
  { split; [|split].
    - split; [lia|]. intros [?|[? _]]; done.
    - split; [intros _; by apply Hfe|done].
    - split; [done|]. intros [_ Hall]. by destruct (Hff Hf). }
  destruct (decide (Daemon.count_rows "done" db = size db)) as [Hd|Hd].
  { split; [|split].
    - split; [lia|]. intros [?|[? _]]; done.
    - split; [done|]. intros ?%Hfe. lia.
    - split; [intros _; split; [done|by apply Hda]|done]. }
  destruct (decide (0 < Daemon.count_rows "running" db
                    \/ 0 < Daemon.count_rows "done" db)%nat) as [Hr|Hr].
  { split; [|split].
    - split; [by left|]. intros _. lia.
    - split; [done|]. intros ?%Hfe. lia.
    - split; [done|]. intros [_ Hall%Hda]. done. }
  split; [|split].
  - split; [intros _; right; done|]. intros _. lia.
  - split; [done|]. intros ?%Hfe. lia.
  - split; [done|]. intros [_ Hall%Hda]. done.
Qed.


(** ** Rows and records *)

Lemma rows_have_records_frame (m m' : Manager) :
  processes m' = processes m -> state m' = state m ->
  rows_have_records m -> rows_have_records m'.
Proof. unfold rows_have_records, process_names. by intros -> ->. Qed.

Lemma update_save_rows (now : Q) (i : nat) (f : Process -> Process) (m : Manager) :
  (forall p, name (f p) = name p) ->
  rows_have_records m ->
  rows_have_records (save_at now i (set_processes (update_at i f (processes m)) m)).
Proof.
  intros Hf Hrows n. unfold process_names. rewrite save_at_processes.
  cbn [processes set_processes]. rewrite process_names_update_at by done.
  unfold save_at. cbn [processes set_processes].
  destruct (update_at i f (processes m) !! i) as [[u p]|] eqn:Hi; [|apply Hrows].
  cbn [state db_save set_state set_processes]. unfold ReinState.save_process.
  rewrite dom_insert_L, elem_of_union, elem_of_singleton.
  intros [->|Hn]; [|by apply Hrows].
  rewrite <- (process_names_update_at i f) by done.
  apply list_elem_of_fmap. exists (u, p). split; [done|].
  by eapply list_elem_of_lookup_2.
Qed.

Lemma trigger_next_rows now block target data m :
  rows_have_records m -> rows_have_records (trigger_next now block target data m).
Proof.
  intros H. unfold trigger_next. case_decide; [by eapply rows_have_records_frame|].
  cbn zeta.
  eapply rows_have_records_frame; [reflexivity|reflexivity|]. cbn [processes state
    write_rein_log set_next_queue].
  eapply (rows_have_records_frame (reset_target now target _ _)); [done|done|].
  unfold reset_target.
  destruct (index_of_name target _) as [i|].
  - apply update_save_rows; [done|]. by eapply rows_have_records_frame.
  - by eapply rows_have_records_frame.
Qed.

Lemma execute_block_rows now res i block m :
  rows_have_records m -> rows_have_records (execute_block now res i block m).
Proof.
  intros H. destruct res as [result_data|]; cbn [execute_block].
  - unfold finish_done. cbn zeta.
    assert (Hdone : rows_have_records
              (set_completed ({[block_name block]} ∪ completed m)
                 (write_rein_log ("BLOCK COMPLETED | " +:+ block_name block)
                    (save_at now i
                       (set_processes
                          (update_at i (fun p => with_exit_code (Some 0)
                                          (with_status "done" (with_progress 100 p)))
                             (processes m)) m))))).
    { eapply rows_have_records_frame; [reflexivity|reflexivity|].
      by apply update_save_rows. }
    cbn [completed write_rein_log].
    rewrite save_at_completed. cbn [completed set_processes].
    destruct (Cond.evaluate_next_block block result_data) as [t|]; [|exact Hdone].
    case_decide; [exact Hdone|]. by apply trigger_next_rows.
  - unfold finish_failed. cbn zeta.
    assert (Hfailed : rows_have_records
              (save_at now i
                 (set_processes
                    (update_at i (fun p => with_exit_code (Some 1) (with_status "failed" p))
                       (processes (write_rein_log ("BLOCK FAILED | " +:+ block_name block) m)))
                    (write_rein_log ("BLOCK FAILED | " +:+ block_name block) m)))).
    { apply update_save_rows; [done|]. by eapply rows_have_records_frame. }
    destruct (block_continue_if_failed block);
      (eapply rows_have_records_frame; [reflexivity|reflexivity|exact Hfailed]).
Qed.

Lemma spawn_process_rows now pid_ res block m :
  rows_have_records m -> rows_have_records (spawn_process now pid_ res block m).2.
Proof.
  intros H. unfold spawn_process.
  case_decide; [by eapply rows_have_records_frame|]. cbn zeta.
  destruct (bool_decide (Exists _ _)); [done|].
  destruct (blocked_by_pause _ _); [done|].
  destruct (_ && _); [by eapply rows_have_records_frame|].
  destruct (index_of_name _ _) as [i|]; [|by eapply rows_have_records_frame].
  cbn [snd]. apply execute_block_rows.
  eapply rows_have_records_frame; [reflexivity|reflexivity|].
  by apply update_save_rows.
Qed.

(** Rows of names that are not blocks are left alone by the
    initialisation. *)
Lemma initialize_state_other (env : InitEnv) (m m' : Manager) (n : string) :
  initialize_all_processes env m = Some m' ->
  n ∉ block_name <$> all_blocks m ->
  state m' !! n = state m !! n.
Proof.
  unfold initialize_all_processes.
  destruct (needs_rerun_spec m) as (needs & log & -> & Hneeds). cbn zeta.
  cbn [mbind option_bind].
  set (m0 := mkManager _ _ _ _ _ _ _ _ _ _ _ log).
  destruct (clean_outputs_fold (elements needs) m0) as (_ & Hs & _ & _).
  set (m1 := foldl _ m0 (elements needs)) in *.
  pose proof (init_blocks_fold env (existing_status m) needs (phase_pass (all_blocks m))
                (indexed (all_blocks m)) (m1, 0)) as Hfold.
  cbn zeta in Hfold. rewrite indexed_names in Hfold.
  destruct (foldl _ (m1, 0) (indexed (all_blocks m))) as [m2 restored] eqn:Hrun.
  cbn [fst] in Hfold. destruct Hfold as (_ & _ & Hk & _).
  intros [= <-] Hn.
  assert (Hst : forall m3, m3 = (if bool_decide (0 < restored)
            then write_rein_log ("RESUME | Restored " +:+ pretty restored
                   +:+ " completed blocks from previous run") m2 else m2) ->
            state m3 = state m2).
  { intros m3 ->. by destruct (bool_decide (0 < restored)). }
  rewrite (Hst _ eq_refl), Hk by (by left). by rewrite Hs.
Qed.

Lemma initialize_rows (env : InitEnv) (m m' : Manager) :
  processes m = [] /\ completed m = ∅ /\ next_queue m = [] /\
    workflow_paused m = false ->
  NoDup (fresh_uid env <$> seq 0 (length (all_blocks m))) ->
  (forall n, n ∈ dom (state m) -> n ∈ block_name <$> all_blocks m) ->
  initialize_all_processes env m = Some m' ->
  rows_have_records m'.
Proof.
  intros Hempty Huids Hdom Hrun.
  destruct (initialize_spec env m Hempty Huids)
    as (m'' & needs & Hrun' & _ & _ & _ & _ & _ & Hn & _).
  pose proof Hrun as Hrun2. rewrite Hrun' in Hrun2. injection Hrun2 as ->.
  intros n Hin. rewrite Hn.
  destruct (decide (n ∈ block_name <$> all_blocks m)) as [|Hno]; [done|].
  apply Hdom. apply elem_of_dom. apply elem_of_dom in Hin.
  by rewrite <- (initialize_state_other env m m' n Hrun Hno).
Qed.

(** ** Counting rows and counting records *)

Section CountFacts.

Import ReinState Daemon.

Lemma NoDup_names_filter (P : string * Process -> Prop) `{!forall x, Decision (P x)}
    (ps : list (string * Process)) :
  NoDup ((fun up : string * Process => name up.2) <$> ps) ->
  NoDup ((fun up : string * Process => name up.2) <$> filter P ps).
Proof.
  induction ps as [|up ps IH]; [constructor|].
  rewrite fmap_cons. intros [Hup Hnd]%NoDup_cons. rewrite filter_cons.
  case_decide; [|by apply IH]. rewrite fmap_cons. apply NoDup_cons. split; [|by apply IH].
  intros (up' & Heq & [_ Hin]%list_elem_of_filter)%list_elem_of_fmap.
  apply Hup. apply list_elem_of_fmap. by exists up'.
Qed.

Lemma count_rows_records (m : Manager) (st : string) :
  db_consistent m -> rows_have_records m ->
  Z.of_nat (count_rows st (state m)) = count_status st m.
Proof.
  intros [Hnd Hcons] Hrows. unfold count_rows, count_status. f_equal.
  rewrite <- size_dom.
  set (recs := filter (fun up : string * Process => status up.2 = st) (processes m)).
  assert (Hdom : dom (filter (fun kv : string * Row => r_status kv.2 = st) (state m))
                 = list_to_set ((fun up : string * Process => name up.2) <$> recs)).
  { apply set_eq. intros n. rewrite elem_of_dom, elem_of_list_to_set, list_elem_of_fmap.
    split.
    - intros [row [Hn Hst]%map_lookup_filter_Some]. cbn in Hst.
      assert (Hin : n ∈ process_names m) by (apply Hrows, elem_of_dom; by eexists).
      apply list_elem_of_fmap in Hin as ([u p] & -> & Hin).
      exists (u, p). split; [done|]. apply list_elem_of_filter. split; [|done].
      apply list_elem_of_lookup in Hin as [i Hi].
      destruct (Hcons i u p Hi) as (row' & Hrow' & Hst'). cbn in Hn. cbn. congruence.
    - intros ([u p] & -> & [Hst Hin]%list_elem_of_filter). cbn in Hst.
      apply list_elem_of_lookup in Hin as [i Hi].
      destruct (Hcons i u p Hi) as (row & Hrow & Hst').
      exists row. apply map_lookup_filter_Some. split; [done|]. cbn. congruence. }
  rewrite Hdom, size_list_to_set, length_fmap; [done|].
  by apply NoDup_names_filter.
Qed.

Lemma size_state_records (m : Manager) :
  db_consistent m -> rows_have_records m ->
  size (state m) = length (processes m).
Proof.
  intros [Hnd Hcons] Hrows. rewrite <- size_dom.
  assert (Hdom : dom (state m) = list_to_set (process_names m)).
  { apply set_eq. intros n. rewrite elem_of_list_to_set. split; [apply Hrows|].
    intros ([u p] & -> & Hin)%list_elem_of_fmap.
    apply list_elem_of_lookup in Hin as [i Hi].
    destruct (Hcons i u p Hi) as (row & Hrow & _). apply elem_of_dom. by eexists. }
  rewrite Hdom, size_list_to_set by done. unfold process_names. by rewrite length_fmap.
Qed.

End CountFacts.

(** X24. The daemon and the task runner read the database, the
    orchestrator its records; they agree. When record names are unique,
    every record's persisted status is its status in memory and every
    row belongs to a record: the number of rows with a given status is
    the number of records with it (so the count of done rows reported by
    [execute_task] is the [completed] of the summary), the snapshot of
    the daemon says failed exactly when the status file says failed, and
    once every record is done or failed the two statuses are equal. *)
Theorem daemon_agrees_with_finalize (m : Manager)
    (Hinv : db_consistent m) (Hrows : rows_have_records m) :
  (forall st, Z.of_nat (Daemon.count_rows st (state m)) = count_status st m) /\
  size (state m) = length (processes m) /\
  (Daemon.task_status (state m) = "failed" <-> final_status m = "failed") /\
  (all_completed m = true -> processes m <> [] ->
   Daemon.task_status (state m) = final_status m).
Proof.
  pose proof (fun st => count_rows_records m st Hinv Hrows) as Hcount.
  pose proof (size_state_records m Hinv Hrows) as Hsize.
  split; [done|]. split; [done|].
  pose proof (count_rows_le "failed" (state m)) as Hfle.
  pose proof (count_rows_le "done" (state m)) as Hdle.
  destruct (count_done_failed (processes m)) as [_ Hall]. cbn zeta in Hall.
  assert (Hd : Daemon.count_rows "done" (state m)
               = length (filter (fun up : string * Process => status up.2 = "done")
                           (processes m))).
  { apply Nat2Z.inj. apply (Hcount "done"). }
  assert (Hf : Daemon.count_rows "failed" (state m)
               = length (filter (fun up : string * Process => status up.2 = "failed")
                           (processes m))).
  { apply Nat2Z.inj. apply (Hcount "failed"). }
  rewrite <- Hd, <- Hf in Hall.
  unfold Daemon.task_status, final_status, all_completed. cbn zeta.
  rewrite <- (Hcount "failed").
  destruct (Z.eqb_spec (Z.of_nat (Daemon.count_rows "failed" (state m))) 0) as [Hz|Hz].
  - split.
    + repeat case_decide; split; try done; lia.
    + intros Hc Hne. apply Hall in Hc.
      assert (length (processes m) <> 0%nat) by (by destruct (processes m)).
      rewrite decide_False by lia. rewrite decide_False by lia.
      rewrite decide_True by lia. done.
  - split.
    + rewrite decide_False by lia. rewrite decide_True by lia. done.
    + intros _ _. rewrite decide_False by lia. rewrite decide_True by lia. done.
Qed.

Lemma daemon_agrees_with_finalize_witness :
  exists m0 st',
    initialize_all_processes sample_env sample_crashed = Some m0 /\
    run_loop 4 4 sample_env_ok None (loop_start m0) = Some (ExitAllDone, st') /\
    Daemon.task_status (state (mgr st')) = final_status (mgr st') /\
    Z.of_nat (Daemon.count_rows "done" (state (mgr st'))) = 3.
Proof.
  assert (Hempty : processes sample_crashed = [] /\ completed sample_crashed = ∅ /\
                   next_queue sample_crashed = [] /\ workflow_paused sample_crashed = false)
    by done.
  assert (Huids : NoDup (fresh_uid sample_env <$>
                           seq 0 (length (all_blocks sample_crashed)))).
  { assert (H : bool_decide (NoDup (fresh_uid sample_env <$>
                  seq 0 (length (all_blocks sample_crashed)))) = true)
      by (vm_compute; reflexivity).
    exact (bool_decide_eq_true_1 _ H). }
  assert (Hnames : NoDup (block_name <$> all_blocks sample_crashed)).
  { assert (H : bool_decide (NoDup (block_name <$> all_blocks sample_crashed)) = true)
      by (vm_compute; reflexivity).
    exact (bool_decide_eq_true_1 _ H). }
  destruct (initialize_spec sample_env sample_crashed Hempty Huids)
    as (m0 & needs & Hrun & _).
  pose proof (initialize_db_consistent _ _ _ Hempty Huids Hnames Hrun) as Hc0.
  assert (Hr0 : rows_have_records m0).
  { apply (initialize_rows sample_env sample_crashed); [done|done| |done].
    intros n Hn.
    assert (Hdom : dom (state sample_crashed) = {["a"; "b"; "c"]})
      by (vm_compute; reflexivity).
    rewrite Hdom in Hn. cbn. set_unfold in Hn. set_unfold. tauto. }
  assert (Hm0 : Some m0 = Some (default sample_crashed
                    (initialize_all_processes sample_env sample_crashed)))
    by (rewrite <- Hrun; vm_compute; reflexivity).
  injection Hm0 as Hm0.
  destruct (run_loop 4 4 sample_env_ok None (loop_start m0)) as [[r st']|] eqn:Hl;
    [|rewrite Hm0 in Hl; vm_compute in Hl; discriminate].
  assert (Hc : db_consistent (mgr st')).
  { eapply (run_loop_preserves db_consistent); [..|exact Hl|exact Hc0].
    - intros. by eapply db_consistent_frame.
    - intros. by eapply db_consistent_frame.
    - intros. by eapply db_consistent_frame.
    - intros. by apply spawn_process_consistent. }
  assert (Hr : rows_have_records (mgr st')).
  { eapply (run_loop_preserves rows_have_records); [..|exact Hl|exact Hr0].
    - intros. by eapply rows_have_records_frame.
    - intros. by eapply rows_have_records_frame.
    - intros. by eapply rows_have_records_frame.
    - intros. by apply spawn_process_rows. }
  destruct (daemon_agrees_with_finalize (mgr st') Hc Hr) as (Hcount & _ & _ & Hsame).
  assert (Hfacts : r = ExitAllDone /\ all_completed (mgr st') = true /\
                   processes (mgr st') <> [] /\ count_status "done" (mgr st') = 3).
  { rewrite Hm0 in Hl. vm_compute in Hl. injection Hl as <- <-.
    split; [done|]. split; [vm_compute; reflexivity|]. split; [done|].
    vm_compute. reflexivity. }
  destruct Hfacts as (-> & Hall & Hne & Hdone).
  exists m0, st'. split; [done|]. split; [done|]. split; [by apply Hsame|].
  by rewrite Hcount.
Defined.


(** ** The daemon's scan *)

Section SchedulerFacts.

Import Scheduler.

Variables (max_workflows : Z) (flow_exists : string -> bool)
          (tasks0 : gmap string TaskDir).

(** A task is started by the scan when it is eligible as the directory
    stood before the scan. *)
#[local] Abbreviation startable := (fun t =>
  exists td, tasks0 !! t = Some td /\ eligible flow_exists td = true).

Lemma scan_spec listing tasks active :
  (forall t, t ∉ active -> tasks !! t = tasks0 !! t) ->
  let r := scan max_workflows flow_exists listing tasks active in
  exists started,
    r.2 = active ++ started /\
    NoDup started /\
    (forall t, t ∈ started -> (t ∉ active) /\ t ∈ listing /\ startable t) /\
    (Z.of_nat (length r.2) <= Z.max (Z.of_nat (length active)) max_workflows) /\
    (Z.of_nat (length r.2) < max_workflows ->
     forall t, t ∈ listing -> startable t -> t ∈ r.2) /\
    (forall t, t ∉ r.2 -> r.1 !! t = tasks0 !! t).
Proof.
  revert tasks active. induction listing as [|name rest IH]; intros tasks active Hsame;
    cbn zeta; cbn [scan].
  - exists []. rewrite app_nil_r. cbn [fst snd]. split; [done|]. split; [constructor|].
    split; [by intros t ?%elem_of_nil|]. split; [lia|].
    split; [by intros _ t ?%elem_of_nil|done].
  - case_decide as Hfull.
    { exists []. rewrite app_nil_r. cbn [fst snd]. split; [done|]. split; [constructor|].
      split; [by intros t ?%elem_of_nil|]. split; [lia|].
      split; [intros; lia|done]. }
    assert (Hkeep : forall tasks',
              (forall t, t ∉ active -> tasks' !! t = tasks0 !! t) ->
              ~ ((name ∉ active) /\ startable name) ->
              let r := scan max_workflows flow_exists rest tasks' active in
              exists started,
                r.2 = active ++ started /\ NoDup started /\
                (forall t, t ∈ started ->
                   (t ∉ active) /\ t ∈ name :: rest /\ startable t) /\
                (Z.of_nat (length r.2) <= Z.max (Z.of_nat (length active)) max_workflows) /\
                (Z.of_nat (length r.2) < max_workflows ->
                 forall t, t ∈ name :: rest -> startable t -> t ∈ r.2) /\
                (forall t, t ∉ r.2 -> r.1 !! t = tasks0 !! t)).
    { intros tasks' Hsame' Hnot. cbn zeta.
      destruct (IH tasks' active Hsame') as (started & Hr & Hnd & Hst & Hlen & Hall & Hfs).
      exists started. split; [done|]. split; [done|]. split.
      - intros t Ht. destruct (Hst t Ht) as (? & ? & ?). split; [done|].
        split; [by apply elem_of_cons; right|done].
      - split; [done|]. split; [|done].
        intros Hlt t [->|Ht]%elem_of_cons Hs; [|by apply Hall].
        destruct (decide (name ∈ active)) as [Hin|Hno].
        + rewrite Hr. apply elem_of_app. by left.
        + destruct Hnot. done. }
    case_decide as Hactive.
    { apply Hkeep; [done|]. by intros [? _]. }
    destruct (tasks !! name) as [td|] eqn:Htd.
    2:{ apply Hkeep; [done|]. intros [_ (td & Htd0 & _)].
        rewrite Hsame in Htd by done. congruence. }
    destruct (eligible flow_exists td) eqn:Hel.
    2:{ apply Hkeep; [done|]. intros [_ (td' & Htd0 & Hel')].
        rewrite Hsame in Htd by done. congruence. }
    destruct (IH (<[name := remove_marker td]> tasks) (active ++ [name]))
      as (started & Hr & Hnd & Hst & Hlen & Hall & Hfs).
    { intros t Ht. rewrite lookup_insert_ne; [|set_solver]. apply Hsame. set_solver. }
    set (res := scan max_workflows flow_exists rest
                  (<[name := remove_marker td]> tasks) (active ++ [name])) in *.
    assert (Hr' : res.2 = active ++ name :: started).
    { rewrite Hr, <- app_assoc. done. }
    exists (name :: started). split; [done|].
    split.
    { apply NoDup_cons. split; [|done]. intros Hin.
      destruct (Hst name Hin) as (Hno & _). apply Hno. set_solver. }
    split.
    { intros t [->|Ht]%elem_of_cons.
      - split; [done|]. split; [set_solver|]. exists td. split; [|done].
        by rewrite <- Hsame.
      - destruct (Hst t Ht) as (Hno & Hin & Hs). split; [set_solver|].
        split; [set_solver|done]. }
    split.
    { rewrite length_app in Hlen. cbn [length] in Hlen. lia. }
    split; [|done].
    intros Hlt t [->|Ht]%elem_of_cons Hs.
    + rewrite Hr'. set_solver.
    + by apply Hall.
Qed.

End SchedulerFacts.

(** X25. One scan of the daemon over the tasks directory. The tasks it
    starts are appended to the active ones, each once; a task is started
    only if it was not active and was
    eligible as the directory stood before the scan (a directory, marked
    pending or with a [task.yaml] and no database yet, naming a flow that
    exists); the number of active tasks never goes above the larger of
    [max_workflows] and what it was; when the scan ends below
    [max_workflows], every eligible task of the directory is active; and
    the directory entries of the tasks that were not started are left
    alone. *)
Theorem daemon_scan_respects_limit (max_workflows : Z) (flow_exists : string -> bool)
    (tasks : gmap string Scheduler.TaskDir) (active : list string) :
  let r := Scheduler.scan_tasks max_workflows flow_exists tasks active in
  exists started,
    r.2 = active ++ started /\
    NoDup started /\
    (forall t, t ∈ started ->
       (t ∉ active) /\
       exists td, tasks !! t = Some td /\ Scheduler.eligible flow_exists td = true) /\
    (Z.of_nat (length r.2) <= Z.max (Z.of_nat (length active)) max_workflows) /\
    (Z.of_nat (length r.2) < max_workflows ->
     forall t td, tasks !! t = Some td -> Scheduler.eligible flow_exists td = true ->
       t ∈ r.2) /\
    (forall t, t ∉ r.2 -> r.1 !! t = tasks !! t).
Proof.
  cbn zeta. unfold Scheduler.scan_tasks.
  destruct (scan_spec max_workflows flow_exists tasks
              (sorted_names (dom tasks)) tasks active ltac:(done))
    as (started & Hr & Hnd & Hst & Hlen & Hall & Hfs).
  exists started. split; [done|]. split; [done|]. split.
  { intros t Ht. destruct (Hst t Ht) as (? & _ & ?). done. }
  split; [done|]. split; [|done].
  intros Hlt t td Ht Hel. apply Hall; [done| |by exists td].
  unfold sorted_names. rewrite merge_sort_Permutation, elem_of_elements.
  apply elem_of_dom. by eexists.
Qed.

(** With room for one more task the scan starts [t1], the first in the
    sorted listing, and removes its marker; with room for all it starts
    [t1] and [t2] and leaves [t3], which has a database already. *)
Example daemon_scan_sample :
  (Scheduler.scan_tasks 1 (fun _ => true) Scheduler.sample_tasks []).2 = ["t1"] /\
  (Scheduler.scan_tasks 3 (fun _ => true) Scheduler.sample_tasks []).2 = ["t1"; "t2"] /\
  Scheduler.td_status
    <$> (Scheduler.scan_tasks 1 (fun _ => true) Scheduler.sample_tasks []).1 !! "t1"
  = Some None.
Proof. split; [|split]; vm_compute; reflexivity. Qed.


(** ** The critical path and the execution order *)

Section CriticalPathFacts.

Import Workflow CriticalPath.

Lemma dict_of_list_unique {V} (key : V -> string) (l : list V) :
  NoDup (key <$> l) ->
  foldl (fun d v => dict_set (key v) v d) [] l = (fun v => (key v, v)) <$> l.
Proof.
  induction l as [|v l IH] using rev_ind; [done|].
  rewrite fmap_app. intros [Hnd [Hdisj _]]%NoDup_app.
  rewrite foldl_app, fmap_app. cbn. rewrite IH by done.
  apply dict_set_fresh. rewrite <- list_fmap_compose. intros Hin.
  apply (Hdisj (key v)); [exact Hin|set_solver].
Qed.

Lemma phase_index_unique (P : list (list string)) i j p q (n : string) :
  NoDup (concat P) ->
  P !! i = Some p -> P !! j = Some q -> n ∈ p -> n ∈ q -> i = j.
Proof.
  revert i j. induction P as [|p0 P IH]; intros i j Hnd Hi Hj Hp Hq; [done|].
  cbn in Hnd. apply NoDup_app in Hnd as (Hnd0 & Hdisj & HndP).
  assert (Hin : forall k r, P !! k = Some r -> n ∈ r -> n ∈ concat P).
  { intros k r Hk Hr. apply elem_of_concat_lookup. by exists k, r. }
  destruct i as [|i], j as [|j]; cbn in Hi, Hj.
  - done.
  - injection Hi as <-. destruct (Hdisj n Hp). by eapply Hin.
  - injection Hj as <-. destruct (Hdisj n Hq). by eapply Hin.
  - f_equal. by eapply IH.
Qed.

Lemma py_max_bounds (ds : list Z) (B : Z) :
  ds <> [] -> (forall y, y ∈ ds -> y <= B) -> B ∈ ds -> py_max ds = Some B.
Proof.
  destruct ds as [|v rest]; [done|]. intros _ Hle Hin. cbn. f_equal.
  assert (Hup : foldr Z.max v rest <= B).
  { assert (Hv : v <= B) by (apply Hle; set_solver).
    assert (Hr : forall y, y ∈ rest -> y <= B) by (intros; apply Hle; set_solver).
    clear Hle Hin. induction rest as [|y rest IH]; cbn; [done|].
    assert (y <= B) by (apply Hr; set_solver).
    assert (foldr Z.max v rest <= B) by (apply IH; intros; apply Hr; set_solver). lia. }
  assert (Hlow : B <= foldr Z.max v rest).
  { clear Hle Hup. apply elem_of_cons in Hin as [->|Hin].
    - induction rest as [|y rest IH]; cbn; lia.
    - induction rest as [|y rest IH]; [by apply elem_of_nil in Hin|].
      cbn. apply elem_of_cons in Hin as [->|Hin]; [lia|]. specialize (IH Hin). lia. }
  lia.
Qed.

Variable blocks : list BlockConfig.
Hypothesis valid : valid_blocks blocks.
Variable P : list (list string).
Hypothesis inv : order_inv blocks (list_to_set (cfg_name <$> blocks)) P.

Lemma block_dict_get b :
  b ∈ blocks -> dict_get (cfg_name b) (block_dict blocks) = Some b.
Proof using valid.
  intros Hb. destruct valid as (Hnd & _). unfold block_dict.
  rewrite dict_of_list_unique by done. apply dict_get_elem.
  - by rewrite <- list_fmap_compose.
  - apply list_elem_of_fmap. by exists b.
Qed.

(** The depth of a block is the number of its phase. *)
Lemma depth_is_phase i :
  forall phase b fuel,
    P !! i = Some phase -> b ∈ blocks -> cfg_name b ∈ phase -> (i < fuel)%nat ->
    depth fuel (block_dict blocks) (cfg_name b) = Some (Z.of_nat i + 1).
Proof using valid inv.
  destruct inv as (_ & HndP & _ & _ & Hfirst & Hearly & _).
  destruct valid as (Hnd & Hclosed & _).
  induction i as [i IH] using lt_wf_ind. intros phase b fuel Hi Hb Hn Hfuel.
  destruct fuel as [|fuel]; [lia|]. cbn [depth].
  rewrite block_dict_get by done. cbn [mbind option_bind].
  destruct (cfg_depends_on b) as [|d0 deps0] eqn:Hdeps.
  { destruct i as [|i]; [done|].
    destruct (Hearly i phase b Hi Hb Hn) as (d & _ & Hd & _).
    rewrite Hdeps in Hd. by apply elem_of_nil in Hd. }
  rewrite <- Hdeps.
  assert (Hpos : (0 < i)%nat).
  { destruct (Hfirst i phase b d0 Hi Hb Hn) as (j & _ & Hj & _);
      [rewrite Hdeps; set_solver|lia]. }
  assert (Hds : exists ds,
            mapM (depth fuel (block_dict blocks)) (cfg_depends_on b) = Some ds /\
            length ds = length (cfg_depends_on b) /\
            (forall y, y ∈ ds -> y <= Z.of_nat i) /\
            (forall d j q, d ∈ cfg_depends_on b -> P !! j = Some q -> d ∈ q ->
               Z.of_nat j + 1 ∈ ds)).
  { assert (Hsub : forall d, d ∈ cfg_depends_on b ->
              exists j q, (j < i)%nat /\ P !! j = Some q /\ d ∈ q /\
                depth fuel (block_dict blocks) d = Some (Z.of_nat j + 1)).
    { intros d Hd. destruct (Hfirst i phase b d Hi Hb Hn Hd) as (j & q & Hj & Hq & Hdq).
      exists j, q. split; [done|]. split; [done|]. split; [done|].
      pose proof (Hclosed b d Hb Hd) as Hdn.
      apply list_elem_of_fmap in Hdn as (bd & -> & Hbd).
      apply (IH j Hj q bd fuel Hq Hbd Hdq). lia. }
    clear Hdeps. induction (cfg_depends_on b) as [|d deps IHd].
    - exists []. cbn. split; [done|]. split; [done|].
      split; [by intros y ?%elem_of_nil|]. by intros d j q ?%elem_of_nil.
    - destruct IHd as (ds & Hmap & Hlen & Hle & Hin).
      { intros d' Hd'. apply Hsub. set_solver. }
      destruct (Hsub d ltac:(set_solver)) as (j & q & Hj & Hq & Hdq & Hdepth).
      exists ((Z.of_nat j + 1) :: ds). cbn [mapM]. rewrite Hdepth, Hmap. cbn.
      split; [done|]. split; [by rewrite Hlen|]. split.
      + intros y [->|Hy]%elem_of_cons; [lia|by apply Hle].
      + intros d' j' q' [->|Hd']%elem_of_cons Hq' Hdq'.
        * assert (j' = j) as -> by (by eapply phase_index_unique).
          set_solver.
        * apply elem_of_cons. right. by eapply Hin. }
  destruct Hds as (ds & -> & Hlen & Hle & Hin). cbn [mbind option_bind].
  destruct i as [|i]; [lia|].
  destruct (Hearly i phase b Hi Hb Hn) as (d & q & Hd & Hq & Hdq).
  rewrite (py_max_bounds ds (Z.of_nat (S i))).
  - cbn. f_equal. lia.
  - intros ->. rewrite Hdeps in Hlen. done.
  - done.
  - replace (Z.of_nat (S i)) with (Z.of_nat i + 1) by lia. by eapply Hin.
Qed.

(** Every block has a phase, and there are at most as many phases as
    blocks. *)
Lemma block_has_phase b :
  b ∈ blocks -> exists i phase, P !! i = Some phase /\ cfg_name b ∈ phase.
Proof using inv.
  destruct inv as (HE & _). intros Hb. apply elem_of_concat_lookup.
  apply (elem_of_list_to_set (C := gset string)). rewrite <- HE.
  apply elem_of_list_to_set, list_elem_of_fmap. by exists b.
Qed.

Lemma phases_at_most_blocks : (length P <= length blocks)%nat.
Proof using valid inv.
  destruct inv as (HE & HndP & _ & Hne & _). destruct valid as (Hnd & _).
  assert (Hlen : length (concat P) = length blocks).
  { rewrite <- (length_fmap cfg_name blocks).
    rewrite <- (size_list_to_set (C := gset string) (concat P)) by done.
    rewrite <- (size_list_to_set (C := gset string) (cfg_name <$> blocks)) by done.
    by rewrite HE. }
  rewrite <- Hlen. clear -Hne. induction Hne as [|p P Hp _ IH]; [done|].
  cbn. rewrite length_app. destruct p; [done|]. cbn. lia.
Qed.

(** The depth that [depths] records for a block. *)
Lemma depth_of_block b i phase :
  b ∈ blocks -> P !! i = Some phase -> cfg_name b ∈ phase ->
  depth (length blocks) (block_dict blocks) (cfg_name b) = Some (Z.of_nat i + 1).
Proof using valid inv.
  intros Hb Hi Hn. apply (depth_is_phase i phase b _ Hi Hb Hn).
  pose proof phases_at_most_blocks. pose proof (lookup_lt_Some _ _ _ Hi). lia.
Qed.

Lemma depths_spec :
  depths blocks
  = Some ((fun b => (cfg_name b,
                     default 0 (depth (length blocks) (block_dict blocks) (cfg_name b))))
            <$> blocks).
Proof using valid inv.
  unfold depths. destruct valid as (Hnd & _).
  assert (Hgen : forall l, (forall b, b ∈ l -> b ∈ blocks) -> NoDup (cfg_name <$> l) ->
            foldl (fun acc block =>
                     d ← acc;
                     v ← depth (length blocks) (block_dict blocks) (cfg_name block);
                     Some (dict_set (cfg_name block) v d)) (Some []) l
            = Some ((fun b => (cfg_name b,
                       default 0 (depth (length blocks) (block_dict blocks) (cfg_name b))))
                      <$> l)).
  { induction l as [|b l IH] using rev_ind; [done|]. intros Hin.
    rewrite fmap_app. intros [Hndl [Hdisj _]]%NoDup_app.
    rewrite foldl_app, fmap_app. cbn [foldl].
    rewrite IH; [|intros; apply Hin; set_solver|done]. cbn [mbind option_bind].
    destruct (block_has_phase b) as (i & phase & Hi & Hn); [apply Hin; set_solver|].
    change ((fun b0 => (cfg_name b0,
               default 0 (depth (length blocks) (block_dict blocks) (cfg_name b0))))
              <$> [b])
      with [(cfg_name b,
             default 0 (depth (length blocks) (block_dict blocks) (cfg_name b)))].
    rewrite (depth_of_block b i phase) by (try done; apply Hin; set_solver).
    cbn. f_equal. apply dict_set_fresh. rewrite <- list_fmap_compose. intros Hb.
    apply (Hdisj (cfg_name b)); [exact Hb|set_solver]. }
  by apply Hgen.
Qed.

End CriticalPathFacts.

(** X26. On a validated workflow with at least one block,
    [get_critical_path] and [get_execution_order] both return, and they
    agree: the depth that [get_critical_path] computes for a block is the
    number of its phase (counting from 1), the largest depth is the
    number of phases, and the blocks returned as the critical path are
    exactly the blocks of the last phase. *)
Theorem critical_path_is_last_phase (blocks : list Workflow.BlockConfig)
    (Hvalid : Workflow.valid_blocks blocks) (Hne : blocks <> []) :
  exists phases last path,
    Workflow.get_execution_order blocks = Some (Workflow.Phases (phases ++ [last])) /\
    CriticalPath.get_critical_path blocks = Some path /\
    (forall n, n ∈ path <-> n ∈ last) /\
    (forall i phase b,
       (phases ++ [last]) !! i = Some phase -> b ∈ blocks ->
       Workflow.cfg_name b ∈ phase ->
       CriticalPath.depth (length blocks) (CriticalPath.block_dict blocks)
         (Workflow.cfg_name b) = Some (Z.of_nat i + 1)).
Proof.
  pose proof Hvalid as (Hnd & _).
  destruct (order_loop_spec blocks (length blocks) ∅ [] Hvalid (order_inv_init blocks))
    as (P & Hrun & Hinv).
  { rewrite size_list_to_set by done. rewrite length_fmap. lia. }
  pose proof Hinv as (HE & HndP & _ & Hnonempty & _).
  assert (HP : P <> []).
  { intros ->. destruct blocks as [|b0 blocks0]; [done|].
    assert (Workflow.cfg_name b0 ∈ (∅ : gset string)); [|set_solver].
    cbn in HE. rewrite <- HE. set_solver. }
  destruct (exists_last HP) as (phases & last & ->).
  exists phases, last.
  pose proof (depths_spec blocks Hvalid _ Hinv) as Hdepths.
  remember (fun b => default 0 (CriticalPath.depth (length blocks)
                                  (CriticalPath.block_dict blocks) (Workflow.cfg_name b)))
    as v eqn:Hveq.
  assert (Hdepths' : CriticalPath.depths blocks
                     = Some ((fun b => (Workflow.cfg_name b, v b)) <$> blocks))
    by (rewrite Hveq; exact Hdepths).
  assert (Hv : forall b i phase, b ∈ blocks -> (phases ++ [last]) !! i = Some phase ->
            Workflow.cfg_name b ∈ phase -> v b = Z.of_nat i + 1).
  { intros b i phase Hb Hi Hn. rewrite Hveq.
    by rewrite (depth_of_block blocks Hvalid _ Hinv b i phase). }
  assert (Hlast_idx : (phases ++ [last]) !! length phases = Some last).
  { rewrite lookup_app_r by lia. by rewrite Nat.sub_diag. }
  assert (Hlast_ne : last <> []).
  { rewrite Forall_app in Hnonempty. destruct Hnonempty as [_ Hl].
    by inversion Hl. }
  assert (Hlast_block : forall n, n ∈ last -> exists b, b ∈ blocks /\ Workflow.cfg_name b = n).
  { intros n Hn.
    assert (Hin : n ∈ (list_to_set (Workflow.cfg_name <$> blocks) : gset string)).
    { rewrite HE. apply elem_of_list_to_set. rewrite concat_app. cbn.
      rewrite app_nil_r. set_solver. }
    apply elem_of_list_to_set, list_elem_of_fmap in Hin as (b & -> & Hb). by exists b. }
  assert (Hmax : CriticalPath.py_max (snd <$> ((fun b => (Workflow.cfg_name b, v b)) <$> blocks))
                 = Some (Z.of_nat (length phases) + 1)).
  { apply py_max_bounds.
    - by destruct blocks.
    - intros y ((n & y') & -> & (b & [= -> ->] & Hb)%list_elem_of_fmap)%list_elem_of_fmap.
      cbn. destruct (block_has_phase blocks _ Hinv b Hb) as (i & phase & Hi & Hn).
      rewrite (Hv b i phase Hb Hi Hn).
      pose proof (lookup_lt_Some _ _ _ Hi) as Hlt. rewrite length_app in Hlt.
      cbn in Hlt. lia.
    - destruct last as [|n last']; [done|].
      destruct (Hlast_block n ltac:(set_solver)) as (b & Hb & Hn).
      apply list_elem_of_fmap. exists (Workflow.cfg_name b, v b). split.
      + cbn. symmetry. apply (Hv b _ _ Hb Hlast_idx). rewrite Hn. set_solver.
      + apply list_elem_of_fmap. by exists b. }
  eexists. split; [done|]. split.
  { unfold CriticalPath.get_critical_path. rewrite Hdepths'. cbn [mbind option_bind].
    rewrite Hmax. cbn [mbind option_bind]. reflexivity. }
  split.
  - intros n. rewrite list_elem_of_fmap. split.
    + intros ((n' & y) & -> & [Hy Hin]%list_elem_of_filter). cbn in Hy. cbn.
      apply list_elem_of_fmap in Hin as (b & [= -> ->] & Hb).
      destruct (block_has_phase blocks _ Hinv b Hb) as (i & phase & Hi & Hn).
      rewrite (Hv b i phase Hb Hi Hn) in Hy.
      assert (i = length phases) as -> by lia.
      rewrite Hlast_idx in Hi. by injection Hi as <-.
    + intros Hn. destruct (Hlast_block n Hn) as (b & Hb & <-).
      exists (Workflow.cfg_name b, v b). split; [done|].
      apply list_elem_of_filter. split.
      * cbn. by apply (Hv b _ _ Hb Hlast_idx).
      * apply list_elem_of_fmap. by exists b.
  - intros i phase b Hi Hb Hn.
    by apply (depth_of_block blocks Hvalid _ Hinv b i phase).
Qed.

Lemma critical_path_is_last_phase_witness :
  Workflow.get_execution_order Workflow.sample_diamond
  = Some (Workflow.Phases [["a"]; ["b"; "c"]; ["d"]]) /\
  CriticalPath.get_critical_path Workflow.sample_diamond = Some ["d"] /\
  exists phases last path,
    Workflow.get_execution_order Workflow.sample_diamond
    = Some (Workflow.Phases (phases ++ [last])) /\
    CriticalPath.get_critical_path Workflow.sample_diamond = Some path /\
    (forall n, n ∈ path <-> n ∈ last).
Proof.
  split; [vm_compute; reflexivity|]. split; [vm_compute; reflexivity|].
  assert (Hvalid : Workflow.valid_blocks Workflow.sample_diamond).
  { split; [|split].
    - assert (H : bool_decide (NoDup (Workflow.cfg_name <$> Workflow.sample_diamond)) = true)
        by (vm_compute; reflexivity).
      exact (bool_decide_eq_true_1 _ H).
    - intros b d Hb Hd. unfold Workflow.sample_diamond in Hb.
      repeat (apply elem_of_cons in Hb as [->|Hb]); [| | | |by apply elem_of_nil in Hb];
        cbn in Hd; set_unfold in Hd; destruct_or? Hd; try done; subst d;
        cbn; set_unfold; auto.
    - exists (fun n => if decide (n = "a") then 0%nat
                       else if decide (n = "d") then 2%nat else 1%nat).
      intros b d Hb Hd. unfold Workflow.sample_diamond in Hb.
      repeat (apply elem_of_cons in Hb as [->|Hb]); [| | | |by apply elem_of_nil in Hb];
        cbn in Hd; set_unfold in Hd; destruct_or? Hd; try done; subst d;
        vm_compute; lia. }
  destruct (critical_path_is_last_phase _ Hvalid ltac:(done))
    as (phases & last & path & H1 & H2 & H3 & _).
  by exists phases, last, path.
Defined.

Section LookupFacts.

Import PyStr Prompt.

Lemma strip_prefix_app (p s : list ascii) : strip_prefix p (p ++ s) = Some s.
Proof.
  induction p as [|c p IH]; [by destruct s|].
  cbn [app strip_prefix]. unfold eqc. by rewrite Ascii.eqb_refl.
Qed.

Lemma json_block_name_suffix (block_name : string) :
  json_block_name (block_name +:+ ".json") = Some block_name.
Proof.
  unfold json_block_name. rewrite of_string_app, rev_app_distr, strip_prefix_app.
  cbn [fmap option_fmap option_map]. rewrite rev_involutive.
  unfold to_string, of_string. by rewrite string_of_list_ascii_of_string.
Qed.

End LookupFacts.

(** X27. File references of a prompt ([assemble_prompt]): the path a
    reference resolves to exists on disk; a reference [<block>.json]
    whose block has written [<task_dir>/<block>/outputs/result.json]
    resolves to that file, whatever lies in the task outputs and in the
    workflow directory, and is logged as a block output found; and a
    reference that resolves to nothing is in neither the task outputs
    nor the workflow directory, as far as these directories are set. *)
Theorem file_reference_priority (env : Prompt.PromptEnv) (filename : string) :
  let task_output :=
    Prompt.path_join (Prompt.path_join (Prompt.task_dir env) "outputs") filename in
  let workflow_path := Prompt.path_join (Prompt.workflow_dir env) filename in
  (forall path, (Prompt.resolve_file env filename).1 = Some path ->
     Prompt.path_exists env path = true) /\
  (forall block_name,
     let block_output :=
       Prompt.path_join
         (Prompt.path_join (Prompt.path_join (Prompt.task_dir env) block_name) "outputs")
         "result.json" in
     filename = block_name +:+ ".json" ->
     Prompt.task_dir env <> "" ->
     Prompt.path_exists env block_output = true ->
     Prompt.resolve_file env filename =
       (Some block_output,
        ["BLOCK OUTPUT FOUND | " +:+ block_name +:+ " | " +:+ block_output])) /\
  ((Prompt.resolve_file env filename).1 = None ->
     (Prompt.task_dir env <> "" -> Prompt.path_exists env task_output = false) /\
     (Prompt.workflow_dir env <> "" -> Prompt.path_exists env workflow_path = false)).
Proof.
  cbv zeta. split; [|split].
  - intros path. unfold Prompt.resolve_file.
    destruct (decide (Prompt.task_dir env = "")) as [Ht|Ht].
    + rewrite (bool_decide_eq_true_2 _ Ht). cbn [negb andb].
      destruct (bool_decide (Prompt.workflow_dir env = "")); cbn [negb andb]; [done|].
      destruct (Prompt.path_exists env (Prompt.path_join (Prompt.workflow_dir env) filename))
        eqn:He; cbn [fst]; [|done].
      by intros [= <-].
    + destruct (Prompt.json_block_name filename) as [bn|]; cbn [mbind option_bind].
      * destruct (Prompt.path_exists env
          (Prompt.path_join (Prompt.path_join (Prompt.path_join (Prompt.task_dir env) bn)
             "outputs") "result.json")) eqn:Hb.
        { cbn [fst]. by intros [= <-]. }
        rewrite (bool_decide_eq_false_2 _ Ht). cbn [negb andb].
        destruct (Prompt.path_exists env
          (Prompt.path_join (Prompt.path_join (Prompt.task_dir env) "outputs") filename))
          eqn:Hto; [cbn [fst]; by intros [= <-]|].
        destruct (bool_decide (Prompt.workflow_dir env = "")); cbn [negb andb]; [done|].
        destruct (Prompt.path_exists env
          (Prompt.path_join (Prompt.workflow_dir env) filename)) eqn:He; cbn [fst]; [|done].
        by intros [= <-].
      * rewrite (bool_decide_eq_false_2 _ Ht). cbn [negb andb].
        destruct (Prompt.path_exists env
          (Prompt.path_join (Prompt.path_join (Prompt.task_dir env) "outputs") filename))
          eqn:Hto; [cbn [fst]; by intros [= <-]|].
        destruct (bool_decide (Prompt.workflow_dir env = "")); cbn [negb andb]; [done|].
        destruct (Prompt.path_exists env
          (Prompt.path_join (Prompt.workflow_dir env) filename)) eqn:He; cbn [fst]; [|done].
        by intros [= <-].
  - intros bn -> Ht Hex. unfold Prompt.resolve_file.
    rewrite json_block_name_suffix. cbn [mbind option_bind].
    destruct (decide (Prompt.task_dir env = "")); [done|].
    by rewrite Hex.
  - unfold Prompt.resolve_file.
    destruct (if decide (Prompt.task_dir env = "") then None else _) as [[bn path]|];
      [done|].
    destruct (Prompt.path_exists env
      (Prompt.path_join (Prompt.path_join (Prompt.task_dir env) "outputs") filename))
      eqn:Hto;
    destruct (Prompt.path_exists env
      (Prompt.path_join (Prompt.workflow_dir env) filename)) eqn:He;
    destruct (bool_decide (Prompt.task_dir env = "")) eqn:Ht;
    destruct (bool_decide (Prompt.workflow_dir env = "")) eqn:Hw;
    cbn [negb andb fst]; try done;
    try apply bool_decide_eq_true_1 in Ht; try apply bool_decide_eq_true_1 in Hw;
    by intros _; split.
Qed.

Section CycleFacts.

Import Workflow Validators.

Variable graph : Graph.

#[local] Abbreviation nodes := (list_to_set (C := gset string) graph.*1).
#[local] Abbreviation nbrs := (fun u : string => default [] (dict_get u graph)).
#[local] Abbreviation good := (fun (F : gset string) (rank : string -> nat) =>
  forall u v, u ∈ F -> v ∈ nbrs u -> v ∈ F /\ (rank v < rank u)%nat).
#[local] Abbreviation decreasing := (fun rank : string -> nat =>
  forall u v, v ∈ nbrs u -> (rank v < rank u)%nat).
#[local] Abbreviation visit_ok := (fun (start : string) (V S : gset string) (r : Visit) =>
  match r with
  | KeyError => False
  | Cycle _ =>
      forall rank, decreasing rank -> exists w, w ∈ S /\ (rank w <= rank start)%nat
  | NoCycle V' S' =>
      S' = S /\ V ⊆ V' /\ start ∈ V' /\
      (forall rank, good (V ∖ S) rank -> exists rank', good (V' ∖ S) rank')
  end).

Hypothesis Hclosed : forall u v, v ∈ nbrs u -> v ∈ nodes.

Lemma finish_rank (F : gset string) rank start :
  good F rank -> start ∉ F -> (forall v, v ∈ nbrs start -> v ∈ F) ->
  exists rank', good ({[start]} ∪ F) rank'.
Proof.
  intros Hgood Hstart Hn.
  exists (fun x => if decide (x = start) then S (max_list (rank <$> elements F))
                   else rank x).
  intros u v Hu Hv.
  destruct (decide (u = start)) as [->|Hus].
  - specialize (Hn v Hv). split; [set_solver|].
    rewrite decide_False by (intros ->; done).
    apply Nat.lt_succ_r, max_list_elem_of_le, list_elem_of_fmap.
    exists v. split; [done|]. by apply elem_of_elements.
  - assert (HuF : u ∈ F) by set_solver.
    destruct (Hgood u v HuF Hv) as [HvF Hlt]. split; [set_solver|].
    by rewrite decide_False by (intros ->; done).
Qed.

Lemma visit_neighbors_ok fuel start S0 :
  (forall n V S, n ∈ nodes -> n ∉ V -> S ⊆ V -> (size (nodes ∖ V) <= fuel)%nat ->
     exists r, has_cycle_from fuel graph n V S = Some r /\ visit_ok n V S r) ->
  start ∉ S0 ->
  forall ns V,
    (forall v, v ∈ ns -> v ∈ nbrs start) ->
    (forall v, v ∈ nbrs start -> v ∈ ns \/ v ∈ V ∖ ({[start]} ∪ S0)) ->
    {[start]} ∪ S0 ⊆ V -> (size (nodes ∖ V) <= fuel)%nat ->
    exists r,
      visit_neighbors (has_cycle_from fuel graph) start ns V ({[start]} ∪ S0) = Some r /\
      match r with
      | KeyError => False
      | Cycle _ =>
          forall rank, decreasing rank ->
            exists w, w ∈ {[start]} ∪ S0 /\ (rank w < rank start)%nat
      | NoCycle V' S' =>
          S' = S0 /\ V ⊆ V' /\
          (forall rank, good (V ∖ ({[start]} ∪ S0)) rank -> exists rank', good (V' ∖ S0) rank')
      end.
Proof.
  intros IHfuel Hstart. induction ns as [|neighbor rest IH]; intros V Hns Hdone Hstack Hsize.
  - cbn [visit_neighbors]. rewrite decide_True by set_solver.
    eexists. split; [reflexivity|]. split; [set_solver|]. split; [done|].
    intros rank Hgood.
    assert (V ∖ S0 = {[start]} ∪ V ∖ ({[start]} ∪ S0)) as ->.
    { clear -Hstart Hstack. apply set_eq. intros x. set_unfold.
      destruct (decide (x = start)) as [->|]; naive_solver. }
    apply (finish_rank _ rank); [done|clear; set_solver|].
    intros v Hv. destruct (Hdone v Hv) as [?%elem_of_nil|?]; done.
  - cbn [visit_neighbors].
    assert (Hnb : neighbor ∈ nbrs start) by (apply Hns; left).
    destruct (decide (neighbor ∉ V)) as [Hnew|Hold].
    + destruct (IHfuel neighbor V ({[start]} ∪ S0)) as (r1 & -> & Hr1);
        [exact (Hclosed start neighbor Hnb)|done|done|done|].
      destruct r1 as [path|V1 S1|]; [| |done].
      * eexists. split; [reflexivity|]. intros rank Hdec.
        destruct (Hr1 rank Hdec) as (w & Hw & Hle). exists w. split; [done|].
        specialize (Hdec start neighbor Hnb). lia.
      * destruct Hr1 as (-> & HV1 & Hin1 & Hghost1).
        destruct (IH V1) as (r & Hr & Hpost).
        { intros v Hv. apply Hns. by right. }
        { intros v Hv. destruct (Hdone v Hv) as [[->|?]%elem_of_cons|?].
          - right. set_solver.
          - by left.
          - right. set_solver. }
        { set_solver. }
        { etrans; [|exact Hsize]. apply subseteq_size. set_solver. }
        exists r. split; [done|]. destruct r as [p|V' S'|]; [done| |done].
        destruct Hpost as (-> & HV' & Hghost). split; [done|]. split; [set_solver|].
        intros rank Hgood. destruct (Hghost1 rank Hgood) as [rank1 Hgood1].
        by apply (Hghost rank1).
    + destruct (decide (neighbor ∈ {[start]} ∪ S0)) as [Hon|Hoff].
      * eexists. split; [reflexivity|]. intros rank Hdec.
        exists neighbor. split; [done|]. by apply Hdec.
      * apply IH; [|intros v Hv|done|done].
        { intros v Hv. apply Hns. by right. }
        destruct (Hdone v Hv) as [[->|?]%elem_of_cons|?].
        -- right. apply dec_stable in Hold. set_solver.
        -- by left.
        -- by right.
Qed.

Lemma has_cycle_from_ok fuel n V S :
  n ∈ nodes -> n ∉ V -> S ⊆ V -> (size (nodes ∖ V) <= fuel)%nat ->
  exists r, has_cycle_from fuel graph n V S = Some r /\ visit_ok n V S r.
Proof.
  revert n V S. induction fuel as [|fuel IH]; intros n V S Hn HnV HS Hsize.
  - assert (Hempty : nodes ∖ V ≡ ∅) by (apply size_empty_iff; lia).
    set_solver.
  - cbn [has_cycle_from].
    destruct (visit_neighbors_ok fuel n S IH) with (ns := nbrs n) (V := {[n]} ∪ V)
      as (r & Hr & Hpost).
    + set_solver.
    + done.
    + intros v Hv. by left.
    + set_solver.
    + assert (Heq : nodes ∖ V = {[n]} ∪ nodes ∖ ({[n]} ∪ V)).
      { apply set_eq. intros x. set_unfold.
        destruct (decide (x = n)) as [->|]; naive_solver. }
      rewrite Heq, size_union, size_singleton in Hsize by set_solver. lia.
    + exists r. split; [done|]. destruct r as [p|V' S'|]; [| |done].
      * intros rank Hdec. destruct (Hpost rank Hdec) as (w & Hw & Hlt).
        exists w. split; [|lia].
        apply elem_of_union in Hw as [->%elem_of_singleton|Hw]; [lia|done].
      * destruct Hpost as (-> & HV' & Hghost). split; [done|].
        split; [set_solver|]. split; [set_solver|].
        intros rank Hgood. apply (Hghost rank).
        by assert (({[n]} ∪ V) ∖ ({[n]} ∪ S) = V ∖ S) as -> by set_solver.
Qed.

Lemma find_cycle_ok fuel :
  (size nodes <= fuel)%nat ->
  forall names V,
    (forall n, n ∈ names -> n ∈ nodes) -> (exists rank, good V rank) ->
    exists r, find_cycle fuel graph names V = Some r /\
      match r with
      | KeyError => False
      | Cycle _ => forall rank, ~ decreasing rank
      | NoCycle V' _ =>
          V ⊆ V' /\ list_to_set names ⊆ V' /\ exists rank, good V' rank
      end.
Proof.
  intros Hfuel. induction names as [|n names IH]; intros V Hnames [rank Hgood].
  - cbn. eexists. split; [reflexivity|]. split; [done|]. split; [set_solver|].
    by exists rank.
  - cbn [find_cycle]. destruct (decide (n ∉ V)) as [Hnew|Hold].
    + destruct (has_cycle_from_ok fuel n V ∅) as (r1 & -> & Hr1).
      * apply Hnames. left.
      * done.
      * set_solver.
      * etrans; [|exact Hfuel]. apply subseteq_size. set_solver.
      * destruct r1 as [p|V1 S1|]; [| |done].
        { eexists. split; [reflexivity|]. intros rk Hdec.
          destruct (Hr1 rk Hdec) as (w & Hw & _). set_solver. }
        destruct Hr1 as (-> & HV1 & Hin1 & Hghost1).
        rewrite !difference_empty_L in Hghost1.
        destruct (IH V1) as (r & Hr & Hpost).
        { intros m Hm. apply Hnames. by right. }
        { by apply (Hghost1 rank). }
        exists r. split; [done|]. destruct r as [p|V' S'|]; [done| |done].
        destruct Hpost as (HV' & Hall & Hrank). split; [set_solver|].
        split; [set_solver|done].
    + apply dec_stable in Hold.
      destruct (IH V) as (r & Hr & Hpost).
      { intros m Hm. apply Hnames. by right. }
      { by exists rank. }
      exists r. split; [done|]. destruct r as [p|V' S'|]; [done| |done].
      destruct Hpost as (HV' & Hall & Hrank). split; [done|].
      split; [set_solver|done].
Qed.

End CycleFacts.

Section ValidatorFacts.

Import Workflow Validators.

Lemma size_list_to_set_le (l : list string) :
  (size (list_to_set (C := gset string) l) <= length l)%nat.
Proof.
  induction l as [|x l IH]; cbn [list_to_set length].
  - by rewrite size_empty.
  - rewrite size_union_alt, size_singleton.
    assert (Hsub : list_to_set (C := gset string) l ∖ {[x]} ⊆ list_to_set l)
      by set_solver.
    apply subseteq_size in Hsub. lia.
Qed.

Lemma length_eq_size_NoDup (l : list string) :
  length l = size (list_to_set (C := gset string) l) <-> NoDup l.
Proof.
  split; [|intros Hnd; by rewrite size_list_to_set].
  induction l as [|x l IH]; [constructor|].
  cbn [list_to_set length]. intros Hlen.
  pose proof (size_list_to_set_le l) as Hle.
  destruct (decide (x ∈ l)) as [Hin|Hout].
  - assert (Heq : {[x]} ∪ list_to_set (C := gset string) l = list_to_set l)
      by set_solver.
    rewrite Heq in Hlen. lia.
  - rewrite size_union, size_singleton in Hlen by set_solver.
    constructor; [done|]. apply IH. lia.
Qed.

Lemma dict_set_keys {V} (d : list (string * V)) k v :
  list_to_set (C := gset string) (dict_set k v d).*1 = {[k]} ∪ list_to_set d.*1.
Proof.
  induction d as [|[k' v'] d IH]; cbn.
  - set_solver.
  - case_decide as Hk; cbn; [subst; set_solver|]. rewrite IH. set_solver.
Qed.

Lemma dict_set_elem {V} (d : list (string * V)) k v kv :
  kv ∈ dict_set k v d -> kv = (k, v) \/ kv ∈ d.
Proof.
  induction d as [|[k' v'] d IH]; cbn.
  - intros ?%list_elem_of_singleton. by left.
  - case_decide as Hk.
    + intros [->|?]%elem_of_cons; [by left|right; by right].
    + intros [->|Hin]%elem_of_cons; [right; left|].
      destruct (IH Hin) as [->|?]; [by left|right; by right].
Qed.

Lemma graph_of_keys blocks :
  list_to_set (C := gset string) (graph_of blocks).*1 = list_to_set (cfg_name <$> blocks).
Proof.
  unfold graph_of. induction blocks as [|b blocks IH] using rev_ind; [done|].
  rewrite foldl_app, fmap_app, list_to_set_app_L. cbn [foldl].
  rewrite dict_set_keys, IH. set_solver.
Qed.

Lemma graph_of_elem blocks k deps :
  (k, deps) ∈ graph_of blocks ->
  exists b, b ∈ blocks /\ cfg_name b = k /\ cfg_depends_on b = deps.
Proof.
  unfold graph_of. induction blocks as [|b blocks IH] using rev_ind.
  - by intros ?%elem_of_nil.
  - rewrite foldl_app. cbn [foldl]. intros [[= -> ->]|Hin]%dict_set_elem.
    + exists b. split; [|done]. apply elem_of_app. right. left.
    + destruct (IH Hin) as (b' & Hb' & Hk & Hd). exists b'.
      split; [|done]. apply elem_of_app. by left.
Qed.

Lemma graph_of_unique blocks :
  NoDup (cfg_name <$> blocks) ->
  graph_of blocks = (fun b => (cfg_name b, cfg_depends_on b)) <$> blocks.
Proof.
  unfold graph_of. induction blocks as [|b blocks IH] using rev_ind; [done|].
  rewrite fmap_app. intros [Hnd [Hdisj _]]%NoDup_app.
  rewrite foldl_app, fmap_app. cbn. rewrite IH by done.
  apply dict_set_fresh. rewrite <- list_fmap_compose. intros Hin.
  apply (Hdisj (cfg_name b)); [exact Hin|set_solver].
Qed.

Lemma missing_dependency_None (graph : Graph) (A : gset string) :
  missing_dependency graph A = None <->
  forall k deps d, (k, deps) ∈ graph -> d ∈ deps -> d ∈ A.
Proof.
  unfold missing_dependency. rewrite head_None. split.
  - intros Hnil k deps d Hk Hd. apply dec_stable. intros Hout.
    assert (Hin : (k, d) ∈ graph ≫= fun '(block_name, deps) =>
                    pair block_name <$> filter (fun dep => dep ∉ A) deps).
    { apply list_elem_of_bind. exists (k, deps). split; [|done].
      apply list_elem_of_fmap. exists d. split; [done|].
      by apply list_elem_of_filter. }
    rewrite Hnil in Hin. by apply elem_of_nil in Hin.
  - intros Hall. apply elem_of_nil_inv. intros [k d] Hin.
    apply list_elem_of_bind in Hin as ([k' deps] & Hin & Hk).
    apply list_elem_of_fmap in Hin as (d' & [= -> ->] & [Hout Hd]%list_elem_of_filter).
    apply Hout. by eapply Hall.
Qed.

Lemma missing_dependency_Some (graph : Graph) (A : gset string) k d :
  missing_dependency graph A = Some (k, d) ->
  exists deps, (k, deps) ∈ graph /\ d ∈ deps /\ d ∉ A.
Proof.
  unfold missing_dependency. intros Hin%head_Some_elem_of.
  apply list_elem_of_bind in Hin as ([k' deps] & Hin & Hk).
  apply list_elem_of_fmap in Hin as (d' & [= -> ->] & [Hout Hd]%list_elem_of_filter).
  by exists deps.
Qed.

Lemma nbrs_elem (graph : Graph) u v :
  v ∈ default [] (dict_get u graph) -> exists deps, (u, deps) ∈ graph /\ v ∈ deps.
Proof.
  destruct (dict_get u graph) as [deps|] eqn:Hu; cbn; [|by intros ?%elem_of_nil].
  intros Hv. exists deps. split; [by apply dict_get_Some_elem|done].
Qed.

(** What [detect_circular_dependencies] does on a non-empty list: it
    reports the first missing dependency; without one, it accepts and
    the graph has a rank that decreases along every edge, or it reports
    a cycle and the graph has no such rank. *)
Lemma detect_spec blocks :
  blocks <> [] ->
  let graph := graph_of blocks in
  match missing_dependency graph (list_to_set (cfg_name <$> blocks)) with
  | Some (k, d) => detect_circular_dependencies blocks = Some (MissingDependency k d)
  | None =>
      (detect_circular_dependencies blocks = Some Accepted /\
       exists rank : string -> nat,
         forall u v, v ∈ default [] (dict_get u graph) -> (rank v < rank u)%nat) \/
      (exists path, detect_circular_dependencies blocks = Some (CircularDependency path) /\
       forall rank : string -> nat,
         ~ forall u v, v ∈ default [] (dict_get u graph) -> (rank v < rank u)%nat)
  end.
Proof.
  intros Hne graph. unfold detect_circular_dependencies.
  destruct blocks as [|b0 bs]; [done|]. fold graph.
  destruct (missing_dependency graph _) as [[k d]|] eqn:Hmiss; [done|].
  assert (Hclosed : forall u v, v ∈ default [] (dict_get u graph) ->
                      v ∈ list_to_set (C := gset string) graph.*1).
  { intros u v (deps & Hu & Hv)%nbrs_elem. subst graph. rewrite graph_of_keys.
    by apply (proj1 (missing_dependency_None _ _) Hmiss u deps v). }
  destruct (find_cycle_ok graph Hclosed (length graph)) with (names := graph.*1) (V := ∅ : gset string)
    as (r & -> & Hr).
  - etrans; [apply size_list_to_set_le|]. by rewrite length_fmap.
  - intros n Hn. by apply elem_of_list_to_set.
  - exists (fun _ => 0%nat). intros u v Hu. set_solver.
  - destruct r as [p|V' S'|]; [| |done].
    + right. by exists p.
    + left. split; [done|]. destruct Hr as (_ & Hall & rank & Hgood).
      exists rank. intros u v Hv. apply (Hgood u v); [|done].
      apply Hall, elem_of_list_to_set.
      apply nbrs_elem in Hv as (deps & Hu & _).
      apply list_elem_of_fmap. by exists (u, deps).
Qed.

End ValidatorFacts.

(** X28. The validators of the blocks of a workflow,
    [detect_circular_dependencies] and [validate_block_name_uniqueness]:
    the cycle detector always ends with the blocks accepted or with one
    of its two errors, and never fails on removing a name from its
    recursion stack; a dependency it reports as missing is a dependency
    of a block of that name and names no block; and the two validators
    both accept exactly the lists of blocks with unique names whose
    dependencies name blocks and that have a rank decreasing along
    every dependency, that is, have no cycle. *)
Theorem validators_accept_valid_blocks (blocks : list Workflow.BlockConfig) :
  (exists v, Validators.detect_circular_dependencies blocks = Some v /\
             v <> Validators.UnexpectedKeyError) /\
  (forall block_name dep,
     Validators.detect_circular_dependencies blocks
       = Some (Validators.MissingDependency block_name dep) ->
     exists b, b ∈ blocks /\ Workflow.cfg_name b = block_name /\
               dep ∈ Workflow.cfg_depends_on b /\
               dep ∉ Workflow.cfg_name <$> blocks) /\
  (Validators.detect_circular_dependencies blocks = Some Validators.Accepted /\
   Validators.validate_block_name_uniqueness blocks = Validators.Accepted
   <-> Workflow.valid_blocks blocks).
Proof.
  destruct (decide (blocks = [])) as [->|Hne].
  { split; [by eexists|]. split; [done|]. split; [|done]. intros _.
    split; [constructor|]. split; [by intros b d ?%elem_of_nil|].
    exists (fun _ => 0%nat). by intros b d ?%elem_of_nil. }
  pose proof (detect_spec blocks Hne) as Hspec. cbv zeta in Hspec.
  assert (Huniq : Validators.validate_block_name_uniqueness blocks = Validators.Accepted
                  <-> NoDup (Workflow.cfg_name <$> blocks)).
  { unfold Validators.validate_block_name_uniqueness. rewrite <- length_eq_size_NoDup.
    case_decide as Hlen; [done|]. apply dec_stable in Hlen || idtac. done. }
  destruct (Validators.missing_dependency _ _) as [[k d]|] eqn:Hmiss.
  - apply missing_dependency_Some in Hmiss as (deps & Hk & Hd & Hout).
    apply graph_of_elem in Hk as (b & Hb & <- & <-).
    rewrite elem_of_list_to_set in Hout.
    split; [by eexists|]. split.
    { rewrite Hspec. intros bn dep [= <- <-]. by exists b. }
    rewrite Hspec. split; [by intros [? _]|].
    intros (_ & Hdeps & _). destruct Hout. by apply (Hdeps b).
  - rewrite missing_dependency_None in Hmiss.
    split; [destruct Hspec as [[-> _]|(p & -> & _)]; by eexists|].
    split; [destruct Hspec as [[-> _]|(p & -> & _)]; done|].
    rewrite Huniq. split.
    + intros [Hacc Hnd]. split; [done|].
      rewrite (graph_of_unique _ Hnd) in Hmiss, Hspec.
      assert (Hpair : forall b, b ∈ blocks ->
                (Workflow.cfg_name b, Workflow.cfg_depends_on b)
                  ∈ (fun b => (Workflow.cfg_name b, Workflow.cfg_depends_on b)) <$> blocks).
      { intros b Hb. apply list_elem_of_fmap. by exists b. }
      split.
      { intros b d Hb Hd.
        apply (elem_of_list_to_set (C := gset string)).
        by apply (Hmiss (Workflow.cfg_name b) (Workflow.cfg_depends_on b)); [apply Hpair|]. }
      destruct Hspec as [[_ [rank Hrank]]|(p & Hp & _)]; [|congruence].
      exists rank. intros b d Hb Hd. apply Hrank.
      rewrite (dict_get_elem _ (Workflow.cfg_name b) (Workflow.cfg_depends_on b)); [done| |by apply Hpair].
      by rewrite <- list_fmap_compose.
    + intros (Hnd & Hdeps & rank & Hrank). split; [|done].
      destruct Hspec as [[-> _]|(p & _ & Hno)]; [done|].
      destruct (Hno rank). intros u v (deps & Hu & Hv)%nbrs_elem.
      apply graph_of_elem in Hu as (b & Hb & <- & <-). by apply (Hrank b).
Qed.

Example validators_samples :
  Validators.detect_circular_dependencies Validators.sample_cycle
    = Some (Validators.CircularDependency "a -> c -> b -> a") /\
  Validators.detect_circular_dependencies Workflow.sample_diamond
    = Some Validators.Accepted /\
  Validators.validate_block_name_uniqueness Workflow.sample_diamond
    = Validators.Accepted.
Proof. repeat split; vm_compute; reflexivity. Qed.
